(** * MaximoFLujo: the flow-network engine of Proyecto6.py

    A shallow embedding of the class [MaximoFLujo] (graph storage, mutation,
    residual capacities, the depth-first and breadth-first augmenting-path
    solvers, the result shaping and the printing) and of the handlers of
    the window that call it, followed by the properties of the
    specification that are settled on it and by further properties of the
    code.

    - Python integers are unbounded, hence [Z]; [botella] and
      [flujo_maximo] may also hold [float("inf")], hence [num].
    - The three [defaultdict] attributes are finite maps whose read access
      inserts the default value for a missing key; that insertion is
      modelled (see [dd_get]).
    - A method is a function from the state of the object to an outcome:
      a value and a new state, an exception and the state at that point,
      or [Agotado] when the fuel given to the loops and to the recursion
      runs out.  A call that is cut off for every amount of fuel does not
      terminate.
    - The iteration order of a Python [set] is not specified: the solvers
      take it as a parameter [orden], and what is proved about them holds
      for every order that enumerates each set without repetition.
    - The [assert] statements are executed.  The interpreter's limit on
      the depth of recursion is not modelled.
    - [imprimir_desglose] and [mostrar_grafo] return what they print, one
      text for each call of [print].
    - The handlers of the window [AppGrafo] are modelled by what they do
      to the network and by what they show; the widgets are not. *)

From stdpp Require Import gmap sorting pretty.
From Stdlib Require Import ZArith Lia Ascii.

Set Warnings "-clear-no-such-hyp".

Local Open Scope Z_scope.

(* ===================================================================== *)
(** ** Values, exceptions and the object state                            *)
(* ===================================================================== *)

(** The exceptions the class can raise. *)
Inductive exn := AssertionError | ValueError | KeyError | TypeError.

(** [botella] and [flujo_maximo] hold an [int] or the float [float("inf")]. *)
Inductive num := Fin (z : Z) | Inf.

(** [min(botella, r)] for an integer [r]. *)
Definition num_min (b : num) (r : Z) : num :=
  match b with
  | Inf => Fin r
  | Fin z => Fin (Z.min z r)
  end.

(** [flujo_maximo += botella]. *)
Definition num_add (a b : num) : num :=
  match a, b with
  | Fin x, Fin y => Fin (x + y)
  | _, _ => Inf
  end.

(** The four attributes set by [__init__]. *)
Record MaximoFLujo := Grafo {
  capacidad : gmap Z (gmap Z Z);
  flujo : gmap Z (gmap Z Z);
  ady : gmap Z (gset Z);
  _nodos : gset Z
}.

(** [MaximoFLujo()] *)
Definition nuevo : MaximoFLujo := Grafo ∅ ∅ ∅ ∅.

Definition con_capacidad (d : gmap Z (gmap Z Z)) (g : MaximoFLujo) :=
  Grafo d (flujo g) (ady g) (_nodos g).
Definition con_flujo (d : gmap Z (gmap Z Z)) (g : MaximoFLujo) :=
  Grafo (capacidad g) d (ady g) (_nodos g).
Definition con_ady (d : gmap Z (gset Z)) (g : MaximoFLujo) :=
  Grafo (capacidad g) (flujo g) d (_nodos g).
Definition con_nodos (s : gset Z) (g : MaximoFLujo) :=
  Grafo (capacidad g) (flujo g) (ady g) s.

(** [d[u]] on a [defaultdict]: a missing key is inserted with the default. *)
Definition dd_get {V} (dflt : V) (d : gmap Z V) (u : Z) : V * gmap Z V :=
  match d !! u with
  | Some r => (r, d)
  | None => (dflt, <[u := dflt]> d)
  end.

(** What the tables say about a pair, whether or not the row exists:
    [self.capacidad[u].get(v, 0)], [self.flujo[u].get(v, 0)] and the
    content of [self.ady[u]]. *)
Definition entrada (d : gmap Z (gmap Z Z)) (u v : Z) : option Z :=
  d !! u ≫= (.!! v).
Definition cap (g : MaximoFLujo) (u v : Z) : Z :=
  default 0 (entrada (capacidad g) u v).
Definition flw (g : MaximoFLujo) (u v : Z) : Z :=
  default 0 (entrada (flujo g) u v).
Definition vecinos (g : MaximoFLujo) (u : Z) : gset Z :=
  default ∅ (ady g !! u).

(* ===================================================================== *)
(** ** Method calls: state, exceptions, fuel                              *)
(* ===================================================================== *)

(** A call ends normally with a value, raises, or is cut off ([Agotado])
    when the fuel given to a loop or to the recursion is used up. *)
Inductive outcome (A : Type) :=
| Ok (a : A) (g : MaximoFLujo)
| Raise (e : exn) (g : MaximoFLujo)
| Agotado.
Arguments Ok {A} a g.
Arguments Raise {A} e g.
Arguments Agotado {A}.

Definition M (A : Type) : Type := MaximoFLujo → outcome A.

Definition ret {A} (a : A) : M A := fun g => Ok a g.
Definition bind {A B} (c : M A) (k : A → M B) : M B :=
  fun g => match c g with
           | Ok a g' => k a g'
           | Raise e g' => Raise e g'
           | Agotado => Agotado
           end.
Definition raise {A} (e : exn) : M A := fun g => Raise e g.
Definition agotado {A} : M A := fun _ => Agotado.
Definition estado : M MaximoFLujo := fun g => Ok g g.

Notation "'let*' x := c 'in' k" := (bind c (fun x => k))
  (at level 10, x name, c at level 100, k at level 200, only parsing).
Notation "'let*' ' p := c 'in' k" := (bind c (fun x => let 'p := x in k))
  (at level 10, p pattern, c at level 100, k at level 200, only parsing).
Notation "c ;;; k" := (bind c (fun _ => k))
  (at level 100, k at level 200, only parsing, right associativity).

(** The state a call leaves behind, if it returns or raises. *)
Definition estado_final {A} (o : outcome A) : option MaximoFLujo :=
  match o with
  | Ok _ g => Some g
  | Raise _ g => Some g
  | Agotado => None
  end.

(** [self.capacidad[u]], [self.flujo[u]], [self.ady[u]] *)
Definition cap_fila (u : Z) : M (gmap Z Z) :=
  fun g =>
    let '(r, d) := dd_get ∅ (capacidad g) u in Ok r (con_capacidad d g).
Definition flu_fila (u : Z) : M (gmap Z Z) :=
  fun g => let '(r, d) := dd_get ∅ (flujo g) u in Ok r (con_flujo d g).
Definition ady_de (u : Z) : M (gset Z) :=
  fun g => let '(r, d) := dd_get ∅ (ady g) u in Ok r (con_ady d g).

(** [self.capacidad[u][v] = c], [self.flujo[u][v] = x], [self.ady[u].add(v)] *)
Definition set_cap (u v c : Z) : M unit :=
  let* r := cap_fila u in
  fun g => Ok tt (con_capacidad (<[u := <[v := c]> r]> (capacidad g)) g).
Definition set_flujo (u v x : Z) : M unit :=
  let* r := flu_fila u in
  fun g => Ok tt (con_flujo (<[u := <[v := x]> r]> (flujo g)) g).
Definition ady_add (u v : Z) : M unit :=
  let* r := ady_de u in
  fun g => Ok tt (con_ady (<[u := {[v]} ∪ r]> (ady g)) g).

(* ===================================================================== *)
(** ** Graph mutation                                                     *)
(* ===================================================================== *)

Definition agregar_nodo (u : Z) : M unit :=
  fun g => Ok tt (con_nodos ({[u]} ∪ _nodos g) g).

(** Each [for v in list(d.keys()): d[v].pop(u, None)] visits every row once
    and the rows are independent: it is the row-wise map.  The last loop
    also deletes every adjacency set that is empty after the discard. *)
Definition eliminar_nodo (u : Z) : M unit :=
  fun g =>
    let nodos := _nodos g ∖ {[u]} in
    let c := delete u <$> delete u (capacidad g) in
    let f := delete u <$> delete u (flujo g) in
    let a := omap (fun s : gset Z =>
                     let s' := s ∖ {[u]} in
                     if decide (s' = ∅) then None else Some s')
                  (delete u (ady g)) in
    Ok tt (Grafo c f a nodos).

Definition eliminar_arista (u v : Z) : M unit :=
  let* r := cap_fila u in
  fun g => Ok tt (con_capacidad (<[u := delete v r]> (capacidad g)) g).

(** [if v not in self.flujo[u]: self.flujo[u][v] = 0] *)
Definition iniciar_flujo (u v : Z) : M unit :=
  let* fu := flu_fila u in
  if decide (is_Some (fu !! v)) then ret tt else set_flujo u v 0.

Definition establecer_capacidad (u v c : Z) : M unit :=
  if decide (c >= 0) then
    if decide (c = 0) then eliminar_arista u v
    else
      set_cap u v c ;;;
      iniciar_flujo u v ;;;
      iniciar_flujo v u ;;;
      ady_add u v ;;;
      ady_add v u ;;;
      fun g => Ok tt (con_nodos ({[u; v]} ∪ _nodos g) g)
  else raise AssertionError.

Definition agregar_arista (u v c : Z) : M unit :=
  if decide (c >= 0) then
    let* r := cap_fila u in
    establecer_capacidad u v (default 0 (r !! v) + c)
  else raise AssertionError.

(** [for u in ...: for v in ...: self.flujo[u][v] = 0] *)
Definition reiniciar_flujos : M unit :=
  fun g =>
    Ok tt (con_flujo ((fun r : gmap Z Z => (fun _ => 0) <$> r) <$> flujo g) g).

(* ===================================================================== *)
(** ** Enumeration                                                        *)
(* ===================================================================== *)

(** Python's order on tuples [(u, v, cap)]. *)
Definition tupla_le (a b : Z * Z * Z) : Prop :=
  let '(u1, v1, c1) := a in
  let '(u2, v2, c2) := b in
  u1 < u2 ∨ (u1 = u2 ∧ (v1 < v2 ∨ (v1 = v2 ∧ c1 <= c2))).

#[global] Instance tupla_le_dec : RelDecision tupla_le.
Proof. intros [[u1 v1] c1] [[u2 v2] c2]. unfold tupla_le. apply _. Defined.

(** [sorted(self._nodos)] *)
Definition nodos (g : MaximoFLujo) : list Z :=
  merge_sort Z.le (elements (_nodos g)).

(** The triples of every row, before the filter and the sort. *)
Definition filas (d : gmap Z (gmap Z Z)) : list (Z * Z * Z) :=
  '(u, r) ← map_to_list d; (fun '(v, c) => (u, v, c)) <$> map_to_list r.

Definition aristas (g : MaximoFLujo) : list (Z * Z * Z) :=
  merge_sort tupla_le (filter (fun t => 0 < t.2) (filas (capacidad g))).

(* ===================================================================== *)
(** ** Residual capacities                                                *)
(* ===================================================================== *)

Definition _residual_adelante (u v : Z) : M Z :=
  let* rc := cap_fila u in
  let* rf := flu_fila u in
  ret (default 0 (rc !! v) - default 0 (rf !! v)).

Definition _residual_atras (u v : Z) : M Z :=
  let* rf := flu_fila v in
  ret (default 0 (rf !! u)).

(* ===================================================================== *)
(** ** The two solvers                                                    *)
(* ===================================================================== *)

(** [u, dir_ = padre[v]], for the dictionary of the depth-first search and
    for that of the breadth-first search, whose values may be [None]. *)
Definition padre_dfs (padre : gmap Z (Z * Z)) (v : Z) : M (Z * Z) :=
  match padre !! v with
  | Some p => ret p
  | None => raise KeyError
  end.

Definition padre_bfs (padre : gmap Z (option (Z * Z))) (v : Z) : M (Z * Z) :=
  match padre !! v with
  | Some (Some p) => ret p
  | Some None => raise TypeError
  | None => raise KeyError
  end.

(** First [while v != fuente] loop: the bottleneck of the recorded path. *)
Fixpoint cuello (n : nat) (pd : Z → M (Z * Z)) (fuente v : Z) (botella : num)
  : M num :=
  if decide (v = fuente) then ret botella
  else match n with
       | O => agotado
       | S n =>
           let* '(u, dir_) := pd v in
           let* r := (if decide (dir_ = 1) then _residual_adelante u v
                      else _residual_atras u v) in
           cuello n pd fuente u (num_min botella r)
       end.

(** One iteration of the second [while v != fuente] loop. *)
Definition paso_empuje (pd : Z → M (Z * Z)) (v botella : Z) : M Z :=
  let* '(u, dir_) := pd v in
  (if decide (dir_ = 1) then
     let* r := flu_fila u in
     set_flujo u v (default 0 (r !! v) + botella)
   else
     let* r := flu_fila v in
     set_flujo v u (default 0 (r !! u) - botella)) ;;;
  ret u.

Fixpoint empujar (n : nat) (pd : Z → M (Z * Z)) (fuente v botella : Z)
  : M unit :=
  if decide (v = fuente) then ret tt
  else match n with
       | O => agotado
       | S n =>
           let* u := paso_empuje pd v botella in
           empujar n pd fuente u botella
       end.

(** The part of the loop body after a successful search.  The bottleneck
    is still [float("inf")] only if the first walk took no step, that is if
    [sumidero = fuente] (lemma [cuello_Inf]); the second walk then takes no
    step either (lemma [empujar_fuente]), so nothing is written in that
    case. *)
Definition aumentar (n : nat) (pd : Z → M (Z * Z)) (fuente sumidero : Z)
  : M num :=
  let* botella := cuello n pd fuente sumidero Inf in
  match botella with
  | Fin b => empujar n pd fuente sumidero b ;;; ret (Fin b)
  | Inf => ret Inf
  end.

(** One step of the inner loops that build [flujo_aristas]. *)
Fixpoint para_cada {A B} (l : list A) (f : A → B → M B) (acc : B) : M B :=
  match l with
  | [] => ret acc
  | x :: l => let* acc := f x acc in para_cada l f acc
  end.

(** [flujo_aristas]: one clamped entry per stored capacity entry. *)
Definition desglose : M (gmap (Z * Z) Z) :=
  let* g := estado in
  para_cada (map_to_list (capacidad g))
    (fun '(u, fila) acc =>
       para_cada (map_to_list fila)
         (fun '(v, c) acc =>
            let* rf := flu_fila u in
            ret (<[(u, v) := Z.max 0 (Z.min c (default 0 (rf !! v)))]> acc))
         acc)
    ∅.

Section Solvers.

(** The order in which [for vecino in self.ady[u]] yields the members of
    the set, possibly a different one for each node [u].  The theorems
    assume that it enumerates the set without repetition:
    [∀ u X, orden u X ≡ₚ elements X]. *)
Variable orden : Z → gset Z → list Z.

(** *** Depth-first search *)

Definition dfs_res : Type := bool * gset Z * gmap Z (Z * Z).

(** One of the two [if] statements in the body of
    [for vecino in self.ady[actual]]: the test, the assignment to [padre]
    and the recursive call, which is a parameter.  [res] and [dir_] are
    [_residual_adelante] and [+1] in the first statement,
    [_residual_atras] and [-1] in the second. *)
Definition dfs_intento (rec : Z → gset Z → gmap Z (Z * Z) → M dfs_res)
    (res : Z → Z → M Z) (dir_ : Z) (actual vecino : Z)
    (visitado : gset Z) (padre : gmap Z (Z * Z)) : M dfs_res :=
  let* b := (if decide (vecino ∈ visitado) then ret false
             else let* r := res actual vecino in ret (bool_decide (r > 0))) in
  if b : bool then rec vecino visitado (<[vecino := (actual, dir_)]> padre)
  else ret (false, visitado, padre).

Fixpoint dfs_vecinos (rec : Z → gset Z → gmap Z (Z * Z) → M dfs_res)
    (actual : Z) (l : list Z) (visitado : gset Z) (padre : gmap Z (Z * Z))
  : M dfs_res :=
  match l with
  | [] => ret (false, visitado, padre)
  | vecino :: l =>
      let* '(hallado, visitado, padre) :=
        dfs_intento rec _residual_adelante 1 actual vecino visitado padre in
      if hallado : bool then ret (true, visitado, padre)
      else
        let* '(hallado, visitado, padre) :=
          dfs_intento rec _residual_atras (-1) actual vecino visitado padre in
        if hallado : bool then ret (true, visitado, padre)
        else dfs_vecinos rec actual l visitado padre
  end.

Fixpoint _dfs_aumento (n : nat) (sumidero actual : Z)
    (visitado : gset Z) (padre : gmap Z (Z * Z)) : M dfs_res :=
  match n with
  | O => agotado
  | S n =>
      if decide (actual = sumidero) then ret (true, visitado, padre)
      else
        let visitado := {[actual]} ∪ visitado in
        let* vs := ady_de actual in
        dfs_vecinos (_dfs_aumento n sumidero) actual (orden actual vs)
          visitado padre
  end.

(** One iteration of [while True]: [None] for [break], otherwise the
    bottleneck that was pushed. *)
Definition ronda_dfs (n : nat) (fuente sumidero : Z) : M (option num) :=
  let* '(hallado, _, padre) := _dfs_aumento n sumidero fuente ∅ ∅ in
  if hallado : bool then
    let* b := aumentar n (padre_dfs padre) fuente sumidero in
    ret (Some b)
  else ret None.

Fixpoint bucle (k : nat) (ronda : M (option num)) (flujo_maximo : num)
  : M num :=
  match k with
  | O => agotado
  | S k =>
      let* r := ronda in
      match r with
      | None => ret flujo_maximo
      | Some b => bucle k ronda (num_add flujo_maximo b)
      end
  end.

Definition ford_fulkerson_dfs (n : nat) (fuente sumidero : Z)
  : M (num * gmap (Z * Z) Z) :=
  let* g := estado in
  if decide (fuente ∈ _nodos g ∧ sumidero ∈ _nodos g) then
    reiniciar_flujos ;;;
    let* flujo_maximo := bucle n (ronda_dfs n fuente sumidero) (Fin 0) in
    let* flujo_aristas := desglose in
    ret (flujo_maximo, flujo_aristas)
  else raise ValueError.

(** *** Breadth-first search *)

Definition bfs_res : Type := bool * gmap Z (option (Z * Z)) * list Z.

(** [padre.get(v) is None] *)
Definition sin_padre (padre : gmap Z (option (Z * Z))) (v : Z) : bool :=
  match padre !! v with
  | Some (Some _) => false
  | _ => true
  end.

(** One of the two [if] statements in the body of [for v in self.ady[u]];
    the flag is set when the statement ends in [return True, padre]. *)
Definition bfs_intento (res : Z → Z → M Z) (dir_ : Z) (u sumidero v : Z)
    (padre : gmap Z (option (Z * Z))) (q : list Z) : M bfs_res :=
  let* b := (if sin_padre padre v then
               let* r := res u v in ret (bool_decide (r > 0))
             else ret false) in
  if b : bool then
    let padre := <[v := Some (u, dir_)]> padre in
    if decide (v = sumidero) then ret (true, padre, q)
    else ret (false, padre, q ++ [v])
  else ret (false, padre, q).

Fixpoint bfs_vecinos (u sumidero : Z) (l : list Z)
    (padre : gmap Z (option (Z * Z))) (q : list Z) : M bfs_res :=
  match l with
  | [] => ret (false, padre, q)
  | v :: l =>
      let* '(sale, padre, q) :=
        bfs_intento _residual_adelante 1 u sumidero v padre q in
      if sale : bool then ret (true, padre, q)
      else
        let* '(sale, padre, q) :=
          bfs_intento _residual_atras (-1) u sumidero v padre q in
        if sale : bool then ret (true, padre, q)
        else bfs_vecinos u sumidero l padre q
  end.

(** [while q] *)
Fixpoint bfs_bucle (n : nat) (sumidero : Z)
    (padre : gmap Z (option (Z * Z))) (q : list Z)
  : M (bool * option (gmap Z (option (Z * Z)))) :=
  match q with
  | [] => ret (false, None)
  | u :: q =>
      match n with
      | O => agotado
      | S n =>
          if decide (u = sumidero) then ret (true, Some padre)
          else
            let* vs := ady_de u in
            let* '(sale, padre, q) :=
              bfs_vecinos u sumidero (orden u vs) padre q in
            if sale : bool then ret (true, Some padre)
            else bfs_bucle n sumidero padre q
      end
  end.

Definition _bfs_aumento (n : nat) (fuente sumidero : Z)
  : M (bool * option (gmap Z (option (Z * Z)))) :=
  let* g := estado in
  let padre : gmap Z (option (Z * Z)) := gset_to_gmap None (_nodos g) in
  bfs_bucle n sumidero (<[fuente := Some (fuente, 0)]> padre) [fuente].

(** [padre[v]] when [padre] may be the [None] returned with [False]. *)
Definition padre_de (padre : option (gmap Z (option (Z * Z)))) (v : Z)
  : M (Z * Z) :=
  match padre with
  | Some p => padre_bfs p v
  | None => raise TypeError
  end.

Definition ronda_bfs (n : nat) (fuente sumidero : Z) : M (option num) :=
  let* '(encontro, padre) := _bfs_aumento n fuente sumidero in
  if encontro : bool then
    let* b := aumentar n (padre_de padre) fuente sumidero in
    ret (Some b)
  else ret None.

Definition edmonds_karp_bfs (n : nat) (fuente sumidero : Z)
  : M (num * gmap (Z * Z) Z) :=
  let* g := estado in
  if decide (fuente ∈ _nodos g ∧ sumidero ∈ _nodos g) then
    reiniciar_flujos ;;;
    let* flujo_maximo := bucle n (ronda_bfs n fuente sumidero) (Fin 0) in
    let* flujo_aristas := desglose in
    ret (flujo_maximo, flujo_aristas)
  else raise ValueError.

End Solvers.

(* ===================================================================== *)
(** ** Sequences of mutation calls                                        *)
(* ===================================================================== *)

Inductive llamada :=
| AgregarNodo (u : Z)
| EliminarNodo (u : Z)
| EstablecerCapacidad (u v c : Z)
| AgregarArista (u v c : Z)
| EliminarArista (u v : Z).

Definition ejecutar (c : llamada) : M unit :=
  match c with
  | AgregarNodo u => agregar_nodo u
  | EliminarNodo u => eliminar_nodo u
  | EstablecerCapacidad u v c => establecer_capacidad u v c
  | AgregarArista u v c => agregar_arista u v c
  | EliminarArista u v => eliminar_arista u v
  end.

Fixpoint secuencia (l : list llamada) : M unit :=
  match l with
  | [] => ret tt
  | c :: l => ejecutar c ;;; secuencia l
  end.

(** The capacity argument of a call, if it has one, is not negative. *)
Definition no_negativa (c : llamada) : Prop :=
  match c with
  | EstablecerCapacidad _ _ c | AgregarArista _ _ c => 0 <= c
  | _ => True
  end.

(* ===================================================================== *)
(** ** Predicates used in the statements                                  *)
(* ===================================================================== *)

(** The table after a read access to row [u]. *)
Definition tocar {V} (dflt : V) (d : gmap Z V) (u : Z) : gmap Z V :=
  match d !! u with
  | Some _ => d
  | None => <[u := dflt]> d
  end.

(** Every stored capacity is positive. *)
Definition cap_pos (g : MaximoFLujo) : Prop :=
  ∀ u v c, entrada (capacidad g) u v = Some c → 0 < c.

(** The invariant of the class: stored capacities are positive, both
    endpoints of a stored edge are adjacent to each other, and adjacent
    nodes are in the node set.  It holds in every reachable state (lemma
    [alcanzable_bien_formado]). *)
Record bien_formado (g : MaximoFLujo) : Prop := {
  bf_pos : cap_pos g;
  bf_ady : ∀ u v c, entrada (capacidad g) u v = Some c →
                    v ∈ vecinos g u ∧ u ∈ vecinos g v;
  bf_nodos : ∀ u v, v ∈ vecinos g u → u ∈ _nodos g ∧ v ∈ _nodos g
}.

(** [g'] describes the same network as [g]: same capacity entries, same
    neighbours, same nodes. *)
Definition misma_red (g g' : MaximoFLujo) : Prop :=
  (∀ a b, entrada (capacidad g') a b = entrada (capacidad g) a b) ∧
  (∀ a, vecinos g' a = vecinos g a) ∧
  _nodos g' = _nodos g.

(** Strictly ascending by [(u, v)]. *)
Definition par_lt (a b : Z * Z * Z) : Prop :=
  a.1.1 < b.1.1 ∨ (a.1.1 = b.1.1 ∧ a.1.2 < b.1.2).

(** [g'] is [g] without the capacity entry of [(u, v)], and nothing else
    differs. *)
Definition solo_quita (u v : Z) (g g' : MaximoFLujo) : Prop :=
  entrada (capacidad g') u v = None ∧
  (∀ a b, (a, b) ≠ (u, v) →
          entrada (capacidad g') a b = entrada (capacidad g) a b) ∧
  flujo g' = flujo g ∧ ady g' = ady g ∧ _nodos g' = _nodos g.

(* ===================================================================== *)
(** ** Residual graph and recorded paths                                  *)
(* ===================================================================== *)

(** [g'] shows what [g] shows: the two differ at most by empty rows that a
    read access created. *)
Definition mismo_obs (g g' : MaximoFLujo) : Prop :=
  (∀ a b, entrada (capacidad g') a b = entrada (capacidad g) a b) ∧
  (∀ a b, entrada (flujo g') a b = entrada (flujo g) a b) ∧
  (∀ a, vecinos g' a = vecinos g a) ∧
  _nodos g' = _nodos g.

(** The residual capacity that the code reads for a step from [u] to [v]
    tagged [dir_]: forward for [+1], backward for any other tag. *)
Definition residual (g : MaximoFLujo) (u v dir_ : Z) : Z :=
  if decide (dir_ = 1) then cap g u v - flw g u v else flw g v u.

(** [cadena P fuente v l]: following the predecessors [P] from [v] leads to
    [fuente] through the steps [l]; a step is [(u, v, dir_)] for
    [padre[v] = (u, dir_)]. *)
Inductive cadena (P : Z → option (Z * Z)) (fuente : Z)
  : Z → list (Z * Z * Z) → Prop :=
| cadena_fin : cadena P fuente fuente []
| cadena_paso v u d l :
    v ≠ fuente → P v = Some (u, d) → cadena P fuente u l →
    cadena P fuente v ((u, v, d) :: l).

(** The nodes on a recorded path, from its end [v]. *)
Definition nodos_de (v : Z) (l : list (Z * Z * Z)) : list Z :=
  v :: ((λ p : Z * Z * Z, p.1.1) <$> l).

(** A recorded path from [v] back to [fuente] that is an augmenting path:
    every step has a positive residual capacity and no node repeats. *)
Definition aumentante (g : MaximoFLujo) (P : Z → option (Z * Z))
    (fuente v : Z) (l : list (Z * Z * Z)) : Prop :=
  cadena P fuente v l ∧
  Forall (λ p, 0 < residual g p.1.1 p.1.2 p.2) l ∧
  NoDup (nodos_de v l).

(** No residual edge leaves [x] for a neighbour outside [X]. *)
Definition cerrado (g : MaximoFLujo) (X : gset Z) (x : Z) : Prop :=
  ∀ y, y ∈ vecinos g x → y ∉ X →
       cap g x y - flw g x y <= 0 ∧ flw g y x <= 0.

(** What a search that starts in [g0] guarantees when it returns
    [(b, V', P')] in state [g']. *)
Definition dfs_post (g0 : MaximoFLujo) (s t actual : Z)
    (V : gset Z) (P : gmap Z (Z * Z)) (r : dfs_res) (g' : MaximoFLujo)
  : Prop :=
  let '(b, V', P') := r in
  mismo_obs g0 g' ∧ V ⊆ V' ∧ V' ⊆ _nodos g0 ∧ (t ∉ V') ∧
  (∀ x, x ∈ V ∨ x = actual → P' !! x = P !! x) ∧
  if b : bool then ∃ l, aumentante g0 (P' !!.) s t l
  else actual ∈ V' ∧ ∀ x, x ∈ V' → x ∉ V → cerrado g0 V' x.

(** What the caller of a search guarantees. *)
Definition dfs_pre (g0 : MaximoFLujo) (s t actual : Z)
    (V : gset Z) (P : gmap Z (Z * Z)) (g : MaximoFLujo) : Prop :=
  mismo_obs g0 g ∧ V ⊆ _nodos g0 ∧ actual ∈ _nodos g0 ∧
  (actual ∉ V) ∧ (t ∉ V) ∧
  ∃ l, aumentante g0 (P !!.) s actual l ∧
       ∀ x, x ∈ nodos_de actual l → x = actual ∨ x ∈ V.

(** [res] reads the residual capacity tagged [d]. *)
Definition lee_residual (res : Z → Z → M Z) (d : Z) : Prop :=
  ∀ u v g, ∃ g', res u v g = Ok (residual g u v d) g' ∧ mismo_obs g g'.

(** The recursive call meets its contract whenever at most [m] nodes are
    unvisited. *)
Definition rec_cumple (g0 : MaximoFLujo) (s t : Z) (m : nat)
    (rec : Z → gset Z → gmap Z (Z * Z) → M dfs_res) : Prop :=
  ∀ y V P g,
    dfs_pre g0 s t y V P g → (size (_nodos g0 ∖ V) ≤ m)%nat →
    ∃ r g', rec y V P g = Ok r g' ∧ dfs_post g0 s t y V P r g'.

(** The predecessor that the breadth-first dictionary records for [x]. *)
Definition pbfs (padre : gmap Z (option (Z * Z))) (x : Z) : option (Z * Z) :=
  padre !! x ≫= id.

(** The invariant of [while q]: [D] is the set of discovered nodes. *)
Definition bfs_inv (g0 : MaximoFLujo) (s t : Z)
    (padre : gmap Z (option (Z * Z))) (q : list Z) (D : gset Z)
    (g : MaximoFLujo) : Prop :=
  mismo_obs g0 g ∧
  (∀ x, x ∈ D ↔ sin_padre padre x = false) ∧
  D ⊆ _nodos g0 ∧ s ∈ D ∧ (t ∉ D) ∧
  (∀ x, x ∈ D →
        ∃ l, aumentante g0 (pbfs padre) s x l ∧
             ∀ y, y ∈ nodos_de x l → y ∈ D) ∧
  (∀ x, x ∈ q → x ∈ D) ∧ NoDup q.

(* ===================================================================== *)
(** ** Flows as functions                                                 *)
(* ===================================================================== *)

(** [pd] is a lookup in the predecessors [P]. *)
Definition consulta (pd : Z → M (Z * Z)) (P : Z → option (Z * Z)) : Prop :=
  ∀ v p g, P v = Some p → pd v g = Ok p g.

(** The bottleneck after the steps [l], starting from [b]. *)
Definition botella_de (g : MaximoFLujo) (b : num) (l : list (Z * Z * Z))
  : num :=
  foldl (λ b p, num_min b (residual g p.1.1 p.1.2 p.2)) b l.

(** The flow after one step of the second walk: [b] more on [(u, v)] for a
    forward step, [b] less on [(v, u)] for a backward step. *)
Definition empuje_paso (f : Z → Z → Z) (p : Z * Z * Z) (b : Z)
  : Z → Z → Z :=
  λ x y,
    if decide (p.2 = 1) then
      if decide (x = p.1.1 ∧ y = p.1.2) then f x y + b else f x y
    else
      if decide (x = p.1.2 ∧ y = p.1.1) then f x y - b else f x y.

(** The flow after the steps [l] of the second walk. *)
Fixpoint empuje (l : list (Z * Z * Z)) (b : Z) (f : Z → Z → Z)
  : Z → Z → Z :=
  match l with
  | [] => f
  | p :: l => empuje l b (empuje_paso f p b)
  end.

(** Consecutive steps, walked back from [v]. *)
Inductive enlazado : Z → list (Z * Z * Z) → Prop :=
| enlazado_fin v : enlazado v []
| enlazado_paso v u d l : enlazado u l → enlazado v ((u, v, d) :: l).

(** The residual capacity of a step for a capacity function and a flow. *)
Definition residual_f (c f : Z → Z → Z) (p : Z * Z * Z) : Z :=
  if decide (p.2 = 1) then c p.1.1 p.1.2 - f p.1.1 p.1.2
  else f p.1.2 p.1.1.

(** Capacity constraint. *)
Definition en_rango (c f : Z → Z → Z) : Prop :=
  ∀ x y, 0 <= f x y <= c x y.

Definition suma (l : list Z) (h : Z → Z) : Z :=
  foldr (λ x acc, h x + acc) 0 l.

(** Outgoing minus incoming flow at [w], over the nodes [N]. *)
Definition neto (N : list Z) (f : Z → Z → Z) (w : Z) : Z :=
  suma N (λ y, f w y) - suma N (λ y, f y w).

(** Flow conservation at every node but the source and the sink. *)
Definition conserva (N : list Z) (f : Z → Z → Z) (s t : Z) : Prop :=
  ∀ w, w ≠ s → w ≠ t → neto N f w = 0.

(* ===================================================================== *)
(** ** Valid flows, value, cuts                                           *)
(* ===================================================================== *)

(** The nodes, in the order over which the sums run. *)
Definition nodos_l (g : MaximoFLujo) : list Z := elements (_nodos g).

(** The stored flows satisfy the capacity constraint and conservation. *)
Definition flujo_valido (g : MaximoFLujo) (s t : Z) : Prop :=
  en_rango (cap g) (flw g) ∧ conserva (nodos_l g) (flw g) s t.

(** Net flow out of the source. *)
Definition valor (g : MaximoFLujo) (s : Z) : Z :=
  neto (nodos_l g) (flw g) s.

(** A set of nodes with the source, without the sink, that no residual
    edge leaves. *)
Definition corte_cerrado (g : MaximoFLujo) (s t : Z) (X : gset Z) : Prop :=
  s ∈ X ∧ (t ∉ X) ∧ X ⊆ _nodos g ∧ ∀ x, x ∈ X → cerrado g X x.

(** What one round of [while True] guarantees when it starts in [g0]:
    either no path was found and nothing changed, or a positive integer
    bottleneck was pushed from the source to the sink. *)
Definition ronda_post (g0 : MaximoFLujo) (s t : Z) (r : option num)
    (g' : MaximoFLujo) : Prop :=
  match r with
  | None => mismo_obs g0 g' ∧ ∃ X, corte_cerrado g0 s t X
  | Some b =>
      ∃ z, b = Fin z ∧ 0 < z ∧ misma_red g0 g' ∧
           en_rango (cap g') (flw g') ∧
           ∀ w, neto (nodos_l g0) (flw g') w
                = neto (nodos_l g0) (flw g0) w
                  + (if decide (w = s) then z else 0)
                  - (if decide (w = t) then z else 0)
  end.

(** Fuel that is enough for a solver run from [s]. *)
Definition cota (g : MaximoFLujo) (s : Z) : nat :=
  S (size (_nodos g) + Z.to_nat (suma (nodos_l g) (cap g s))).

(** What a solver run that starts in [g] guarantees when it returns [r] in
    state [g']: the total is an integer, the value of the stored flow; the
    network is the same; the stored flow is valid; some cut is closed; the
    returned map has the clamped stored flow of every stored capacity
    entry, and nothing else. *)
Definition solver_post (g : MaximoFLujo) (s t : Z)
    (r : num * gmap (Z * Z) Z) (g' : MaximoFLujo) : Prop :=
  ∃ T, r.1 = Fin T ∧ misma_red g g' ∧ flujo_valido g' s t ∧
       T = valor g' s ∧ (∃ X, corte_cerrado g' s t X) ∧
       ∀ u v, r.2 !! (u, v)
              = (λ c, Z.max 0 (Z.min c (flw g' u v)))
                  <$> entrada (capacidad g') u v.

(* ===================================================================== *)
(** ** More fuel                                                          *)
(* ===================================================================== *)

(** [c'] does what [c] does, and may go on where [c] is cut off. *)
Definition refina {A} (c c' : M A) : Prop :=
  ∀ g, c g = Agotado ∨ c g = c' g.

(* ===================================================================== *)
(** ** The returned map                                                   *)
(* ===================================================================== *)

(** Sum of the values of [flujo_aristas] over the edges that leave [w],
    and over the edges that enter [w]. *)
Definition sale (m : gmap (Z * Z) Z) (w : Z) : Z :=
  map_fold (λ k x acc, if decide (k.1 = w) then x + acc else acc) 0 m.

Definition entra (m : gmap (Z * Z) Z) (w : Z) : Z :=
  map_fold (λ k x acc, if decide (k.2 = w) then x + acc else acc) 0 m.

(* ===================================================================== *)
(** ** The states a solver run goes through                               *)
(* ===================================================================== *)

(** The second walk, stopped after at most [j] steps. *)
Fixpoint empujar_hasta (j : nat) (pd : Z → M (Z * Z)) (fuente v botella : Z)
  : M unit :=
  match j with
  | O => ret tt
  | S j =>
      if decide (v = fuente) then ret tt
      else
        let* u := paso_empuje pd v botella in
        empujar_hasta j pd fuente u botella
  end.

(** [aumentar], with the second walk stopped after at most [j] steps. *)
Definition aumentar_hasta (j n : nat) (pd : Z → M (Z * Z))
    (fuente sumidero : Z) : M unit :=
  let* botella := cuello n pd fuente sumidero Inf in
  match botella with
  | Fin b => empujar_hasta j pd fuente sumidero b
  | Inf => ret tt
  end.

(** At most [i] rounds of [while True]; the result tells whether the loop
    is still running. *)
Fixpoint rondas (i : nat) (ronda : M (option num)) : M bool :=
  match i with
  | O => ret true
  | S i =>
      let* r := ronda in
      match r with
      | None => ret false
      | Some _ => rondas i ronda
      end
  end.

(** A solver run up to the point where, after the reset and [i] complete
    rounds, the next round has written [j] flow entries (or fewer, if the
    loop or the walk has ended before). *)
Definition dfs_hasta (orden : Z → gset Z → list Z) (i j n : nat)
    (fuente sumidero : Z) : M unit :=
  let* g := estado in
  if decide (fuente ∈ _nodos g ∧ sumidero ∈ _nodos g) then
    reiniciar_flujos ;;;
    let* sigue := rondas i (ronda_dfs orden n fuente sumidero) in
    if sigue : bool then
      let* '(hallado, _, padre) :=
        _dfs_aumento orden n sumidero fuente ∅ ∅ in
      if hallado : bool then
        aumentar_hasta j n (padre_dfs padre) fuente sumidero
      else ret tt
    else ret tt
  else raise ValueError.

Definition bfs_hasta (orden : Z → gset Z → list Z) (i j n : nat)
    (fuente sumidero : Z) : M unit :=
  let* g := estado in
  if decide (fuente ∈ _nodos g ∧ sumidero ∈ _nodos g) then
    reiniciar_flujos ;;;
    let* sigue := rondas i (ronda_bfs orden n fuente sumidero) in
    if sigue : bool then
      let* '(encontro, padre) := _bfs_aumento orden n fuente sumidero in
      if encontro : bool then
        aumentar_hasta j n (padre_de padre) fuente sumidero
      else ret tt
    else ret tt
  else raise ValueError.

(* ===================================================================== *)
(** ** Cuts                                                               *)
(* ===================================================================== *)

(** The nodes inside and outside [X], and what crosses from the inside to
    the outside: [h] summed over the pairs. *)
Definition dentro (g : MaximoFLujo) (X : gset Z) : list Z :=
  filter (λ x, x ∈ X) (nodos_l g).
Definition fuera (g : MaximoFLujo) (X : gset Z) : list Z :=
  filter (λ x, ¬ x ∈ X) (nodos_l g).
Definition cruza (g : MaximoFLujo) (X : gset Z) (h : Z → Z → Z) : Z :=
  suma (dentro g X) (λ x, suma (fuera g X) (λ y, h x y)).

(* ===================================================================== *)
(** ** Reachable states                                                   *)
(* ===================================================================== *)

(** The states an object can be in: a new network, and the state left by
    a mutation method, by [reiniciar_flujos] or by a solver, called with
    any arguments on a reachable state, whether the call returns or
    raises. *)
Inductive alcanzable (orden : Z → gset Z → list Z) : MaximoFLujo → Prop :=
| alc_nuevo : alcanzable orden nuevo
| alc_llamada g c g' :
    alcanzable orden g → estado_final (ejecutar c g) = Some g' →
    alcanzable orden g'
| alc_reiniciar g g' :
    alcanzable orden g → estado_final (reiniciar_flujos g) = Some g' →
    alcanzable orden g'
| alc_dfs g n s t g' :
    alcanzable orden g →
    estado_final (ford_fulkerson_dfs orden n s t g) = Some g' →
    alcanzable orden g'
| alc_bfs g n s t g' :
    alcanzable orden g →
    estado_final (edmonds_karp_bfs orden n s t g) = Some g' →
    alcanzable orden g'.

(* ===================================================================== *)
(** ** The returned map as a flow                                         *)
(* ===================================================================== *)

(** The returned map read as a flow: zero on the pairs it does not hold. *)
Definition flujo_de (m : gmap (Z * Z) Z) : Z → Z → Z :=
  λ x y, default 0 (m !! (x, y)).

(* ===================================================================== *)
(** ** Walks in the residual graph, layers of the search                  *)
(* ===================================================================== *)

(** [camino g s x k]: [k] steps with positive residual capacities lead from
    [s] to [x]. *)
Inductive camino (g : MaximoFLujo) (s : Z) : Z → nat → Prop :=
| camino_fin : camino g s s 0
| camino_paso x y d k :
    camino g s x k → 0 < residual g x y d → camino g s y (S k).

(** The layers of the breadth-first search: [dep] is the length of the
    recorded path of every discovered node; the queue is in ascending order
    of [dep] and spans at most two consecutive values; no walk to a
    discovered node is shorter than its recorded path. *)
Definition capas (g0 : MaximoFLujo) (s : Z)
    (padre : gmap Z (option (Z * Z))) (cola : list Z) (D : gset Z)
    (dep : Z → nat) : Prop :=
  (∀ x, x ∈ D → ∃ l, cadena (pbfs padre) s x l ∧ length l = dep x ∧
                     ∀ z, z ∈ nodos_de x l → z ∈ D) ∧
  (∀ i j x y, (i ≤ j)%nat → cola !! i = Some x → cola !! j = Some y →
              (dep x ≤ dep y)%nat) ∧
  (∀ x y, x ∈ cola → y ∈ cola → (dep y ≤ dep x + 1)%nat) ∧
  (∀ x j, x ∈ D → camino g0 s x j → (dep x ≤ j)%nat).

(* ===================================================================== *)
(** ** Printing                                                           *)
(* ===================================================================== *)

(** Python's order on tuples [(u, v)]. *)
Definition par_le (a b : Z * Z) : Prop :=
  a.1 < b.1 ∨ (a.1 = b.1 ∧ a.2 <= b.2).

#[global] Instance par_le_dec : RelDecision par_le.
Proof. intros [u1 v1] [u2 v2]. unfold par_le. apply _. Defined.

(** The newline character. *)
Definition salto : string := String "010"%char EmptyString.

(** The text of an [int] in an f-string and in [print]: its decimal
    digits, after a minus sign if it is negative. *)
Definition str (x : Z) : string := pretty x.

(** [f"Tubería {u} -> {v}:   {f}/{cap}L/s"] *)
Definition linea_desglose (u v f c : Z) : string :=
  "Tubería " +:+ str u +:+ " -> " +:+ str v +:+ ":   " +:+ str f +:+ "/"
  +:+ str c +:+ "L/s".

(** [imprimir_desglose]; the value is what was printed, one text for each
    call of [print]. *)
Definition imprimir_desglose (flujo_aristas : gmap (Z * Z) Z)
  : M (list string) :=
  let salida := [salto +:+ "--- Desglose del Flujo (flujo/capacidad) ---"] in
  let salida :=
    if decide (flujo_aristas = ∅) then salida ++ [" (No hay flujo)"]
    else salida in
  let* salida :=
    para_cada (merge_sort par_le (map_to_list flujo_aristas).*1)
      (fun '(u, v) salida =>
         let* r := cap_fila u in
         let cap := default 0 (r !! v) in
         match flujo_aristas !! (u, v) with
         | Some f =>
             ret (if decide (cap > 0)
                  then salida ++ [linea_desglose u v f cap] else salida)
         | None => raise KeyError
         end)
      salida in
  ret (salida ++
       ["------------------------------------------------" +:+ salto]).

(** The text of a list of [int]: [[0, 1, 2]]. *)
Definition repr_lista (l : list Z) : string :=
  "[" +:+ String.concat ", " (str <$> l) +:+ "]".

(** [f"  {u} -> {v} : {cap} L/s"] *)
Definition linea_arista (u v c : Z) : string :=
  "  " +:+ str u +:+ " -> " +:+ str v +:+ " : " +:+ str c +:+ " L/s".

(** [mostrar_grafo(g)]: what it prints, one text for each call of [print].
    [g.nodos()] and [g.aristas()] write nothing. *)
Definition mostrar_grafo (g : MaximoFLujo) : list string :=
  let nodos_ := nodos g in
  let aristas_ := aristas g in
  [salto +:+ "--- Estado Actual de la Red ---"] ++
  if decide (nodos_ = []) then ["La red se encuentra vacia."]
  else
    ["Juntas (Nodos): " +:+ repr_lista nodos_;
     "Tuberías (u -> v : capacidad L/s):"] ++
    (if decide (aristas_ = []) then [" (Sin tuberías)"] else []) ++
    ((λ '(u, v, c), linea_arista u v c) <$> aristas_) ++
    ["---------------------------------" +:+ salto].

(** The lines that [imprimir_desglose] prints for the keys [l]. *)
Definition lineas_de (g : MaximoFLujo) (m : gmap (Z * Z) Z)
    (l : list (Z * Z)) : list string :=
  '(u, v) ← l;
  if decide (cap g u v > 0)
  then [linea_desglose u v (flujo_de m u v) (cap g u v)] else [].

(* ===================================================================== *)
(** ** The handlers of the window                                         *)
(* ===================================================================== *)

(** The handlers of [AppGrafo] are modelled by what they do to the network
    [self.g] and by what they show.  A text field is given by the result
    of [int(...)] on its content: [None] when that raises [ValueError].
    The answer to [askyesno] is an argument.  The calls that only lay out
    or draw widgets are summed up in [dibujar], with the data that they
    read; they are assumed not to raise. *)
Inductive evento :=
| showerror (titulo mensaje : string)
| showwarning (titulo mensaje : string)
| askyesno (titulo mensaje : string)
(** [showerror(titulo, f"{prefijo}{e}")] *)
| showerror_exn (titulo prefijo : string) (e : exn)
(** [print(texto)] *)
| imprime (texto : string)
(** [print(f"{prefijo}{e}")] *)
| imprime_exn (prefijo : string) (e : exn)
(** [_limpiar_output()] *)
| limpiar_output
(** [_update_node_positions()], [_dib_grafo(flujo_aristas)] and
    [_act_listas()]: the nodes, the edges, the flows to show and the
    source and the sink to colour. *)
| dibujar (juntas : list Z) (tuberias : list (Z * Z * Z))
    (flujo_aristas : option (gmap (Z * Z) Z)) (extremos : option (Z * Z)).

(** The text of [flujo_maximo] in an f-string. *)
Definition texto_num (x : num) : string :=
  match x with
  | Fin z => str z
  | Inf => "inf"
  end.

(** A call inside [try: ... except ...]: [hecho] is what has been shown so
    far, [manejar] what the handler of the exception shows. *)
Definition intentar {A} (c : M A) (hecho : list evento)
    (manejar : exn → list evento) (k : A → M (list evento))
  : M (list evento) :=
  fun g =>
    match c g with
    | Ok a g' => k a g'
    | Raise e g' => Ok (hecho ++ manejar e) g'
    | Agotado => Agotado
    end.

Definition _get_fuente_sumidero (fuente_var sumidero_var : option Z)
    (validar_existencia : bool) (g : MaximoFLujo)
  : option (Z * Z) * list evento :=
  match fuente_var, sumidero_var with
  | Some fuente, Some sumidero =>
      if validar_existencia then
        if decide (fuente ∉ nodos g) then
          (None, [showerror "Error"
                    ("La Junta (Planta) '" +:+ str fuente +:+ "' no existe.")])
        else if decide (sumidero ∉ nodos g) then
          (None, [showerror "Error"
                    ("La Junta (Destino) '" +:+ str sumidero
                     +:+ "' no existe.")])
        else (Some (fuente, sumidero), [])
      else (Some (fuente, sumidero), [])
  | _, _ =>
      (None, [showerror "Error de Entrada"
                "La Planta (S) y el Destino (T) deben ser números enteros."])
  end.

Definition _update_all_views (fuente_var sumidero_var : option Z)
    (flujo_aristas : option (gmap (Z * Z) Z)) (reset_flujo : bool)
  : M (list evento) :=
  (if reset_flujo then reiniciar_flujos else ret tt) ;;;
  let* g := estado in
  let '(extremos, avisos) :=
    _get_fuente_sumidero fuente_var sumidero_var false g in
  ret (avisos ++ [dibujar (nodos g) (aristas g) flujo_aristas extremos]).

(** [except Exception as e] of the two handlers that run a solver. *)
Definition manejar_solver (e : exn) : list evento :=
  [showerror_exn "Error en Algoritmo" "Ocurrió un error: " e;
   imprime_exn (salto +:+ "ERROR: ") e].

Definition ford_fulkerson (orden : Z → gset Z → list Z) (n : nat)
    (fuente_var sumidero_var : option Z) : M (list evento) :=
  let* g := estado in
  match _get_fuente_sumidero fuente_var sumidero_var true g with
  | (None, avisos) => ret avisos
  | (Some (fuente, sumidero), avisos) =>
      let hecho :=
        avisos ++
        [limpiar_output;
         imprime ("=== Calciulando flujo de tuberias desde la planta "
                  +:+ str fuente +:+ " hacia el destino " +:+ str sumidero
                  +:+ " usando Ford–Fulkerson (DFS) ===")] in
      intentar (ford_fulkerson_dfs orden n fuente sumidero) hecho
        manejar_solver
        (fun '(flujo_max, flujo_aristas) =>
           let hecho :=
             hecho ++
             [imprime (salto +:+ " Flujo máximo total (Ford–Fulkerson): "
                       +:+ texto_num flujo_max)] in
           intentar (imprimir_desglose flujo_aristas) hecho manejar_solver
             (fun lineas =>
                let hecho := hecho ++ (imprime <$> lineas) in
                intentar
                  (_update_all_views fuente_var sumidero_var
                     (Some flujo_aristas) false)
                  hecho manejar_solver
                  (fun vistas => ret (hecho ++ vistas))))
  end.

Definition accion_edmonds_karp (orden : Z → gset Z → list Z) (n : nat)
    (fuente_var sumidero_var : option Z) : M (list evento) :=
  let* g := estado in
  match _get_fuente_sumidero fuente_var sumidero_var true g with
  | (None, avisos) => ret avisos
  | (Some (fuente, sumidero), avisos) =>
      let hecho :=
        avisos ++
        [limpiar_output;
         imprime ("=== Calciulando flujo de tuberias desde la planta "
                  +:+ str fuente +:+ " hacia el destino " +:+ str sumidero
                  +:+ " usando Edmonds–Karp (BFS) ===")] in
      intentar (edmonds_karp_bfs orden n fuente sumidero) hecho
        manejar_solver
        (fun '(flujo_max, flujo_aristas) =>
           let hecho :=
             hecho ++
             [imprime (salto +:+ " Flujo máximo total (Edmonds–Karp): "
                       +:+ texto_num flujo_max)] in
           intentar (imprimir_desglose flujo_aristas) hecho manejar_solver
             (fun lineas =>
                let hecho := hecho ++ (imprime <$> lineas) in
                intentar
                  (_update_all_views fuente_var sumidero_var
                     (Some flujo_aristas) false)
                  hecho manejar_solver
                  (fun vistas => ret (hecho ++ vistas))))
  end.

(** The shape that the two handlers share: they differ in the solver and
    in the two names that they print. *)
Definition accion_solver (solver : Z → Z → M (num * gmap (Z * Z) Z))
    (nombre_largo nombre : string) (fuente_var sumidero_var : option Z)
  : M (list evento) :=
  let* g := estado in
  match _get_fuente_sumidero fuente_var sumidero_var true g with
  | (None, avisos) => ret avisos
  | (Some (fuente, sumidero), avisos) =>
      let hecho :=
        avisos ++
        [limpiar_output;
         imprime ("=== Calciulando flujo de tuberias desde la planta "
                  +:+ str fuente +:+ " hacia el destino " +:+ str sumidero
                  +:+ " usando " +:+ nombre_largo +:+ " ===")] in
      intentar (solver fuente sumidero) hecho manejar_solver
        (fun '(flujo_max, flujo_aristas) =>
           let hecho :=
             hecho ++
             [imprime (salto +:+ " Flujo máximo total (" +:+ nombre +:+ "): "
                       +:+ texto_num flujo_max)] in
           intentar (imprimir_desglose flujo_aristas) hecho manejar_solver
             (fun lineas =>
                let hecho := hecho ++ (imprime <$> lineas) in
                intentar
                  (_update_all_views fuente_var sumidero_var
                     (Some flujo_aristas) false)
                  hecho manejar_solver
                  (fun vistas => ret (hecho ++ vistas))))
  end.

(** [except ValueError: ... except Exception as e: ...] of the four
    editing handlers. *)
Definition manejar_edicion (no_entero prefijo : string) (e : exn)
  : list evento :=
  match e with
  | ValueError => [showerror "Error" no_entero]
  | _ => [showerror_exn "Error" prefijo e]
  end.

Definition accion_agregar_nodo (fuente_var sumidero_var : option Z)
    (nodo_id_var : option Z) : M (list evento) :=
  let manejar :=
    manejar_edicion "El ID de la junta debe ser un número entero."
      "No se pudo agregar la junta: " in
  match nodo_id_var with
  | None => ret (manejar ValueError)
  | Some nodo_id =>
      intentar (agregar_nodo nodo_id) [] manejar
        (fun _ =>
           intentar (_update_all_views fuente_var sumidero_var None true)
             [] manejar
             (fun vistas =>
                ret (vistas ++
                     [imprime ("Junta " +:+ str nodo_id +:+ " agregada.")])))
  end.

Definition accion_eliminar_nodo (fuente_var sumidero_var : option Z)
    (nodo_id_var : option Z) (confirma : bool) : M (list evento) :=
  let manejar :=
    manejar_edicion "El ID de la junta debe ser un número entero."
      "No se pudo eliminar la junta: " in
  match nodo_id_var with
  | None => ret (manejar ValueError)
  | Some nodo_id =>
      let* g := estado in
      if decide (nodo_id ∉ nodos g) then
        ret [showwarning "Aviso"
               ("La junta " +:+ str nodo_id +:+ " no existe.")]
      else
        let hecho :=
          [askyesno "Confirmar"
             ("¿Seguro que quieres eliminar la junta " +:+ str nodo_id
              +:+ " y TODAS sus conexiones?")] in
        if confirma then
          intentar (eliminar_nodo nodo_id) hecho manejar
            (fun _ =>
               intentar (_update_all_views fuente_var sumidero_var None true)
                 hecho manejar
                 (fun vistas =>
                    ret (hecho ++ vistas ++
                         [imprime ("La junta " +:+ str nodo_id
                                   +:+ " y sus tuberías fueron eliminadas.")])))
        else ret hecho
  end.

Definition accion_agregar_arista (fuente_var sumidero_var : option Z)
    (arista_u_var arista_v_var arista_cap_var : option Z)
  : M (list evento) :=
  let manejar :=
    manejar_edicion "U, V y Capacidad deben ser números enteros."
      "No se pudo agregar la tubería: " in
  match arista_u_var, arista_v_var, arista_cap_var with
  | Some u, Some v, Some cap =>
      if decide (cap < 0) then
        ret [showerror "Error" "La capacidad no puede ser negativa."]
      else
        intentar (establecer_capacidad u v cap) [] manejar
          (fun _ =>
             intentar (_update_all_views fuente_var sumidero_var None true)
               [] manejar
               (fun vistas =>
                  ret (vistas ++
                       [imprime ("Tubería " +:+ str u +:+ " -> " +:+ str v
                                 +:+ " establecida con capacidad "
                                 +:+ str cap +:+ " L/s.")])))
  | _, _, _ => ret (manejar ValueError)
  end.

Definition accion_eliminar_arista (fuente_var sumidero_var : option Z)
    (arista_u_var arista_v_var : option Z) : M (list evento) :=
  let manejar :=
    manejar_edicion "U y V deben ser números enteros."
      "No se pudo eliminar la tubería: " in
  match arista_u_var, arista_v_var with
  | Some u, Some v =>
      intentar (establecer_capacidad u v 0) [] manejar
        (fun _ =>
           intentar (_update_all_views fuente_var sumidero_var None true)
             [] manejar
             (fun vistas =>
                ret (vistas ++
                     [imprime ("Tubería " +:+ str u +:+ " -> " +:+ str v
                               +:+ " eliminada (capacidad = 0).")])))
  | _, _ => ret (manejar ValueError)
  end.

(* ===================================================================== *)
(** ** Example networks                                                   *)
(* ===================================================================== *)

(** The state after a sequence of calls on a new network. *)
Definition red_de (l : list llamada) : MaximoFLujo :=
  default nuevo (estado_final (secuencia l nuevo)).

(** Scenario A of the specification. *)
Definition red_A : MaximoFLujo :=
  red_de [EstablecerCapacidad 0 1 10; EstablecerCapacidad 0 2 10;
          EstablecerCapacidad 1 3 8; EstablecerCapacidad 2 3 8;
          EstablecerCapacidad 1 2 1].

(** One admissible iteration order: that of [elements]. *)
Definition orden_ej (u : Z) (X : gset Z) : list Z := elements X.

(** Scenario A after a depth-first run from 0 to 3. *)
Definition red_A_resuelta : MaximoFLujo :=
  default red_A (estado_final (ford_fulkerson_dfs orden_ej 30 0 3 red_A)).

(** The results of the two solvers on scenario A. *)
Definition corrida_dfs_A : outcome (num * gmap (Z * Z) Z) :=
  ford_fulkerson_dfs orden_ej 30 0 3 red_A.
Definition corrida_bfs_A : outcome (num * gmap (Z * Z) Z) :=
  edmonds_karp_bfs orden_ej 30 0 3 red_A.

Definition total_de (o : outcome (num * gmap (Z * Z) Z)) : num :=
  match o with Ok r _ => r.1 | _ => Inf end.
Definition mapa_de (o : outcome (num * gmap (Z * Z) Z)) : gmap (Z * Z) Z :=
  match o with Ok r _ => r.2 | _ => ∅ end.

(** Scenario A after the reset, one round of the depth-first solver and
    one flow write of the second round. *)
Definition parcial_dfs_A : outcome unit :=
  dfs_hasta orden_ej 1 1 30 0 3 red_A.

(** Scenario B of the specification. *)
Definition red_B : MaximoFLujo := red_de [EstablecerCapacidad 0 1 5].

Definition llamadas_ej : list llamada :=
  [AgregarNodo 7; EstablecerCapacidad 2 1 5; AgregarArista 0 1 3;
   AgregarArista 0 1 4; EstablecerCapacidad 2 1 0; EstablecerCapacidad 1 0 2;
   EliminarNodo 7; AgregarArista 3 4 0; EliminarArista 5 6].

(** Another admissible iteration order: ascending, since [elements]
    lists these sets in descending order. *)
Definition orden_inv (u : Z) (X : gset Z) : list Z := reverse (elements X).

(** Scenario A solved depth first with that order. *)
Definition corrida_dfs_A_inv : outcome (num * gmap (Z * Z) Z) :=
  ford_fulkerson_dfs orden_inv 30 0 3 red_A.

(** Scenario A with every stored flow at zero. *)
Definition red_A_cero : MaximoFLujo :=
  default red_A (estado_final (reiniciar_flujos red_A)).

(* ===================================================================== *)
(** ** Tables                                                             *)
(* ===================================================================== *)

Lemma dd_get_eq {V} (dflt : V) (d : gmap Z V) u :
  dd_get dflt d u = (default dflt (d !! u), tocar dflt d u).
Proof. unfold dd_get, tocar. by destruct (d !! u). Qed.

Lemma lookup_tocar {V} (dflt : V) (d : gmap Z V) u a :
  default dflt (tocar dflt d u !! a) = default dflt (d !! a).
Proof.
  unfold tocar. destruct (d !! u) eqn:E; [done|].
  destruct (decide (a = u)) as [->|Hne].
  - by rewrite lookup_insert_eq, E.
  - by rewrite lookup_insert_ne.
Qed.

Lemma entrada_tocar (d : gmap Z (gmap Z Z)) u a b :
  entrada (tocar ∅ d u) a b = entrada d a b.
Proof.
  unfold entrada, tocar. destruct (d !! u) eqn:E; [done|].
  destruct (decide (a = u)) as [->|Hne].
  - by rewrite lookup_insert_eq, E.
  - by rewrite lookup_insert_ne.
Qed.

Lemma entrada_insert (d : gmap Z (gmap Z Z)) u r a b :
  entrada (<[u := r]> d) a b = if decide (a = u) then r !! b else entrada d a b.
Proof.
  unfold entrada. destruct (decide (a = u)) as [->|Hne].
  - by rewrite lookup_insert_eq.
  - by rewrite lookup_insert_ne.
Qed.

Lemma entrada_fila (d : gmap Z (gmap Z Z)) u b :
  default ∅ (d !! u) !! b = entrada d u b.
Proof. unfold entrada. by destruct (d !! u). Qed.

Lemma cap_fila_eq u g :
  cap_fila u g
  = Ok (default ∅ (capacidad g !! u))
       (con_capacidad (tocar ∅ (capacidad g) u) g).
Proof. unfold cap_fila. by rewrite dd_get_eq. Qed.

Lemma flu_fila_eq u g :
  flu_fila u g
  = Ok (default ∅ (flujo g !! u)) (con_flujo (tocar ∅ (flujo g) u) g).
Proof. unfold flu_fila. by rewrite dd_get_eq. Qed.

Lemma ady_de_eq u g :
  ady_de u g = Ok (vecinos g u) (con_ady (tocar ∅ (ady g) u) g).
Proof. unfold ady_de, vecinos. by rewrite dd_get_eq. Qed.

Lemma vecinos_tocar g u a :
  default ∅ (tocar (∅ : gset Z) (ady g) u !! a) = vecinos g a.
Proof. unfold vecinos. apply lookup_tocar. Qed.

Lemma set_flujo_eq u v x g :
  set_flujo u v x g
  = Ok tt (con_flujo (<[u := <[v := x]> (default ∅ (flujo g !! u))]>
                        (tocar ∅ (flujo g) u)) g).
Proof. unfold set_flujo, bind. by rewrite flu_fila_eq. Qed.

Lemma set_cap_eq u v x g :
  set_cap u v x g
  = Ok tt (con_capacidad (<[u := <[v := x]> (default ∅ (capacidad g !! u))]>
                        (tocar ∅ (capacidad g) u)) g).
Proof. unfold set_cap, bind. by rewrite cap_fila_eq. Qed.

Lemma ady_add_eq u v g :
  ady_add u v g
  = Ok tt (con_ady (<[u := {[v]} ∪ vecinos g u]> (tocar ∅ (ady g) u)) g).
Proof. unfold ady_add, bind. by rewrite ady_de_eq. Qed.

Lemma iniciar_flujo_ok u v g :
  ∃ g', iniciar_flujo u v g = Ok tt g' ∧
        capacidad g' = capacidad g ∧ ady g' = ady g ∧ _nodos g' = _nodos g ∧
        (∀ a b, flw g' a b = flw g a b).
Proof.
  unfold iniciar_flujo, bind. rewrite flu_fila_eq.
  case_decide as Hs.
  - eexists. split; [reflexivity|]. repeat split; try done.
    intros a b. unfold flw; simpl. by rewrite entrada_tocar.
  - rewrite set_flujo_eq. eexists. split; [reflexivity|].
    repeat split; try done.
    intros a b. unfold flw; simpl. rewrite entrada_insert. case_decide as Ha.
    + subst a. rewrite entrada_fila in Hs.
      destruct (decide (b = v)) as [->|Hb].
      * rewrite lookup_insert_eq.
        destruct (entrada (flujo g) u v) eqn:E; [|done].
        exfalso. apply Hs. eauto.
      * rewrite lookup_insert_ne by congruence.
        simpl. by rewrite lookup_tocar, entrada_fila.
    + by rewrite !entrada_tocar.
Qed.

Lemma ady_add_ok u v g :
  ∃ g', ady_add u v g = Ok tt g' ∧
        capacidad g' = capacidad g ∧ flujo g' = flujo g ∧
        _nodos g' = _nodos g ∧
        (∀ a, vecinos g' a
              = (if decide (a = u) then {[v]} else ∅) ∪ vecinos g a).
Proof.
  rewrite ady_add_eq. eexists. split; [reflexivity|]. repeat split; try done.
  intros a. unfold vecinos at 1; simpl. rewrite lookup_insert.
  destruct (decide (u = a)) as [->|Hne].
  - by rewrite decide_True.
  - rewrite decide_False by congruence. rewrite vecinos_tocar.
    by rewrite union_empty_l_L.
Qed.

Lemma establecer_capacidad_pos u v c g :
  0 < c →
  ∃ g', establecer_capacidad u v c g = Ok tt g' ∧
    (∀ a b, entrada (capacidad g') a b
            = if decide ((a, b) = (u, v)) then Some c
              else entrada (capacidad g) a b) ∧
    (∀ a b, flw g' a b = flw g a b) ∧
    (∀ a, vecinos g' a
          = (if decide (a = u) then {[v]} else ∅) ∪
            (if decide (a = v) then {[u]} else ∅) ∪ vecinos g a) ∧
    _nodos g' = {[u; v]} ∪ _nodos g.
Proof.
  intros Hc. unfold establecer_capacidad.
  rewrite decide_True, decide_False by lia.
  unfold bind at 1. rewrite set_cap_eq.
  set (g1 := con_capacidad _ g).
  unfold bind at 1.
  destruct (iniciar_flujo_ok u v g1) as (g2 & -> & Hc2 & Ha2 & Hn2 & Hf2).
  unfold bind at 1.
  destruct (iniciar_flujo_ok v u g2) as (g3 & -> & Hc3 & Ha3 & Hn3 & Hf3).
  unfold bind at 1.
  destruct (ady_add_ok u v g3) as (g4 & -> & Hc4 & Hf4 & Hn4 & Ha4).
  unfold bind at 1.
  destruct (ady_add_ok v u g4) as (g5 & -> & Hc5 & Hf5 & Hn5 & Ha5).
  eexists. split; [reflexivity|].
  simpl. repeat split.
  - intros a b. rewrite Hc5, Hc4, Hc3, Hc2. subst g1; simpl.
    rewrite entrada_insert. case_decide as Ha; [subst a|].
    + destruct (decide (b = v)) as [->|Hb].
      * by rewrite lookup_insert_eq, decide_True.
      * rewrite lookup_insert_ne, decide_False by congruence.
        apply entrada_fila.
    + rewrite decide_False by congruence. apply entrada_tocar.
  - intros a b. unfold flw at 1; simpl. rewrite Hf5, Hf4. fold (flw g3 a b).
    by rewrite Hf3, Hf2.
  - intros a. unfold vecinos at 1; simpl. fold (vecinos g5 a).
    rewrite Ha5, Ha4.
    assert (vecinos g3 a = vecinos g a) as ->
        by (unfold vecinos; by rewrite Ha3, Ha2).
    repeat case_decide; set_solver.
  - by rewrite Hn5, Hn4, Hn3, Hn2.
Qed.

(* ===================================================================== *)
(** ** Removing an edge, setting a capacity to zero                       *)
(* ===================================================================== *)

Lemma eliminar_arista_eq u v g :
  eliminar_arista u v g
  = Ok tt (con_capacidad
             (<[u := delete v (default ∅ (capacidad g !! u))]>
                (tocar ∅ (capacidad g) u)) g).
Proof. unfold eliminar_arista, bind. by rewrite cap_fila_eq. Qed.

Lemma eliminar_arista_quita u v g :
  ∃ g', eliminar_arista u v g = Ok tt g' ∧ solo_quita u v g g'.
Proof.
  eexists. split; [apply eliminar_arista_eq|].
  unfold solo_quita; simpl. repeat split.
  - rewrite entrada_insert, decide_True by done. apply lookup_delete_eq.
  - intros a b Hab. rewrite entrada_insert. case_decide as Ha.
    + subst a. rewrite lookup_delete_ne by congruence. apply entrada_fila.
    + apply entrada_tocar.
Qed.

Lemma solo_quita_tocar u v g g' :
  solo_quita u v (con_capacidad (tocar ∅ (capacidad g) u) g) g' →
  solo_quita u v g g'.
Proof.
  intros (H1 & H2 & H3 & H4 & H5). repeat split; try done.
  intros a b Hab. rewrite H2 by done. simpl. apply entrada_tocar.
Qed.

(** C10. [establecer_capacidad(u, v, 0)], and [agregar_arista(u, v, 0)] when
    no capacity entry [(u, v)] is stored, return normally and remove only
    the capacity entry of [(u, v)]: every other capacity entry, the flow
    table, the adjacency index and the node set are as before (the read
    access [self.capacidad[u]] may leave an empty row for [u] in the
    capacity table, which holds no entry).  With a positive capacity,
    [establecer_capacidad] does put [u] and [v] in the node set. *)
Theorem capacidad_cero_solo_quita (g : MaximoFLujo) (u v : Z) :
  (∃ g', establecer_capacidad u v 0 g = Ok tt g' ∧ solo_quita u v g g') ∧
  (entrada (capacidad g) u v = None →
   ∃ g', agregar_arista u v 0 g = Ok tt g' ∧ solo_quita u v g g') ∧
  (∀ c, 0 < c →
        ∃ g', establecer_capacidad u v c g = Ok tt g' ∧
              u ∈ _nodos g' ∧ v ∈ _nodos g').
Proof.
  split; [|split].
  - unfold establecer_capacidad. rewrite !decide_True by lia.
    apply eliminar_arista_quita.
  - intros Hno. unfold agregar_arista. rewrite decide_True by lia.
    unfold bind at 1. rewrite cap_fila_eq, entrada_fila, Hno. simpl.
    unfold establecer_capacidad. rewrite !decide_True by lia.
    destruct (eliminar_arista_quita u v
                (con_capacidad (tocar ∅ (capacidad g) u) g)) as (g' & E & Hq).
    exists g'. split; [done|]. by apply solo_quita_tocar.
  - intros c Hc. unfold establecer_capacidad.
    rewrite decide_True, decide_False by lia.
    unfold bind, iniciar_flujo, set_cap, set_flujo, ady_add, bind, ret.
    rewrite cap_fila_eq. rewrite flu_fila_eq.
    repeat (case_decide; rewrite ?flu_fila_eq, ?ady_de_eq; simpl);
      (eexists; split; [reflexivity|simpl; set_solver]).
Qed.

(** A concrete instance: a network with one edge, whose capacity is set to
    zero; adding zero to a missing edge. *)
Lemma capacidad_cero_solo_quita_witness :
  entrada (capacidad nuevo) 0 1 = None ∧
  ∃ g', agregar_arista 0 1 0 nuevo = Ok tt g' ∧ solo_quita 0 1 nuevo g'.
Proof.
  split; [reflexivity|].
  exact (proj1 (proj2 (capacidad_cero_solo_quita nuevo 0 1)) eq_refl).
Defined.

(* ===================================================================== *)
(** ** Enumeration of nodes and edges                                     *)
(* ===================================================================== *)

#[global] Instance tupla_le_trans : Transitive tupla_le.
Proof. intros [[??]?] [[??]?] [[??]?]. unfold tupla_le. lia. Qed.

#[global] Instance tupla_le_total : Total tupla_le.
Proof. intros [[??]?] [[??]?]. unfold tupla_le. lia. Qed.

Lemma elem_of_filas (d : gmap Z (gmap Z Z)) u v c :
  (u, v, c) ∈ filas d ↔ entrada d u v = Some c.
Proof.
  unfold filas, entrada. rewrite list_elem_of_bind. split.
  - intros ([a r] & Hin & Hr). apply elem_of_map_to_list in Hr.
    apply list_elem_of_fmap in Hin as ([b x] & Heq & Hbx).
    apply elem_of_map_to_list in Hbx. simplify_eq. by rewrite Hr.
  - intros H. destruct (d !! u) as [r|] eqn:E; [|done]. simpl in H.
    exists (u, r). split; [|by apply elem_of_map_to_list].
    apply list_elem_of_fmap. exists (v, c). split; [done|].
    by apply elem_of_map_to_list.
Qed.

Lemma NoDup_filas (d : gmap Z (gmap Z Z)) : NoDup (filas d).
Proof.
  unfold filas. apply NoDup_bind; [| |apply NoDup_map_to_list].
  - intros [a r] [a' r'] [[u v] c] H1 H2 H3 H4.
    apply elem_of_map_to_list in H1, H2.
    apply list_elem_of_fmap in H3 as ([??] & ? & _).
    apply list_elem_of_fmap in H4 as ([??] & ? & _). simplify_eq. done.
  - intros [a r] _. apply NoDup_fmap_2_strong; [|apply NoDup_map_to_list].
    intros [??] [??] _ _ ?. by simplify_eq.
Qed.

Lemma elem_of_aristas g u v c :
  (u, v, c) ∈ aristas g ↔ 0 < c ∧ entrada (capacidad g) u v = Some c.
Proof.
  unfold aristas. rewrite merge_sort_Permutation, list_elem_of_filter.
  by rewrite elem_of_filas.
Qed.

Lemma NoDup_aristas g : NoDup (aristas g).
Proof.
  unfold aristas. rewrite merge_sort_Permutation.
  apply NoDup_filter, NoDup_filas.
Qed.

Lemma aristas_ordenadas g : StronglySorted par_lt (aristas g).
Proof.
  assert (Hs : StronglySorted tupla_le (aristas g))
    by apply (StronglySorted_merge_sort _).
  assert (Hfun : ∀ u v c c', (u, v, c) ∈ aristas g → (u, v, c') ∈ aristas g →
                             c = c').
  { intros u v c c' [_ H1]%elem_of_aristas [_ H2]%elem_of_aristas. congruence. }
  pose proof (NoDup_aristas g) as Hnd.
  induction Hs as [|[[u v] c] l Hs IH Hall]; [constructor|].
  apply NoDup_cons in Hnd as [Hnotin Hnd].
  constructor.
  - apply IH; [|done]. intros ???? ??.
    eapply Hfun; by apply list_elem_of_further.
  - apply Forall_forall. intros [[u' v'] c'] Hin.
    rewrite Forall_forall in Hall. specialize (Hall _ Hin).
    unfold tupla_le in Hall. unfold par_lt; simpl.
    destruct (decide (u = u' ∧ v = v')) as [[-> ->]|Hne]; [|lia].
    assert (c = c') as ->.
    { eapply Hfun; [apply list_elem_of_here|by apply list_elem_of_further]. }
    done.
Qed.

Lemma elem_of_nodos g x : x ∈ nodos g ↔ x ∈ _nodos g.
Proof. unfold nodos. by rewrite merge_sort_Permutation, elem_of_elements. Qed.

Lemma nodos_ordenados g : StronglySorted Z.le (nodos g).
Proof. apply (StronglySorted_merge_sort _). Qed.

(* ===================================================================== *)
(** ** Removing a node                                                    *)
(* ===================================================================== *)

Lemma entrada_purga (d : gmap Z (gmap Z Z)) w a b :
  entrada (delete w <$> delete w d) a b
  = if decide (a = w ∨ b = w) then None else entrada d a b.
Proof.
  unfold entrada. rewrite lookup_fmap.
  destruct (decide (a = w)) as [->|Ha].
  - rewrite lookup_delete_eq. by rewrite decide_True by auto.
  - rewrite lookup_delete_ne by done. destruct (d !! a) as [r|]; simpl.
    + destruct (decide (b = w)) as [->|Hb].
      * rewrite lookup_delete_eq. by rewrite decide_True by auto.
      * rewrite lookup_delete_ne by done. by rewrite decide_False by tauto.
    + by case_decide.
Qed.

Lemma eliminar_nodo_ok w g :
  ∃ g', eliminar_nodo w g = Ok tt g' ∧
    (∀ a b, entrada (capacidad g') a b
            = if decide (a = w ∨ b = w) then None
              else entrada (capacidad g) a b) ∧
    (∀ a b, entrada (flujo g') a b
            = if decide (a = w ∨ b = w) then None
              else entrada (flujo g) a b) ∧
    (∀ a, vecinos g' a = if decide (a = w) then ∅ else vecinos g a ∖ {[w]}) ∧
    (∀ a s, ady g' !! a = Some s → a ≠ w ∧ (w ∉ s) ∧ s ≠ ∅) ∧
    _nodos g' = _nodos g ∖ {[w]}.
Proof.
  eexists. split; [reflexivity|]. simpl. repeat split.
  - apply entrada_purga.
  - apply entrada_purga.
  - intros a. unfold vecinos; simpl. rewrite lookup_omap.
    destruct (decide (a = w)) as [->|Ha].
    + by rewrite lookup_delete_eq.
    + rewrite lookup_delete_ne by done.
      destruct (ady g !! a) as [s|]; simpl; [|set_solver].
      case_decide as Hs; simpl; [|done]. by rewrite Hs.
  - rewrite lookup_omap in H. intros ->. by rewrite lookup_delete_eq in H.
  - rewrite lookup_omap in H.
    destruct (delete w (ady g) !! a) as [s'|]; simpl in H; [|done].
    case_decide; simplify_eq. set_solver.
  - rewrite lookup_omap in H.
    destruct (delete w (ady g) !! a) as [s'|]; simpl in H; [|done].
    case_decide; by simplify_eq.
Qed.

(** C8. After [eliminar_nodo(u)]: [u] is not in [nodos()], no triple of
    [aristas()] has [u] as an endpoint, the flow table has no entry with
    [u] as source or as target, and the adjacency index has no set for [u],
    no set that contains [u] and no empty set. *)
Theorem eliminar_nodo_purga (g : MaximoFLujo) (u : Z) :
  ∃ g', eliminar_nodo u g = Ok tt g' ∧
    (u ∉ nodos g') ∧
    (∀ a b c, (a, b, c) ∈ aristas g' → a ≠ u ∧ b ≠ u) ∧
    (∀ v, entrada (flujo g') u v = None ∧ entrada (flujo g') v u = None) ∧
    ady g' !! u = None ∧
    (∀ v s, ady g' !! v = Some s → (u ∉ s) ∧ s ≠ ∅).
Proof.
  destruct (eliminar_nodo_ok u g) as (g' & E & Hc & Hf & Hv & Ha & Hn).
  exists g'. split; [done|]. repeat split.
  - rewrite elem_of_nodos, Hn. set_solver.
  - apply elem_of_aristas in H as [_ H]. rewrite Hc in H.
    case_decide; [done|]. tauto.
  - apply elem_of_aristas in H as [_ H]. rewrite Hc in H.
    case_decide; [done|]. tauto.
  - rewrite Hf. by rewrite decide_True by auto.
  - rewrite Hf. by rewrite decide_True by auto.
  - destruct (ady g' !! u) as [s|] eqn:E'; [|done].
    by destruct (Ha _ _ E') as [? _].
  - by destruct (Ha _ _ H) as (_ & ? & _).
  - by destruct (Ha _ _ H) as (_ & _ & ?).
Qed.

(* ===================================================================== *)
(** ** The class invariant                                                *)
(* ===================================================================== *)

Lemma misma_red_refl g : misma_red g g.
Proof. by repeat split. Qed.

Lemma misma_red_trans g1 g2 g3 :
  misma_red g1 g2 → misma_red g2 g3 → misma_red g1 g3.
Proof.
  intros (H1 & H2 & H3) (H1' & H2' & H3'). repeat split.
  - intros a b. by rewrite H1', H1.
  - intros a. by rewrite H2', H2.
  - by rewrite H3', H3.
Qed.

Lemma bien_formado_misma_red g g' :
  misma_red g g' → bien_formado g → bien_formado g'.
Proof.
  intros (Hc & Hv & Hn) [Hp Ha Hnod]. split.
  - intros u v c. rewrite Hc. apply Hp.
  - intros u v c. rewrite Hc, !Hv. apply Ha.
  - intros u v. rewrite Hv, Hn. apply Hnod.
Qed.

Lemma bien_formado_nuevo : bien_formado nuevo.
Proof.
  split; [intros ??? [=]|intros ??? [=]|by intros ?? ?%not_elem_of_empty].
Qed.

Lemma bien_formado_extremos g u v c :
  bien_formado g → entrada (capacidad g) u v = Some c →
  u ∈ _nodos g ∧ v ∈ _nodos g.
Proof. intros Hg [H _]%(bf_ady g Hg). by apply (bf_nodos g Hg). Qed.

Lemma cap_nonneg g u v : cap_pos g → 0 <= cap g u v.
Proof.
  intros Hp. unfold cap. destruct (entrada _ u v) eqn:E; simpl; [|done].
  apply Hp in E. lia.
Qed.

Lemma misma_red_tocar_cap g u :
  misma_red g (con_capacidad (tocar ∅ (capacidad g) u) g).
Proof. repeat split. intros a b. simpl. apply entrada_tocar. Qed.

Lemma agregar_nodo_bf u g :
  bien_formado g → ∃ g', agregar_nodo u g = Ok tt g' ∧ bien_formado g'.
Proof.
  intros [Hp Ha Hn]. eexists. split; [reflexivity|]. split; try done.
  intros a b Hab. simpl. destruct (Hn a b Hab). set_solver.
Qed.

Lemma eliminar_nodo_bf u g :
  bien_formado g → ∃ g', eliminar_nodo u g = Ok tt g' ∧ bien_formado g'.
Proof.
  intros [Hp Ha Hn].
  destruct (eliminar_nodo_ok u g) as (g' & E & Hc & _ & Hv & _ & Hnod).
  exists g'. split; [done|]. split.
  - intros a b c. rewrite Hc. case_decide; [done|]. apply Hp.
  - intros a b c. rewrite Hc, !Hv. case_decide as Hab; [done|].
    intros [H1 H2]%Ha. rewrite !decide_False by tauto. set_solver.
  - intros a b. rewrite Hv, Hnod. case_decide; [set_solver|].
    intros [Hb Hne]%elem_of_difference. destruct (Hn a b Hb). set_solver.
Qed.

Lemma eliminar_arista_bf u v g :
  bien_formado g → ∃ g', eliminar_arista u v g = Ok tt g' ∧ bien_formado g'.
Proof.
  intros [Hp Ha Hn].
  destruct (eliminar_arista_quita u v g)
    as (g' & E & H0 & Hc & _ & Hady & Hnod).
  exists g'. split; [done|].
  assert (Hsub : ∀ a b c, entrada (capacidad g') a b = Some c →
                          entrada (capacidad g) a b = Some c).
  { intros a b c. destruct (decide ((a, b) = (u, v))) as [[= -> ->]|Hne].
    - by rewrite H0.
    - by rewrite Hc. }
  split.
  - intros a b c ?%Hsub. eauto.
  - intros a b c ?%Hsub. unfold vecinos. rewrite Hady. eauto.
  - intros a b. unfold vecinos. rewrite Hady, Hnod. apply Hn.
Qed.

Lemma establecer_capacidad_bf u v c g :
  bien_formado g → 0 <= c →
  ∃ g', establecer_capacidad u v c g = Ok tt g' ∧ bien_formado g'.
Proof.
  intros Hg Hc0. destruct (decide (c = 0)) as [->|Hne].
  - unfold establecer_capacidad. rewrite !decide_True by lia.
    by apply eliminar_arista_bf.
  - destruct (establecer_capacidad_pos u v c g) as (g' & E & Hc & _ & Hv & Hn);
      [lia|].
    destruct Hg as [Hp Ha Hnod].
    exists g'. split; [done|]. split.
    + intros a b x. rewrite Hc. case_decide; [intros [= <-]; lia|apply Hp].
    + intros a b x. rewrite Hc, !Hv. case_decide as Hab.
      * injection Hab as -> ->. intros _. split.
        -- apply elem_of_union_l, elem_of_union_l.
           rewrite decide_True by done. by apply elem_of_singleton.
        -- apply elem_of_union_l, elem_of_union_r.
           rewrite decide_True by done. by apply elem_of_singleton.
      * intros [??]%Ha. split; by apply elem_of_union_r.
    + intros a b. rewrite Hv, Hn. intros Hb.
      assert (Hcases : (a = u ∧ b = v) ∨ (a = v ∧ b = u) ∨ b ∈ vecinos g a).
      { apply elem_of_union in Hb as [[Hb|Hb]%elem_of_union|Hb]; [| |auto].
        - case_decide; [|by apply not_elem_of_empty in Hb].
          apply elem_of_singleton in Hb. auto.
        - case_decide; [|by apply not_elem_of_empty in Hb].
          apply elem_of_singleton in Hb. auto. }
      rewrite !elem_of_union, elem_of_singleton.
      destruct Hcases as [[-> ->]|[[-> ->]|Hb']].
      * split; left; [left|right]; set_solver.
      * split; left; [right|left]; set_solver.
      * destruct (Hnod a b Hb'). auto.
Qed.

Lemma agregar_arista_bf u v c g :
  bien_formado g → 0 <= c →
  ∃ g', agregar_arista u v c g = Ok tt g' ∧ bien_formado g'.
Proof.
  intros Hg Hc0. unfold agregar_arista. rewrite decide_True by lia.
  unfold bind. rewrite cap_fila_eq, entrada_fila.
  apply establecer_capacidad_bf.
  - eapply bien_formado_misma_red; [apply misma_red_tocar_cap|done].
  - pose proof (cap_nonneg g u v (bf_pos g Hg)). unfold cap in H. lia.
Qed.

Lemma ejecutar_bf c g :
  bien_formado g → no_negativa c →
  ∃ g', ejecutar c g = Ok tt g' ∧ bien_formado g'.
Proof.
  intros Hg Hc. destruct c; simpl in *.
  - by apply agregar_nodo_bf.
  - by apply eliminar_nodo_bf.
  - by apply establecer_capacidad_bf.
  - by apply agregar_arista_bf.
  - by apply eliminar_arista_bf.
Qed.

Lemma secuencia_bf l g :
  bien_formado g → Forall no_negativa l →
  ∃ g', secuencia l g = Ok tt g' ∧ bien_formado g'.
Proof.
  intros Hg Hl. revert g Hg.
  induction Hl as [|c l Hc _ IH]; intros g Hg; simpl.
  - by exists g.
  - unfold bind. destruct (ejecutar_bf c g Hg Hc) as (g1 & -> & Hg1).
    by apply IH.
Qed.

(** C7. After any sequence of [agregar_nodo], [eliminar_nodo],
    [establecer_capacidad], [agregar_arista] and [eliminar_arista] calls
    with non-negative capacity arguments on a new network, every call has
    returned normally, every stored capacity is positive, and [aristas()]
    lists exactly the stored capacity entries, strictly ascending by
    [(u, v)]. *)
Theorem secuencia_aristas (l : list llamada) :
  Forall no_negativa l →
  ∃ g, secuencia l nuevo = Ok tt g ∧
       cap_pos g ∧
       (∀ u v c, (u, v, c) ∈ aristas g ↔ entrada (capacidad g) u v = Some c) ∧
       StronglySorted par_lt (aristas g).
Proof.
  intros Hl.
  destruct (secuencia_bf l nuevo bien_formado_nuevo Hl) as (g & E & Hg).
  exists g. split; [done|]. split; [apply (bf_pos g Hg)|]. split.
  - intros u v c. rewrite elem_of_aristas. split; [tauto|].
    intros H. split; [|done]. by apply (bf_pos g Hg) in H.
  - apply aristas_ordenadas.
Qed.

Lemma secuencia_aristas_witness :
  Forall no_negativa llamadas_ej ∧
  ∃ g, secuencia llamadas_ej nuevo = Ok tt g ∧
       cap_pos g ∧
       (∀ u v c, (u, v, c) ∈ aristas g ↔ entrada (capacidad g) u v = Some c) ∧
       StronglySorted par_lt (aristas g).
Proof.
  assert (H : Forall no_negativa llamadas_ej)
    by (repeat constructor; simpl; lia).
  split; [exact H|]. exact (secuencia_aristas llamadas_ej H).
Defined.

Example aristas_ej :
  (aristas <$> estado_final (secuencia llamadas_ej nuevo))
  = Some [(0, 1, 7); (1, 0, 2)].
Proof. vm_compute. reflexivity. Qed.

(* ===================================================================== *)
(** ** Solver entry: membership check, source equal to sink               *)
(* ===================================================================== *)

Section Entrada.

Variable orden : Z → gset Z → list Z.

Lemma solver_ajenos n g s t :
  ¬ (s ∈ _nodos g ∧ t ∈ _nodos g) →
  ford_fulkerson_dfs orden n s t g = Raise ValueError g ∧
  edmonds_karp_bfs orden n s t g = Raise ValueError g.
Proof.
  intros Hno. unfold ford_fulkerson_dfs, edmonds_karp_bfs, bind, estado.
  rewrite !decide_False by done. done.
Qed.

(** C4. A solver called with a source or a sink that is not in the node
    set raises [ValueError], whatever the fuel, and the object is exactly
    as before the call: no attribute was written, no row was created. *)
Theorem solver_rechaza_ajenos (n : nat) (g : MaximoFLujo) (s t : Z) :
  ¬ (s ∈ _nodos g ∧ t ∈ _nodos g) →
  ford_fulkerson_dfs orden n s t g = Raise ValueError g ∧
  edmonds_karp_bfs orden n s t g = Raise ValueError g.
Proof. apply solver_ajenos. Qed.

Lemma cuello_fuente n pd s b g : cuello n pd s s b g = Ok b g.
Proof. destruct n; simpl; by rewrite decide_True. Qed.

Lemma empujar_fuente n pd s b g : empujar n pd s s b g = Ok tt g.
Proof. destruct n; simpl; by rewrite decide_True. Qed.

Lemma ronda_dfs_fuente n s g :
  ronda_dfs orden (S n) s s g = Ok (Some Inf) g.
Proof.
  unfold ronda_dfs, bind. simpl. rewrite decide_True by done. simpl.
  unfold aumentar, bind. by rewrite cuello_fuente.
Qed.

Lemma ronda_bfs_fuente n s g :
  ronda_bfs orden (S n) s s g = Ok (Some Inf) g.
Proof.
  unfold ronda_bfs, _bfs_aumento, bind, estado. simpl.
  rewrite decide_True by done. simpl.
  unfold aumentar, bind. by rewrite cuello_fuente.
Qed.

Lemma bucle_sin_fin k ronda b total g :
  ronda g = Ok (Some b) g → bucle k ronda total g = Agotado.
Proof.
  intros Hr. revert total. induction k as [|k IH]; intros total; [done|].
  simpl. unfold bind. rewrite Hr. apply IH.
Qed.

Lemma reiniciar_flujos_eq g :
  reiniciar_flujos g
  = Ok tt (con_flujo ((λ r : gmap Z Z, (λ _, 0) <$> r) <$> flujo g) g).
Proof. done. Qed.

Lemma solver_fuente_agotado n g s :
  s ∈ _nodos g →
  ford_fulkerson_dfs orden n s s g = Agotado ∧
  edmonds_karp_bfs orden n s s g = Agotado.
Proof.
  intros Hs. unfold ford_fulkerson_dfs, edmonds_karp_bfs, bind, estado.
  rewrite !decide_True by done. rewrite !reiniciar_flujos_eq.
  destruct n as [|n]; [split; reflexivity|]. split.
  - by rewrite (bucle_sin_fin _ _ Inf) by apply ronda_dfs_fuente.
  - by rewrite (bucle_sin_fin _ _ Inf) by apply ronda_bfs_fuente.
Qed.

(** C1 (the code diverges).  With the source equal to the sink, and in
    the node set, neither solver returns: whatever the fuel, the call is
    cut off.  Each round of [while True] finds the empty path at once,
    leaves [botella] at [float("inf")], writes nothing and starts over. *)
Theorem fuente_igual_sumidero_no_termina (n : nat) (g : MaximoFLujo) (s : Z) :
  s ∈ _nodos g →
  ford_fulkerson_dfs orden n s s g = Agotado ∧
  edmonds_karp_bfs orden n s s g = Agotado.
Proof.
  apply solver_fuente_agotado.
Qed.

(** C2 (the code diverges).  With the source equal to the sink, a round
    of either solver reports a path, its bottleneck is [float("inf")],
    not a positive integer, the tables are not written, and the running
    total becomes [float("inf")]. *)
Theorem ronda_fuente_igual_sumidero (n : nat) (g : MaximoFLujo) (s : Z)
    (total : num) :
  ronda_dfs orden (S n) s s g = Ok (Some Inf) g ∧
  ronda_bfs orden (S n) s s g = Ok (Some Inf) g ∧
  num_add total Inf = Inf.
Proof.
  split; [apply ronda_dfs_fuente|]. split; [apply ronda_bfs_fuente|].
  by destruct total.
Qed.

(** C3 (the code diverges).  With the source equal to the sink, and in
    the node set, there is no total that either solver returns. *)
Theorem fuente_igual_sumidero_sin_total (g : MaximoFLujo) (s : Z) :
  s ∈ _nodos g →
  ¬ (∃ n r g', ford_fulkerson_dfs orden n s s g = Ok r g') ∧
  ¬ (∃ n r g', edmonds_karp_bfs orden n s s g = Ok r g').
Proof.
  intros Hs. split; intros (n & r & g' & E);
    destruct (solver_fuente_agotado n g s Hs) as [E1 E2];
    congruence.
Qed.

End Entrada.

Lemma solver_rechaza_ajenos_witness :
  ¬ (9 ∈ _nodos red_A_resuelta ∧ 3 ∈ _nodos red_A_resuelta) ∧
  flw red_A_resuelta 0 1 = 8 ∧
  ford_fulkerson_dfs orden_ej 5 9 3 red_A_resuelta
  = Raise ValueError red_A_resuelta ∧
  edmonds_karp_bfs orden_ej 5 9 3 red_A_resuelta
  = Raise ValueError red_A_resuelta.
Proof.
  assert (H : ¬ (9 ∈ _nodos red_A_resuelta ∧ 3 ∈ _nodos red_A_resuelta)).
  { intros [H _]. vm_compute in H. discriminate. }
  split; [exact H|]. split; [vm_compute; reflexivity|].
  exact (solver_rechaza_ajenos orden_ej 5 red_A_resuelta 9 3 H).
Defined.

Lemma fuente_igual_sumidero_no_termina_witness :
  0 ∈ _nodos red_A ∧
  ford_fulkerson_dfs orden_ej 1000 0 0 red_A = Agotado ∧
  edmonds_karp_bfs orden_ej 1000 0 0 red_A = Agotado.
Proof.
  assert (H : 0 ∈ _nodos red_A) by (vm_compute; reflexivity).
  split; [exact H|].
  exact (fuente_igual_sumidero_no_termina orden_ej 1000 red_A 0 H).
Defined.

Lemma fuente_igual_sumidero_sin_total_witness :
  0 ∈ _nodos red_A ∧
  ¬ (∃ n r g', ford_fulkerson_dfs orden_ej n 0 0 red_A = Ok r g') ∧
  ¬ (∃ n r g', edmonds_karp_bfs orden_ej n 0 0 red_A = Ok r g').
Proof.
  assert (H : 0 ∈ _nodos red_A) by (vm_compute; reflexivity).
  split; [exact H|].
  exact (fuente_igual_sumidero_sin_total orden_ej red_A 0 H).
Defined.

(* ===================================================================== *)
(** ** Reading the tables leaves the network as it is                     *)
(* ===================================================================== *)

Lemma mismo_obs_refl g : mismo_obs g g.
Proof. by repeat split. Qed.

Lemma mismo_obs_trans g1 g2 g3 :
  mismo_obs g1 g2 → mismo_obs g2 g3 → mismo_obs g1 g3.
Proof.
  intros (H1 & H2 & H3 & H4) (H1' & H2' & H3' & H4'). repeat split.
  - intros a b. by rewrite H1', H1.
  - intros a b. by rewrite H2', H2.
  - intros a. by rewrite H3', H3.
  - by rewrite H4', H4.
Qed.

Lemma mismo_obs_cap g g' a b : mismo_obs g g' → cap g' a b = cap g a b.
Proof. intros (H & _). unfold cap. by rewrite H. Qed.

Lemma mismo_obs_flw g g' a b : mismo_obs g g' → flw g' a b = flw g a b.
Proof. intros (_ & H & _). unfold flw. by rewrite H. Qed.

Lemma mismo_obs_vecinos g g' a : mismo_obs g g' → vecinos g' a = vecinos g a.
Proof. by intros (_ & _ & H & _). Qed.

Lemma mismo_obs_nodos g g' : mismo_obs g g' → _nodos g' = _nodos g.
Proof. by intros (_ & _ & _ & H). Qed.

Lemma mismo_obs_residual g g' u v d :
  mismo_obs g g' → residual g' u v d = residual g u v d.
Proof.
  intros H. unfold residual.
  by rewrite (mismo_obs_cap g g'), !(mismo_obs_flw g g').
Qed.

Lemma mismo_obs_tocar_cap g u :
  mismo_obs g (con_capacidad (tocar ∅ (capacidad g) u) g).
Proof. repeat split. intros a b. simpl. apply entrada_tocar. Qed.

Lemma mismo_obs_tocar_flujo g u :
  mismo_obs g (con_flujo (tocar ∅ (flujo g) u) g).
Proof. repeat split. intros a b. simpl. apply entrada_tocar. Qed.

Lemma mismo_obs_tocar_ady g u :
  mismo_obs g (con_ady (tocar ∅ (ady g) u) g).
Proof. repeat split. intros a. simpl. apply vecinos_tocar. Qed.

Lemma ady_de_ok u g :
  ∃ g', ady_de u g = Ok (vecinos g u) g' ∧ mismo_obs g g'.
Proof.
  rewrite ady_de_eq. eexists. split; [done|]. apply mismo_obs_tocar_ady.
Qed.

Lemma residual_adelante_ok : lee_residual _residual_adelante 1.
Proof.
  intros u v g. unfold _residual_adelante, bind.
  rewrite cap_fila_eq, flu_fila_eq. eexists. split.
  - unfold ret. f_equal. unfold residual, cap, flw. simpl.
    by rewrite !entrada_fila.
  - eapply mismo_obs_trans; [apply mismo_obs_tocar_cap|].
    apply mismo_obs_tocar_flujo.
Qed.

Lemma residual_atras_ok : lee_residual _residual_atras (-1).
Proof.
  intros u v g. unfold _residual_atras, bind.
  rewrite flu_fila_eq. eexists. split.
  - unfold ret. f_equal. unfold residual, flw. simpl.
    by rewrite !entrada_fila.
  - apply mismo_obs_tocar_flujo.
Qed.

(* ===================================================================== *)
(** ** Recorded paths                                                     *)
(* ===================================================================== *)

Lemma cadena_ext P P' s v l :
  cadena P s v l → (∀ x, x ∈ nodos_de v l → P' x = P x) → cadena P' s v l.
Proof.
  induction 1 as [|v u d l Hne HP Hc IH]; intros Hext; [constructor|].
  constructor; [done| |].
  - rewrite Hext; [done|]. apply list_elem_of_here.
  - apply IH. intros x Hx. apply Hext. unfold nodos_de in *. simpl.
    by apply list_elem_of_further.
Qed.

Lemma cadena_fuente P s v l : cadena P s v l → s ∈ nodos_de v l.
Proof.
  induction 1 as [|v u d l Hne HP Hc IH]; [apply list_elem_of_here|].
  unfold nodos_de in *. simpl. by apply list_elem_of_further.
Qed.

Lemma aumentante_ext g P P' s v l :
  aumentante g P s v l → (∀ x, x ∈ nodos_de v l → P' x = P x) →
  aumentante g P' s v l.
Proof. intros (Hc & Hr & Hn) Hext. split; [|done]. by eapply cadena_ext. Qed.

Lemma aumentante_paso g P s u v d l :
  aumentante g P s u l → P v = Some (u, d) → v ∉ nodos_de u l →
  0 < residual g u v d → aumentante g P s v ((u, v, d) :: l).
Proof.
  intros (Hc & Hr & Hn) HP Hv Hres. split; [|split].
  - constructor; [|done..]. intros ->. apply Hv. by eapply cadena_fuente.
  - by constructor.
  - unfold nodos_de in *. simpl. by constructor.
Qed.

(* ===================================================================== *)
(** ** Depth-first search                                                 *)
(* ===================================================================== *)

Lemma cerrado_mono g X Y x : X ⊆ Y → cerrado g X x → cerrado g Y x.
Proof. intros HXY Hc y Hy HnY. apply Hc; [done|]. set_solver. Qed.

Lemma size_sin_nodo (N V : gset Z) (x : Z) (m : nat) :
  x ∈ N → x ∉ V → (size (N ∖ V) ≤ S m)%nat →
  (size (N ∖ ({[x]} ∪ V)) ≤ m)%nat.
Proof.
  intros HN HV Hsz.
  assert (Hlt : (size (N ∖ ({[x]} ∪ V)) < size (N ∖ V))%nat).
  { apply subset_size. apply strict_spec_alt. split; [set_solver|].
    intros Heq. assert (x ∈ N ∖ V) as Hx by set_solver.
    rewrite <- Heq in Hx. set_solver. }
  lia.
Qed.

Section Profundidad.

Variable g0 : MaximoFLujo.
Variables s t : Z.
Hypothesis bf_g0 : bien_formado g0.

Lemma dfs_intento_spec rec res d m actual y V1 P1 g1 :
  rec_cumple g0 s t m rec → lee_residual res d →
  mismo_obs g0 g1 → V1 ⊆ _nodos g0 → actual ∈ V1 → t ∉ V1 →
  y ∈ _nodos g0 →
  (∃ l, aumentante g0 (P1 !!.) s actual l ∧
        ∀ x, x ∈ nodos_de actual l → x ∈ V1) →
  (size (_nodos g0 ∖ V1) ≤ m)%nat →
  ∃ b V' P' g',
    dfs_intento rec res d actual y V1 P1 g1 = Ok (b, V', P') g' ∧
    mismo_obs g0 g' ∧ V1 ⊆ V' ∧ V' ⊆ _nodos g0 ∧ (t ∉ V') ∧
    (∀ x, x ∈ V1 → P' !! x = P1 !! x) ∧
    if b : bool then ∃ l, aumentante g0 (P' !!.) s t l
    else (y ∈ V' ∨ residual g0 actual y d <= 0) ∧
         ∀ x, x ∈ V' → x ∉ V1 → cerrado g0 V' x.
Proof.
  intros Hrec Hres Hobs HV1 Hact Ht Hy (l & Hl & Hnod) Hsz.
  unfold dfs_intento, bind.
  destruct (decide (y ∈ V1)) as [HyV|HyV].
  { exists false, V1, P1, g1. split; [done|].
    split_and!; [done..|by left|]. intros x ??. done. }
  destruct (Hres actual y g1) as (g2 & -> & Hobs2). unfold ret.
  pose proof (mismo_obs_trans _ _ _ Hobs Hobs2) as Hobs02.
  rewrite (mismo_obs_residual g0 g1) by done.
  case_bool_decide as Hpos.
  - destruct (Hrec y V1 (<[y := (actual, d)]> P1) g2)
      as ([[b V'] P'] & g' & -> & Hpost); [|done|].
    { split; [done|]. split; [done|]. split; [done|]. split; [done|].
      split; [done|].
      exists ((actual, y, d) :: l). split.
      - apply aumentante_paso; [| |by intros ?%Hnod|lia].
        + eapply aumentante_ext; [done|]. intros x Hx.
          apply lookup_insert_ne. intros ->. by apply Hnod in Hx.
        + apply lookup_insert_eq.
      - intros x [->|Hx]%elem_of_cons; [by left|right]. by apply Hnod. }
    destruct Hpost as (Hobs' & HVV' & HV' & HtV' & HP' & Hb).
    exists b, V', P', g'. split; [done|].
    split; [done|]. split; [done|]. split; [done|]. split; [done|]. split.
    + intros x Hx. rewrite HP' by auto. apply lookup_insert_ne.
      intros ->. done.
    + destruct b; [done|]. destruct Hb as [HyV' Hcl]. by auto.
  - exists false, V1, P1, g2. split; [done|].
    split_and!; [done..|right; lia|]. intros x ??. done.
Qed.

Lemma dfs_vecinos_spec rec m actual (P0 : gmap Z (Z * Z)) l0 :
  rec_cumple g0 s t m rec →
  aumentante g0 (P0 !!.) s actual l0 →
  ∀ l V1 P1 g1,
    mismo_obs g0 g1 → V1 ⊆ _nodos g0 → t ∉ V1 →
    (∀ x, x ∈ nodos_de actual l0 → x ∈ V1 ∧ P1 !! x = P0 !! x) →
    (∀ y, y ∈ l → y ∈ _nodos g0) →
    (size (_nodos g0 ∖ V1) ≤ m)%nat →
    ∃ b V' P' g',
      dfs_vecinos rec actual l V1 P1 g1 = Ok (b, V', P') g' ∧
      mismo_obs g0 g' ∧ V1 ⊆ V' ∧ V' ⊆ _nodos g0 ∧ (t ∉ V') ∧
      (∀ x, x ∈ V1 → P' !! x = P1 !! x) ∧
      if b : bool then ∃ l, aumentante g0 (P' !!.) s t l
      else (∀ y, y ∈ l →
                 y ∈ V' ∨ (residual g0 actual y 1 <= 0 ∧
                           residual g0 actual y (-1) <= 0)) ∧
           ∀ x, x ∈ V' → x ∉ V1 → cerrado g0 V' x.
Proof.
  intros Hrec Hl0.
  induction l as [|y l IH]; intros V1 P1 g1 Hobs HV1 Ht Hch Hl Hsz.
  { exists false, V1, P1, g1. split; [done|].
    split_and!; [done..| |]; [by intros ? ?%elem_of_nil|by intros ???]. }
  assert (Hact : actual ∈ V1) by (apply Hch, list_elem_of_here).
  assert (Hcadena : ∀ V (P : gmap Z (Z * Z)),
             V1 ⊆ V → (∀ x, x ∈ V1 → P !! x = P1 !! x) →
             (∃ l, aumentante g0 (P !!.) s actual l ∧
                   ∀ x, x ∈ nodos_de actual l → x ∈ V) ∧
             (∀ x, x ∈ nodos_de actual l0 → x ∈ V ∧ P !! x = P0 !! x)).
  { intros V P HV HP. split.
    - exists l0. split.
      + eapply aumentante_ext; [done|]. intros x Hx. simpl.
        destruct (Hch x Hx) as [HxV <-]. by apply HP.
      + intros x Hx. apply HV. by apply Hch.
    - intros x Hx. destruct (Hch x Hx) as [HxV <-]. split; [by apply HV|].
      by apply HP. }
  simpl. unfold bind at 1.
  destruct (Hcadena V1 P1) as [Hc1 _]; [done..|].
  destruct (dfs_intento_spec rec _residual_adelante 1 m actual y V1 P1 g1)
    as (b & V2 & P2 & g2 & -> & Hobs2 & H12 & HV2 & Ht2 & HP2 & Hb);
    try done; [apply residual_adelante_ok|apply Hl, list_elem_of_here|].
  destruct b.
  { exists true, V2, P2, g2. by split. }
  destruct Hb as [Hy1 Hcl2]. unfold bind at 1.
  destruct (Hcadena V2 P2) as [Hc2 Hch2]; [done..|].
  destruct (dfs_intento_spec rec _residual_atras (-1) m actual y V2 P2 g2)
    as (b & V3 & P3 & g3 & -> & Hobs3 & H23 & HV3 & Ht3 & HP3 & Hb);
    try done; [apply residual_atras_ok|by apply H12
              |apply Hl, list_elem_of_here| |].
  { etrans; [|exact Hsz]. apply subseteq_size. set_solver. }
  assert (H13 : V1 ⊆ V3) by set_solver.
  assert (HP13 : ∀ x, x ∈ V1 → P3 !! x = P1 !! x).
  { intros x Hx. rewrite HP3 by auto. by apply HP2. }
  destruct b.
  { exists true, V3, P3, g3. by split. }
  destruct Hb as [Hy2 Hcl3].
  destruct (Hcadena V3 P3) as [_ Hch3]; [done..|].
  destruct (IH V3 P3 g3)
    as (b & V' & P' & g' & -> & Hobs' & H3' & HV' & Ht' & HP' & Hb);
    try done.
  { intros x Hx. apply Hl. by apply list_elem_of_further. }
  { etrans; [|exact Hsz]. apply subseteq_size. set_solver. }
  exists b, V', P', g'. split; [done|].
  split; [done|]. split; [set_solver|]. split; [done|]. split; [done|]. split.
  { intros x Hx. rewrite HP' by auto. by apply HP13. }
  destruct b; [done|]. destruct Hb as [Hall Hcl']. split.
  - intros y' [->|Hy']%elem_of_cons; [|by apply Hall].
    destruct Hy1 as [Hy1|Hy1]; [left; set_solver|].
    destruct Hy2 as [Hy2|Hy2]; [left; set_solver|]. by right.
  - intros x Hx HxV1. destruct (decide (x ∈ V3)) as [Hx3|Hx3]; [|by apply Hcl'].
    apply (cerrado_mono g0 V3); [done|].
    destruct (decide (x ∈ V2)) as [Hx2|Hx2]; [|by apply Hcl3].
    apply (cerrado_mono g0 V2); [done|]. by apply Hcl2.
Qed.

Lemma dfs_aumento_S orden n actual V P :
  _dfs_aumento orden (S n) t actual V P
  = if decide (actual = t) then ret (true, V, P)
    else let* vs := ady_de actual in
         dfs_vecinos (_dfs_aumento orden n t) actual (orden actual vs)
           ({[actual]} ∪ V) P.
Proof. done. Qed.

Lemma dfs_aumento_spec (orden : Z → gset Z → list Z) :
  (∀ u X, orden u X ≡ₚ elements X) →
  ∀ m, rec_cumple g0 s t m (_dfs_aumento orden (S m) t).
Proof.
  intros Horden. induction m as [|m IH];
    intros actual V P g (Hobs & HV & Hact & HactV & HtV & l0 & Hl0 & Hnod) Hsz.
  - (* no unvisited node is left: [actual] must be the sink *)
    assert (Hin : actual ∈ _nodos g0 ∖ V) by set_solver.
    apply size_empty_iff in Hin; [done|]. lia.
  - rewrite dfs_aumento_S. destruct (decide (actual = t)) as [->|Hne].
    { exists (true, V, P), g. split; [done|].
      split_and!; [done..|]. by exists l0. }
    unfold bind. destruct (ady_de_ok actual g) as (g1 & -> & Hobs1).
    pose proof (mismo_obs_trans _ _ _ Hobs Hobs1) as Hobs01.
    destruct (dfs_vecinos_spec (_dfs_aumento orden (S m) t) m actual P l0 IH Hl0
                (orden actual (vecinos g actual)) ({[actual]} ∪ V) P g1)
      as (b & V' & P' & g' & -> & Hobs' & HVV' & HV' & Ht' & HP' & Hb);
      try done.
    { set_solver. }
    { set_solver. }
    { intros x Hx. split; [|done]. destruct (Hnod x Hx); set_solver. }
    { intros y Hy. rewrite Horden, elem_of_elements in Hy.
      rewrite (mismo_obs_vecinos g0 g) in Hy by done.
      by apply (bf_nodos g0 bf_g0) in Hy as [_ ?]. }
    { by apply size_sin_nodo. }
    exists (b, V', P'), g'. split; [done|].
    split; [done|]. split; [set_solver|]. split; [done|]. split; [done|]. split.
    { intros x Hx. apply HP'. set_solver. }
    destruct b; [done|]. destruct Hb as [Hall Hcl]. split; [set_solver|].
    intros x Hx HxV. destruct (decide (x = actual)) as [->|Hxa].
    + intros y Hy HyV'.
      destruct (Hall y) as [?|Hres]; [|done|].
      { rewrite Horden, elem_of_elements.
        by rewrite (mismo_obs_vecinos g0 g). }
      unfold residual in Hres. simpl in Hres. done.
    + apply Hcl; [done|]. set_solver.
Qed.

End Profundidad.

(* ===================================================================== *)
(** ** Breadth-first search                                               *)
(* ===================================================================== *)

Lemma pbfs_insert padre y p x :
  pbfs (<[y := Some p]> padre) x
  = if decide (x = y) then Some p else pbfs padre x.
Proof.
  unfold pbfs. case_decide as H; [subst; by rewrite lookup_insert_eq|].
  by rewrite lookup_insert_ne.
Qed.

Lemma sin_padre_insert padre y p x :
  sin_padre (<[y := Some p]> padre) x
  = if decide (x = y) then false else sin_padre padre x.
Proof.
  unfold sin_padre. case_decide as H; [subst; by rewrite lookup_insert_eq|].
  by rewrite lookup_insert_ne.
Qed.

Lemma size_quitar (N V : gset Z) (x : Z) :
  x ∈ N → x ∉ V → size (N ∖ V) = S (size (N ∖ ({[x]} ∪ V))).
Proof.
  intros HN HV.
  assert (N ∖ V = {[x]} ∪ N ∖ ({[x]} ∪ V)) as ->.
  { apply set_eq. intros z. destruct (decide (z = x)); set_solver. }
  rewrite size_union by set_solver. by rewrite size_singleton.
Qed.

Section Anchura.

Variable g0 : MaximoFLujo.
Variables s t : Z.
Hypothesis bf_g0 : bien_formado g0.

Lemma bfs_intento_spec res d u y padre q D g :
  lee_residual res d →
  bfs_inv g0 s t padre q D g → u ∈ D → y ∈ _nodos g0 →
  ∃ sale padre' q' g',
    bfs_intento res d u t y padre q g = Ok (sale, padre', q') g' ∧
    mismo_obs g0 g' ∧
    if sale : bool then ∃ l, aumentante g0 (pbfs padre') s t l
    else ∃ D', bfs_inv g0 s t padre' q' D' g' ∧ D ⊆ D' ∧
               (∀ x, x ∈ D' → x ∈ D ∨ x ∈ q') ∧
               (∀ x, x ∈ q → x ∈ q') ∧
               (y ∈ D' ∨ residual g0 u y d <= 0) ∧
               (size (_nodos g0 ∖ D') + length q'
                = size (_nodos g0 ∖ D) + length q)%nat.
Proof.
  intros Hres (Hobs & HD & HDN & Hs & Ht & Hch & Hq & Hnd) Hu Hy.
  unfold bfs_intento, bind.
  destruct (sin_padre padre y) eqn:Hsin; cycle 1.
  { (* [y] has a predecessor already *)
    exists false, padre, q, g. split; [done|]. split; [done|].
    exists D. split; [done|]. split_and!; [done|auto|done| |done].
    left. by apply HD. }
  assert (HyD : y ∉ D) by (rewrite HD; congruence).
  destruct (Hres u y g) as (g2 & -> & Hobs2). unfold ret.
  pose proof (mismo_obs_trans _ _ _ Hobs Hobs2) as Hobs02.
  rewrite (mismo_obs_residual g0 g) by done.
  case_bool_decide as Hpos; cycle 1.
  { exists false, padre, q, g2. split; [done|]. split; [done|].
    exists D. split; [done|]. split_and!; [done|auto|done| |done].
    right. lia. }
  set (padre' := <[y := Some (u, d)]> padre).
  assert (Hext : ∀ x l, aumentante g0 (pbfs padre) s x l →
                        (∀ z, z ∈ nodos_de x l → z ∈ D) →
                        aumentante g0 (pbfs padre') s x l).
  { intros x l Hl Hnod. eapply aumentante_ext; [done|]. intros z Hz.
    unfold padre'. rewrite pbfs_insert, decide_False; [done|].
    intros ->. by apply Hnod in Hz. }
  destruct (Hch u Hu) as (lu & Hlu & Hnodu).
  assert (Hly : aumentante g0 (pbfs padre') s y ((u, y, d) :: lu)).
  { apply aumentante_paso; [by apply Hext| |by intros ?%Hnodu|lia].
    unfold padre'. by rewrite pbfs_insert, decide_True. }
  destruct (decide (y = t)) as [->|Hyt].
  { exists true, padre', q, g2. split; [done|]. split; [done|]. by eexists. }
  exists false, padre', (q ++ [y]), g2. split; [done|]. split; [done|].
  exists ({[y]} ∪ D). split; [|split_and!].
  - split; [done|]. split_and!.
    + intros x. unfold padre'. rewrite sin_padre_insert, elem_of_union,
        elem_of_singleton. case_decide; [naive_solver|]. rewrite <- HD.
      naive_solver.
    + set_solver.
    + set_solver.
    + set_solver.
    + intros x [Hx|Hx]%elem_of_union; [apply elem_of_singleton in Hx as ->|].
      * eexists. split; [exact Hly|].
        intros z [->|Hz]%elem_of_cons; [set_solver|].
        apply elem_of_union_r. apply Hnodu.
        unfold nodos_de. by simpl in Hz.
      * destruct (Hch x Hx) as (l & Hl & Hnod). exists l.
        split; [by apply Hext|].
        intros z Hz. apply elem_of_union_r. by apply Hnod.
    + intros x [Hx|Hx]%elem_of_app; [set_solver|].
      apply list_elem_of_singleton in Hx as ->. set_solver.
    + apply NoDup_app. split; [done|]. split; [|apply NoDup_singleton].
      intros x Hx Hx'. apply list_elem_of_singleton in Hx' as ->.
      by apply Hq in Hx.
  - set_solver.
  - intros x [Hx|Hx]%elem_of_union; [right|by left].
    apply elem_of_singleton in Hx as ->. apply elem_of_app. right.
    apply list_elem_of_here.
  - intros x Hx. apply elem_of_app. by left.
  - left. set_solver.
  - rewrite length_app. simpl.
    pose proof (size_quitar (_nodos g0) D y Hy HyD). lia.
Qed.

Lemma bfs_vecinos_spec u l :
  ∀ padre q D g,
    bfs_inv g0 s t padre q D g → u ∈ D → (∀ y, y ∈ l → y ∈ _nodos g0) →
    ∃ sale padre' q' g',
      bfs_vecinos u t l padre q g = Ok (sale, padre', q') g' ∧
      mismo_obs g0 g' ∧
      if sale : bool then ∃ l, aumentante g0 (pbfs padre') s t l
      else ∃ D', bfs_inv g0 s t padre' q' D' g' ∧ D ⊆ D' ∧
                 (∀ x, x ∈ D' → x ∈ D ∨ x ∈ q') ∧
                 (∀ x, x ∈ q → x ∈ q') ∧
                 (∀ y, y ∈ l →
                       y ∈ D' ∨ (residual g0 u y 1 <= 0 ∧
                                 residual g0 u y (-1) <= 0)) ∧
                 (size (_nodos g0 ∖ D') + length q'
                  = size (_nodos g0 ∖ D) + length q)%nat.
Proof.
  induction l as [|y l IH]; intros padre q D g Hinv Hu Hl.
  { exists false, padre, q, g. split; [done|]. split; [apply Hinv|].
    exists D. split_and!; [done|done|auto|done| |done].
    by intros ? ?%elem_of_nil. }
  assert (Hy : y ∈ _nodos g0) by apply Hl, list_elem_of_here.
  simpl. unfold bind at 1.
  destruct (bfs_intento_spec _residual_adelante 1 u y padre q D g)
    as (sale & padre1 & q1 & g1 & -> & Hobs1 & Hsale);
    [apply residual_adelante_ok|done..|].
  destruct sale.
  { exists true, padre1, q1, g1. by split. }
  destruct Hsale as (D1 & Hinv1 & HD1 & Hnew1 & Hq1 & Hy1 & Hsz1).
  unfold bind at 1.
  destruct (bfs_intento_spec _residual_atras (-1) u y padre1 q1 D1 g1)
    as (sale & padre2 & q2 & g2 & -> & Hobs2 & Hsale);
    [apply residual_atras_ok|done|by apply HD1|done|].
  destruct sale.
  { exists true, padre2, q2, g2. by split. }
  destruct Hsale as (D2 & Hinv2 & HD2 & Hnew2 & Hq2 & Hy2 & Hsz2).
  destruct (IH padre2 q2 D2 g2)
    as (sale & padre3 & q3 & g3 & -> & Hobs3 & Hsale);
    [done|by apply HD2, HD1| |].
  { intros z Hz. by apply Hl, list_elem_of_further. }
  exists sale, padre3, q3, g3. split; [done|]. split; [done|].
  destruct sale; [done|].
  destruct Hsale as (D3 & Hinv3 & HD3 & Hnew3 & Hq3 & Hall & Hsz3).
  exists D3. split_and!; [done|set_solver| |by auto| |lia].
  - intros x Hx. destruct (Hnew3 x Hx) as [Hx2|?]; [|by right].
    destruct (Hnew2 x Hx2) as [Hx1|?]; [|right; by auto].
    destruct (Hnew1 x Hx1) as [?|?]; [by left|right; by auto].
  - intros z [->|Hz]%elem_of_cons; [|by apply Hall].
    destruct Hy1 as [?|Hy1]; [left; set_solver|].
    destruct Hy2 as [?|Hy2]; [left; set_solver|]. by right.
Qed.

Lemma bfs_bucle_spec (orden : Z → gset Z → list Z) :
  (∀ u X, orden u X ≡ₚ elements X) →
  ∀ n padre q D g,
    bfs_inv g0 s t padre q D g →
    (∀ x, x ∈ D → x ∉ q → cerrado g0 D x) →
    (size (_nodos g0 ∖ D) + length q ≤ n)%nat →
    ∃ b op g',
      bfs_bucle orden n t padre q g = Ok (b, op) g' ∧
      mismo_obs g0 g' ∧
      if b : bool then
        ∃ padre', op = Some padre' ∧ ∃ l, aumentante g0 (pbfs padre') s t l
      else
        op = None ∧
        ∃ D', s ∈ D' ∧ (t ∉ D') ∧ D' ⊆ _nodos g0 ∧
              ∀ x, x ∈ D' → cerrado g0 D' x.
Proof.
  intros Horden. induction n as [|n IH]; intros padre q D g Hinv Hcl Hsz.
  - destruct q as [|u q]; [|simpl in Hsz; lia].
    exists false, None, g. split; [done|]. split; [apply Hinv|]. split; [done|].
    destruct Hinv as (_ & _ & HDN & Hs & Ht & _).
    exists D. split_and!; [done..|]. intros x Hx. apply Hcl; [done|].
    apply not_elem_of_nil.
  - destruct q as [|u q].
    { exists false, None, g. split; [done|]. split; [apply Hinv|].
      split; [done|].
      destruct Hinv as (_ & _ & HDN & Hs & Ht & _).
      exists D. split_and!; [done..|]. intros x Hx. apply Hcl; [done|].
      apply not_elem_of_nil. }
    pose proof Hinv as (Hobs & HD & HDN & Hs & Ht & Hch & Hq & Hnd).
    assert (Hu : u ∈ D) by apply Hq, list_elem_of_here.
    apply NoDup_cons in Hnd as [Huq Hndq].
    simpl. rewrite decide_False by (intros ->; done).
    unfold bind at 1. destruct (ady_de_ok u g) as (g1 & -> & Hobs1).
    pose proof (mismo_obs_trans _ _ _ Hobs Hobs1) as Hobs01.
    unfold bind at 1.
    destruct (bfs_vecinos_spec u (orden u (vecinos g u)) padre q D g1)
      as (sale & padre' & q' & g' & -> & Hobs' & Hsale).
    { split_and!; try done. intros x Hx. apply Hq.
      by apply list_elem_of_further. }
    { done. }
    { intros y Hy. rewrite Horden, elem_of_elements in Hy.
      rewrite (mismo_obs_vecinos g0 g) in Hy by done.
      by apply (bf_nodos g0 bf_g0) in Hy as [_ ?]. }
    destruct sale.
    { exists true, (Some padre'), g'. split; [done|]. split; [done|].
      by eexists. }
    destruct Hsale as (D' & Hinv' & HDD' & Hnew & Hqq' & Hall & Hsz').
    apply (IH padre' q' D' g'); [done| |simpl in Hsz; lia].
    intros x Hx Hxq'. destruct (decide (x = u)) as [->|Hxu].
    + intros y Hy HyD'.
      destruct (Hall y) as [?|Hres]; [|done|].
      { rewrite Horden, elem_of_elements.
        by rewrite (mismo_obs_vecinos g0 g). }
      unfold residual in Hres. simpl in Hres. done.
    + apply (cerrado_mono g0 D); [done|].
      destruct (Hnew x Hx) as [HxD|?]; [|done]. apply Hcl; [done|].
      intros [->|Hxq]%elem_of_cons; [done|]. by apply Hxq', Hqq'.
Qed.

End Anchura.

(* ===================================================================== *)
(** ** The two walks along the recorded path                              *)
(* ===================================================================== *)

Lemma mismo_obs_misma_red g g' : mismo_obs g g' → misma_red g g'.
Proof. intros (H1 & _ & H3 & H4). by repeat split. Qed.

Lemma consulta_dfs padre : consulta (padre_dfs padre) (padre !!.).
Proof. intros v p g H. unfold padre_dfs. by rewrite H. Qed.

Lemma consulta_bfs padre : consulta (padre_de (Some padre)) (pbfs padre).
Proof.
  intros v p g H. unfold padre_de, padre_bfs, pbfs in *.
  destruct (padre !! v) as [[?|]|]; by simplify_eq/=.
Qed.

Lemma set_flujo_ok u v x g :
  ∃ g', set_flujo u v x g = Ok tt g' ∧ misma_red g g' ∧
        ∀ a b, flw g' a b = if decide (a = u ∧ b = v) then x else flw g a b.
Proof.
  rewrite set_flujo_eq. eexists. split; [done|]. split; [by repeat split|].
  intros a b. unfold flw. simpl. rewrite entrada_insert.
  destruct (decide (a = u)) as [->|Ha].
  - destruct (decide (b = v)) as [->|Hb].
    + by rewrite lookup_insert_eq, decide_True.
    + rewrite lookup_insert_ne, decide_False by naive_solver.
      by rewrite entrada_fila.
  - rewrite decide_False by naive_solver. by rewrite entrada_tocar.
Qed.

Lemma flu_fila_ok u g :
  ∃ g', flu_fila u g = Ok (default ∅ (flujo g !! u)) g' ∧ mismo_obs g g'.
Proof.
  rewrite flu_fila_eq. eexists. split; [done|]. apply mismo_obs_tocar_flujo.
Qed.

Lemma paso_empuje_ok pd P v u d b g :
  consulta pd P → P v = Some (u, d) →
  ∃ g', paso_empuje pd v b g = Ok u g' ∧ misma_red g g' ∧
        ∀ x y, flw g' x y = empuje_paso (flw g) (u, v, d) b x y.
Proof.
  intros Hpd HP. unfold paso_empuje, bind. rewrite (Hpd v (u, d) g HP).
  unfold empuje_paso. simpl. destruct (decide (d = 1)) as [->|Hd].
  - destruct (flu_fila_ok u g) as (g1 & -> & Hobs1).
    destruct (set_flujo_ok u v (default 0 (default ∅ (flujo g !! u) !! v) + b) g1)
      as (g2 & -> & Hred & Hf).
    exists g2. split; [done|]. split.
    + eapply misma_red_trans; [by apply mismo_obs_misma_red|done].
    + intros x y. rewrite Hf. case_decide as Hxy.
      * destruct Hxy as [-> ->]. unfold flw. by rewrite entrada_fila.
      * apply mismo_obs_flw, Hobs1.
  - destruct (flu_fila_ok v g) as (g1 & -> & Hobs1).
    destruct (set_flujo_ok v u (default 0 (default ∅ (flujo g !! v) !! u) - b) g1)
      as (g2 & -> & Hred & Hf).
    exists g2. split; [done|]. split.
    + eapply misma_red_trans; [by apply mismo_obs_misma_red|done].
    + intros x y. rewrite Hf. case_decide as Hxy.
      * destruct Hxy as [-> ->]. unfold flw. by rewrite entrada_fila.
      * apply mismo_obs_flw, Hobs1.
Qed.

Lemma empuje_paso_ext f f' p b :
  (∀ x y, f x y = f' x y) →
  ∀ x y, empuje_paso f p b x y = empuje_paso f' p b x y.
Proof. intros H x y. unfold empuje_paso. by rewrite !H. Qed.

Lemma empuje_ext l b f f' :
  (∀ x y, f x y = f' x y) → ∀ x y, empuje l b f x y = empuje l b f' x y.
Proof.
  revert f f'. induction l as [|p l IH]; intros f f' H; [done|].
  simpl. apply IH. by apply empuje_paso_ext.
Qed.

Lemma empujar_ok pd P s b l :
  consulta pd P →
  ∀ n v g, cadena P s v l → (length l ≤ n)%nat →
    ∃ g', empujar n pd s v b g = Ok tt g' ∧ misma_red g g' ∧
          ∀ x y, flw g' x y = empuje l b (flw g) x y.
Proof.
  intros Hpd n v g Hc. revert n g.
  induction Hc as [|v u d l Hne HP Hc IH]; intros n g Hn.
  - exists g. split; [apply empujar_fuente|].
    split; [apply misma_red_refl|done].
  - destruct n as [|n]; [simpl in Hn; lia|].
    simpl. rewrite decide_False by done. unfold bind.
    destruct (paso_empuje_ok pd P v u d b g Hpd HP) as (g1 & -> & Hred1 & Hf1).
    destruct (IH n g1) as (g2 & -> & Hred2 & Hf2); [simpl in Hn; lia|].
    exists g2. split; [done|]. split; [by eapply misma_red_trans|].
    intros x y. rewrite Hf2. by apply empuje_ext.
Qed.

Lemma cuello_ok g0 pd P s l :
  consulta pd P →
  ∀ n v b g, cadena P s v l → (length l ≤ n)%nat → mismo_obs g0 g →
    ∃ g', cuello n pd s v b g = Ok (botella_de g0 b l) g' ∧ mismo_obs g0 g'.
Proof.
  intros Hpd n v b g Hc. revert n b g.
  induction Hc as [|v u d l Hne HP Hc IH]; intros n b g Hn Hobs.
  - exists g. split; [apply cuello_fuente|done].
  - destruct n as [|n]; [simpl in Hn; lia|].
    simpl. rewrite decide_False by done. unfold bind at 1.
    rewrite (Hpd v (u, d) g HP). unfold bind at 1.
    assert (∃ g1, (if decide (d = 1) then _residual_adelante u v
                   else _residual_atras u v) g
                  = Ok (residual g0 u v d) g1 ∧ mismo_obs g0 g1)
      as (g1 & -> & Hobs1).
    { unfold residual at 1. case_decide as Hd.
      - destruct (residual_adelante_ok u v g) as (g1 & -> & H1).
        exists g1. unfold residual. rewrite decide_True by done.
        rewrite (mismo_obs_cap g0 g), (mismo_obs_flw g0 g) by done.
        split; [done|]. by eapply mismo_obs_trans.
      - destruct (residual_atras_ok u v g) as (g1 & -> & H1).
        exists g1. unfold residual. rewrite decide_False by done.
        rewrite (mismo_obs_flw g0 g) by done.
        split; [done|]. by eapply mismo_obs_trans. }
    apply IH; [simpl in Hn; lia|done].
Qed.

Lemma botella_de_Fin g z l :
  ∃ z', botella_de g (Fin z) l = Fin z' ∧ z' <= z ∧
        Forall (λ p, z' <= residual g p.1.1 p.1.2 p.2) l ∧
        (0 < z → Forall (λ p, 0 < residual g p.1.1 p.1.2 p.2) l → 0 < z').
Proof.
  revert z. induction l as [|p l IH]; intros z.
  - exists z. split; [done|]. split; [lia|]. split; [constructor|done].
  - simpl. destruct (IH (Z.min z (residual g p.1.1 p.1.2 p.2)))
      as (z' & -> & Hle & Hall & Hpos).
    exists z'. split; [done|]. split; [lia|]. split.
    + constructor; [lia|done].
    + intros Hz Hl. apply Forall_cons in Hl as [Hp Hl]. apply Hpos; [lia|done].
Qed.

Lemma botella_de_Inf g p l :
  ∃ z, botella_de g Inf (p :: l) = Fin z ∧
       Forall (λ p, z <= residual g p.1.1 p.1.2 p.2) (p :: l) ∧
       (Forall (λ p, 0 < residual g p.1.1 p.1.2 p.2) (p :: l) → 0 < z).
Proof.
  simpl. destruct (botella_de_Fin g (residual g p.1.1 p.1.2 p.2) l)
    as (z & -> & Hle & Hall & Hpos).
  exists z. split; [done|]. split; [by constructor|].
  intros [Hp Hl]%Forall_cons. by apply Hpos.
Qed.

(** The bottleneck is still [float("inf")] only when the walk took no step:
    this is what [aumentar] relies on. *)
Lemma cuello_Inf n pd s v g g' :
  cuello n pd s v Inf g = Ok Inf g' → v = s.
Proof.
  assert (Hfin : ∀ n v z g g', cuello n pd s v (Fin z) g ≠ Ok Inf g').
  { clear. induction n as [|n IH]; intros v z g g'; simpl.
    - case_decide; [|done]. by intros [=].
    - case_decide; [by intros [=]|]. unfold bind.
      destruct (pd v g) as [[u d] g1| |]; [|done..].
      destruct (decide (d = 1));
        [destruct (_residual_adelante u v g1) as [r g2| |]
        |destruct (_residual_atras u v g1) as [r g2| |]]; try done; apply IH. }
  destruct n as [|n]; simpl; case_decide as Hv; try done.
  unfold bind. destruct (pd v g) as [[u d] g1| |]; [|done..].
  destruct (decide (d = 1));
    [destruct (_residual_adelante u v g1) as [r g2| |]
    |destruct (_residual_atras u v g1) as [r g2| |]]; try done;
    intros Hc; by apply Hfin in Hc.
Qed.

(* ===================================================================== *)
(** ** Sums over the nodes                                                *)
(* ===================================================================== *)

Lemma suma_ext l h k : (∀ x, x ∈ l → h x = k x) → suma l h = suma l k.
Proof.
  induction l as [|a l IH]; intros H; [done|]. simpl.
  rewrite H by apply list_elem_of_here. rewrite IH; [done|].
  intros x Hx. by apply H, list_elem_of_further.
Qed.

Lemma suma_mas l h k : suma l (λ x, h x + k x) = suma l h + suma l k.
Proof. induction l as [|a l IH]; simpl; lia. Qed.

Lemma suma_menos l h k : suma l (λ x, h x - k x) = suma l h - suma l k.
Proof. induction l as [|a l IH]; simpl; lia. Qed.

Lemma suma_cero l : suma l (λ _, 0) = 0.
Proof. induction l as [|a l IH]; simpl; lia. Qed.

Lemma suma_le l h k : (∀ x, x ∈ l → h x <= k x) → suma l h <= suma l k.
Proof.
  induction l as [|a l IH]; intros H; [done|]. simpl.
  pose proof (H a (list_elem_of_here _ _)).
  assert (suma l h <= suma l k); [|lia].
  apply IH. intros x Hx. by apply H, list_elem_of_further.
Qed.

Lemma suma_intercambio l1 l2 (h : Z → Z → Z) :
  suma l1 (λ x, suma l2 (λ y, h x y)) = suma l2 (λ y, suma l1 (λ x, h x y)).
Proof.
  induction l1 as [|a l1 IH]; simpl.
  - by rewrite suma_cero.
  - by rewrite IH, suma_mas.
Qed.

Lemma suma_delta l u b :
  NoDup l →
  suma l (λ y, if decide (y = u) then b else 0)
  = if decide (u ∈ l) then b else 0.
Proof.
  induction 1 as [|a l Ha Hnd IH].
  - by destruct (decide (u ∈ [])) as [?%elem_of_nil|].
  - simpl. rewrite IH. destruct (decide (a = u)) as [->|Hne].
    + rewrite decide_False by done.
      rewrite decide_True by apply list_elem_of_here.
      lia.
    + destruct (decide (u ∈ l)) as [Hu|Hu].
      * rewrite decide_True by by apply list_elem_of_further. lia.
      * rewrite decide_False; [lia|]. intros [?|?]%elem_of_cons; by simplify_eq.
Qed.

Lemma suma_filter (P : Z → Prop) `{∀ x, Decision (P x)} l h :
  suma l h = suma (filter P l) h + suma (filter (λ x, ¬ P x) l) h.
Proof.
  induction l as [|a l IH]; [done|]. simpl.
  rewrite !filter_cons. destruct (decide (P a)).
  - rewrite decide_False by tauto. simpl. lia.
  - rewrite decide_True by done. simpl. lia.
Qed.

(* ===================================================================== *)
(** ** Pushing flow along a path                                          *)
(* ===================================================================== *)

Lemma cadena_enlazado P s v l : cadena P s v l → enlazado v l.
Proof. induction 1; by constructor. Qed.

Lemma enlazado_nodos v l p :
  enlazado v l → p ∈ l → p.1.1 ∈ nodos_de v l ∧ p.1.2 ∈ nodos_de v l.
Proof.
  induction 1 as [|v u d l Hl IH]; intros Hp; [by apply elem_of_nil in Hp|].
  change (nodos_de v ((u, v, d) :: l)) with (v :: nodos_de u l).
  apply elem_of_cons in Hp as [->|Hp]; simpl.
  - split; [|apply list_elem_of_here].
    apply list_elem_of_further, list_elem_of_here.
  - destruct (IH Hp). split; by apply list_elem_of_further.
Qed.

Lemma empuje_paso_otros f u v d b x y :
  x ≠ v → y ≠ v → empuje_paso f (u, v, d) b x y = f x y.
Proof.
  intros Hx Hy. unfold empuje_paso. simpl.
  case_decide; rewrite decide_False; naive_solver.
Qed.

Lemma empuje_en_rango c b :
  0 <= b →
  ∀ v l, enlazado v l → NoDup (nodos_de v l) →
    ∀ f, en_rango c f → Forall (λ p, b <= residual_f c f p) l →
         en_rango c (empuje l b f).
Proof.
  intros Hb v l Hl.
  induction Hl as [|v u d l Hl IH]; intros Hnd f Hf Hall; [done|].
  change (nodos_de v ((u, v, d) :: l)) with (v :: nodos_de u l) in Hnd.
  apply NoDup_cons in Hnd as [Hv Hnd].
  apply Forall_cons in Hall as [Hp Hall].
  simpl. apply IH; [done| |].
  - intros x y. unfold empuje_paso. unfold residual_f in Hp. simpl in *.
    specialize (Hf x y). 
    destruct (decide (d = 1)).
    + case_decide as Hxy; [destruct Hxy as [-> ->]|]; lia.
    + case_decide as Hxy; [destruct Hxy as [-> ->]|]; lia.
  - apply Forall_forall. intros p Hin.
    rewrite Forall_forall in Hall. specialize (Hall p Hin).
    destruct (enlazado_nodos u l p Hl Hin) as [H1 H2].
    unfold residual_f in *.
    rewrite !empuje_paso_otros;
      [done|intros Heq; apply Hv; by rewrite <- Heq..].
Qed.

Lemma neto_empuje_paso N f u v d b w :
  NoDup N → u ∈ N → v ∈ N →
  neto N (empuje_paso f (u, v, d) b) w
  = neto N f w + (if decide (w = u) then b else 0)
    - (if decide (w = v) then b else 0).
Proof.
  intros Hnd Hu Hv. unfold neto.
  destruct (decide (d = 1)) as [Hd|Hd].
  - rewrite (suma_ext N (λ y, empuje_paso f (u, v, d) b w y)
               (λ y, f w y + (if decide (w = u)
                              then (if decide (y = v) then b else 0) else 0))).
    2:{ intros y _. unfold empuje_paso. simpl. rewrite decide_True by done.
        repeat case_decide; lia. }
    rewrite (suma_ext N (λ y, empuje_paso f (u, v, d) b y w)
               (λ y, f y w + (if decide (w = v)
                              then (if decide (y = u) then b else 0) else 0))).
    2:{ intros y _. unfold empuje_paso. simpl. rewrite decide_True by done.
        repeat case_decide; lia. }
    rewrite !suma_mas.
    destruct (decide (w = u)), (decide (w = v));
      rewrite ?suma_delta, ?suma_cero, ?decide_True by done;
      change (suma N (f w)) with (suma N (λ y, f w y)); lia.
  - rewrite (suma_ext N (λ y, empuje_paso f (u, v, d) b w y)
               (λ y, f w y - (if decide (w = v)
                              then (if decide (y = u) then b else 0) else 0))).
    2:{ intros y _. unfold empuje_paso. simpl. rewrite decide_False by done.
        repeat case_decide; lia. }
    rewrite (suma_ext N (λ y, empuje_paso f (u, v, d) b y w)
               (λ y, f y w - (if decide (w = u)
                              then (if decide (y = v) then b else 0) else 0))).
    2:{ intros y _. unfold empuje_paso. simpl. rewrite decide_False by done.
        repeat case_decide; lia. }
    rewrite !suma_menos.
    destruct (decide (w = u)), (decide (w = v));
      rewrite ?suma_delta, ?suma_cero, ?decide_True by done;
      change (suma N (f w)) with (suma N (λ y, f w y)); lia.
Qed.

Lemma neto_ext N f f' w :
  (∀ x y, f x y = f' x y) → neto N f w = neto N f' w.
Proof.
  intros H. unfold neto. f_equal; apply suma_ext; intros; by rewrite H.
Qed.

Lemma neto_empuje N P s b w :
  NoDup N →
  ∀ v l, cadena P s v l → (∀ x, x ∈ nodos_de v l → x ∈ N) →
    ∀ f, neto N (empuje l b f) w
         = neto N f w + (if decide (w = s) then b else 0)
           - (if decide (w = v) then b else 0).
Proof.
  intros Hnd v l Hc. induction Hc as [|v u d l Hne HP Hc IH]; intros HN f.
  - simpl. lia.
  - change (nodos_de v ((u, v, d) :: l)) with (v :: nodos_de u l) in HN.
    simpl. rewrite IH.
    2:{ intros x Hx. by apply HN, list_elem_of_further. }
    rewrite neto_empuje_paso; [lia|done|..].
    + apply HN, list_elem_of_further, list_elem_of_here.
    + apply HN, list_elem_of_here.
Qed.

(* ===================================================================== *)
(** ** One round of a solver                                              *)
(* ===================================================================== *)

Lemma cap_pos_entrada g u v :
  0 < cap g u v → is_Some (entrada (capacidad g) u v).
Proof. unfold cap. destruct (entrada _ u v); [by eexists|simpl; lia]. Qed.

Lemma residual_extremos g u v d :
  bien_formado g → en_rango (cap g) (flw g) → 0 < residual g u v d →
  u ∈ _nodos g ∧ v ∈ _nodos g.
Proof.
  intros Hbf Hr. unfold residual. case_decide; intros Hpos.
  - pose proof (Hr u v). destruct (cap_pos_entrada g u v) as [c Hc]; [lia|].
    by eapply bien_formado_extremos.
  - pose proof (Hr v u). destruct (cap_pos_entrada g v u) as [c Hc]; [lia|].
    by destruct (bien_formado_extremos g v u c Hbf Hc).
Qed.

Lemma aumentante_nodos g P s v l :
  bien_formado g → en_rango (cap g) (flw g) → aumentante g P s v l →
  v ∈ _nodos g → ∀ x, x ∈ nodos_de v l → x ∈ _nodos g.
Proof.
  intros Hbf Hr (_ & Hpos & _) Hv x [->|Hx]%elem_of_cons; [done|].
  apply list_elem_of_fmap in Hx as (p & -> & Hp).
  rewrite Forall_forall in Hpos. specialize (Hpos p Hp).
  by destruct (residual_extremos g _ _ _ Hbf Hr Hpos).
Qed.

Lemma aumentante_length g P s v l :
  bien_formado g → en_rango (cap g) (flw g) → aumentante g P s v l →
  v ∈ _nodos g → (length l < size (_nodos g))%nat.
Proof.
  intros Hbf Hr Hl Hv.
  pose proof (aumentante_nodos g P s v l Hbf Hr Hl Hv) as Hnod.
  destruct Hl as (_ & _ & Hnd).
  assert (Hle : (length (nodos_de v l) ≤ length (elements (_nodos g)))%nat).
  { apply submseteq_length, NoDup_submseteq; [done|].
    intros x Hx. apply elem_of_elements. by apply Hnod. }
  unfold nodos_de in Hle. simpl in Hle. rewrite length_fmap in Hle.
  unfold size, set_size. simpl. lia.
Qed.

Lemma en_rango_ext c c' f f' :
  (∀ x y, c' x y = c x y) → (∀ x y, f' x y = f x y) →
  en_rango c f → en_rango c' f'.
Proof. intros Hc Hf H x y. rewrite Hc, Hf. apply H. Qed.

Lemma misma_red_cap g g' a b : misma_red g g' → cap g' a b = cap g a b.
Proof. intros (H & _). unfold cap. by rewrite H. Qed.

Lemma misma_red_nodos g g' : misma_red g g' → _nodos g' = _nodos g.
Proof. by intros (_ & _ & H). Qed.

Lemma NoDup_nodos_l g : NoDup (nodos_l g).
Proof. unfold nodos_l. apply NoDup_elements. Qed.

Lemma elem_of_nodos_l g x : x ∈ nodos_l g ↔ x ∈ _nodos g.
Proof. unfold nodos_l. apply elem_of_elements. Qed.

Section Ronda.

Variable g : MaximoFLujo.
Variables s t : Z.
Hypothesis bf_g : bien_formado g.
Hypothesis Hs : s ∈ _nodos g.
Hypothesis Ht : t ∈ _nodos g.
Hypothesis Hst : s ≠ t.
Hypothesis Hrango : en_rango (cap g) (flw g).

Lemma aumentar_ok n pd P l g1 :
  consulta pd P → aumentante g P s t l → mismo_obs g g1 →
  (size (_nodos g) ≤ n)%nat →
  ∃ b g2, aumentar n pd s t g1 = Ok b g2 ∧ ronda_post g s t (Some b) g2.
Proof.
  intros Hpd Hl Hobs Hn.
  pose proof (aumentante_length g P s t l bf_g Hrango Hl Ht) as Hlen.
  pose proof (aumentante_nodos g P s t l bf_g Hrango Hl Ht) as Hnod.
  destruct Hl as (Hc & Hpos & Hnd).
  destruct l as [|p l]; [by inversion Hc|].
  unfold aumentar, bind.
  destruct (cuello_ok g pd P s (p :: l) Hpd n t Inf g1 Hc) as (g2 & -> & Hobs2);
    [lia|done|].
  destruct (botella_de_Inf g p l) as (z & -> & Hle & Hz).
  specialize (Hz Hpos).
  destruct (empujar_ok pd P s z (p :: l) Hpd n t g2 Hc)
    as (g3 & -> & Hred & Hf); [lia|].
  exists (Fin z), g3. split; [done|]. exists z. split; [done|]. split; [done|].
  assert (Hf' : ∀ x y, flw g3 x y = empuje (p :: l) z (flw g) x y).
  { intros x y. rewrite Hf. apply empuje_ext. intros a b.
    by apply mismo_obs_flw. }
  split; [|split].
  - eapply misma_red_trans; [by apply mismo_obs_misma_red|done].
  - apply (en_rango_ext (cap g) _ (empuje (p :: l) z (flw g))); [|done|].
    { intros x y. rewrite (misma_red_cap g2 g3) by done.
      by apply mismo_obs_cap. }
    eapply empuje_en_rango; [lia|by eapply cadena_enlazado|done|done|].
    eapply Forall_impl; [exact Hle|]. intros [[u v] d] Hp. done.
  - intros w. rewrite (neto_ext _ _ _ w Hf').
    apply (neto_empuje _ P); [apply NoDup_nodos_l|done|].
    intros x Hx. apply elem_of_nodos_l. by apply Hnod.
Qed.

Lemma dfs_inicio_ok orden n g1 :
  (∀ u X, orden u X ≡ₚ elements X) →
  mismo_obs g g1 → (size (_nodos g) < n)%nat →
  ∃ b V P g2,
    _dfs_aumento orden n t s ∅ ∅ g1 = Ok (b, V, P) g2 ∧ mismo_obs g g2 ∧
    if b : bool then ∃ l, aumentante g (P !!.) s t l
    else corte_cerrado g s t V.
Proof.
  intros Horden Hobs Hn. destruct n as [|m]; [lia|].
  destruct (dfs_aumento_spec g s t bf_g orden Horden m s ∅ ∅ g1)
    as ([[b V] P] & g2 & -> & Hobs2 & _ & HV & HtV & _ & Hb).
  { split; [done|]. split_and!; [set_solver..|].
    exists []. split.
    - split; [constructor|]. split; [constructor|]. apply NoDup_singleton.
    - intros x ->%list_elem_of_singleton. by left. }
  { etrans; [apply subseteq_size|]; [|apply Nat.lt_succ_r, Hn]. set_solver. }
  exists b, V, P, g2. split; [done|]. split; [done|].
  destruct b; [done|]. destruct Hb as [HsV Hcl].
  split_and!; [done..|]. intros x Hx. apply Hcl; [done|set_solver].
Qed.

Lemma ronda_dfs_ok orden n g1 :
  (∀ u X, orden u X ≡ₚ elements X) →
  mismo_obs g g1 → (size (_nodos g) < n)%nat →
  ∃ r g2, ronda_dfs orden n s t g1 = Ok r g2 ∧ ronda_post g s t r g2.
Proof.
  intros Horden Hobs Hn. unfold ronda_dfs, bind.
  destruct (dfs_inicio_ok orden n g1 Horden Hobs Hn)
    as (b & V & P & g2 & -> & Hobs2 & Hb).
  destruct b.
  - destruct Hb as (l & Hl).
    destruct (aumentar_ok n (padre_dfs P) (P !!.) l g2)
      as (b & g3 & -> & Hpost); [apply consulta_dfs|done|done|lia|].
    by exists (Some b), g3.
  - exists None, g2. split; [done|]. split; [done|]. by exists V.
Qed.

Lemma sin_padre_inicial (N : gset Z) x :
  sin_padre (gset_to_gmap None N) x = true.
Proof.
  unfold sin_padre. destruct (gset_to_gmap None N !! x) as [o|] eqn:E; [|done].
  apply lookup_gset_to_gmap_Some in E as [_ <-]. done.
Qed.

Lemma bfs_inicio_ok orden n g1 :
  (∀ u X, orden u X ≡ₚ elements X) →
  mismo_obs g g1 → (size (_nodos g) ≤ n)%nat →
  ∃ b op g2,
    _bfs_aumento orden n s t g1 = Ok (b, op) g2 ∧ mismo_obs g g2 ∧
    if b : bool then
      ∃ padre, op = Some padre ∧ ∃ l, aumentante g (pbfs padre) s t l
    else op = None ∧ ∃ D, corte_cerrado g s t D.
Proof.
  intros Horden Hobs Hn. unfold _bfs_aumento, bind, estado.
  destruct (bfs_bucle_spec g s t bf_g orden Horden n
              (<[s := Some (s, 0)]> (gset_to_gmap None (_nodos g1)))
              [s] {[s]} g1)
    as (b & op & g2 & -> & Hobs2 & Hb).
  - split; [done|]. split_and!.
    + intros x. rewrite sin_padre_insert, elem_of_singleton.
      case_decide; [done|]. rewrite sin_padre_inicial. naive_solver.
    + set_solver.
    + set_solver.
    + set_solver.
    + intros x ->%elem_of_singleton. exists []. split.
      * split; [constructor|]. split; [constructor|]. apply NoDup_singleton.
      * intros x ->%list_elem_of_singleton. set_solver.
    + intros x ->%list_elem_of_singleton. set_solver.
    + apply NoDup_singleton.
  - intros x ->%elem_of_singleton Hx. exfalso. apply Hx, list_elem_of_here.
  - pose proof (size_quitar (_nodos g) ∅ s Hs (not_elem_of_empty s)) as Hsz.
    rewrite difference_empty_L, union_empty_r_L in Hsz. simpl. lia.
  - exists b, op, g2. split; [done|]. split; [done|].
    destruct b; [done|]. destruct Hb as (-> & D & HD). split; [done|].
    by exists D.
Qed.

Lemma ronda_bfs_ok orden n g1 :
  (∀ u X, orden u X ≡ₚ elements X) →
  mismo_obs g g1 → (size (_nodos g) ≤ n)%nat →
  ∃ r g2, ronda_bfs orden n s t g1 = Ok r g2 ∧ ronda_post g s t r g2.
Proof.
  intros Horden Hobs Hn. unfold ronda_bfs, bind.
  destruct (bfs_inicio_ok orden n g1 Horden Hobs Hn)
    as (b & op & g2 & -> & Hobs2 & Hb).
  destruct b.
  - destruct Hb as (padre & -> & l & Hl).
    destruct (aumentar_ok n (padre_de (Some padre)) (pbfs padre) l g2)
      as (b & g3 & -> & Hpost); [apply consulta_bfs|done..|].
    by exists (Some b), g3.
  - destruct Hb as (-> & D & HD).
    exists None, g2. split; [done|]. split; [done|]. by exists D.
Qed.

End Ronda.

(* ===================================================================== *)
(** ** The augmenting loop                                                *)
(* ===================================================================== *)

Lemma mismo_obs_nodos_l g g' : mismo_obs g g' → nodos_l g' = nodos_l g.
Proof. intros H. unfold nodos_l. by rewrite (mismo_obs_nodos g g'). Qed.

Lemma misma_red_nodos_l g g' : misma_red g g' → nodos_l g' = nodos_l g.
Proof. intros H. unfold nodos_l. by rewrite (misma_red_nodos g g'). Qed.

Lemma mismo_obs_valor g g' s : mismo_obs g g' → valor g' s = valor g s.
Proof.
  intros H. unfold valor. rewrite (mismo_obs_nodos_l g g') by done.
  apply neto_ext. intros x y. by apply mismo_obs_flw.
Qed.

Lemma mismo_obs_flujo_valido g g' s t :
  mismo_obs g g' → flujo_valido g s t → flujo_valido g' s t.
Proof.
  intros H [Hr Hc]. split.
  - eapply en_rango_ext; [| |done]; intros x y;
      [by apply mismo_obs_cap|by apply mismo_obs_flw].
  - intros w Hws Hwt. rewrite (mismo_obs_nodos_l g g') by done.
    rewrite <- (Hc w Hws Hwt). apply neto_ext. intros x y.
    by apply mismo_obs_flw.
Qed.

Lemma mismo_obs_cerrado g g' X x :
  mismo_obs g g' → cerrado g X x → cerrado g' X x.
Proof.
  intros H Hc y Hy HyX. rewrite (mismo_obs_vecinos g g') in Hy by done.
  rewrite (mismo_obs_cap g g'), !(mismo_obs_flw g g') by done. by apply Hc.
Qed.

Lemma mismo_obs_corte g g' s t X :
  mismo_obs g g' → corte_cerrado g s t X → corte_cerrado g' s t X.
Proof.
  intros H (H1 & H2 & H3 & H4). split_and!; [done..| |].
  - by rewrite (mismo_obs_nodos g g').
  - intros x Hx. eapply mismo_obs_cerrado; [done|]. by apply H4.
Qed.

Lemma suma_no_negativa l h : (∀ x, x ∈ l → 0 <= h x) → 0 <= suma l h.
Proof. intros H. rewrite <- (suma_cero l). by apply suma_le. Qed.

Lemma valor_cota g s :
  en_rango (cap g) (flw g) → valor g s <= suma (nodos_l g) (cap g s).
Proof.
  intros Hr. unfold valor, neto.
  assert (suma (nodos_l g) (flw g s) <= suma (nodos_l g) (cap g s)).
  { apply suma_le. intros y _. apply Hr. }
  assert (0 <= suma (nodos_l g) (λ y, flw g y s)).
  { apply suma_no_negativa. intros y _. apply Hr. }
  change (suma (nodos_l g) (λ y, flw g s y)) with (suma (nodos_l g) (flw g s)).
  lia.
Qed.

Lemma bucle_S k ronda fm :
  bucle (S k) ronda fm
  = let* r := ronda in
    match r with
    | None => ret fm
    | Some b => bucle k ronda (num_add fm b)
    end.
Proof. done. Qed.

Lemma bucle_ok (ronda : M (option num)) g0 s t :
  bien_formado g0 → s ≠ t →
  (∀ g, misma_red g0 g → en_rango (cap g) (flw g) →
        ∃ r g', ronda g = Ok r g' ∧ ronda_post g s t r g') →
  ∀ k g,
    misma_red g0 g → flujo_valido g s t →
    (Z.to_nat (suma (nodos_l g0) (cap g0 s) - valor g s) < k)%nat →
    ∃ g', bucle k ronda (Fin (valor g s)) g = Ok (Fin (valor g' s)) g' ∧
          misma_red g0 g' ∧ flujo_valido g' s t ∧
          ∃ X, corte_cerrado g' s t X.
Proof.
  intros Hbf Hst Hronda.
  induction k as [|k IH]; intros g Hred [Hr Hc] Hk; [lia|].
  rewrite bucle_S. unfold bind.
  destruct (Hronda g Hred Hr) as (r & g1 & -> & Hpost).
  destruct r as [b|]; simpl in Hpost.
  - destruct Hpost as (z & -> & Hz & Hred1 & Hr1 & Hneto). simpl.
    pose proof (misma_red_nodos_l g g1 Hred1) as HN.
    assert (Hval : valor g1 s = valor g s + z).
    { unfold valor. rewrite HN, Hneto.
      rewrite decide_True, decide_False by done. lia. }
    rewrite <- Hval.
    assert (Hred01 : misma_red g0 g1) by by eapply misma_red_trans.
    apply IH; [done| |].
    + split; [done|]. intros w Hws Hwt. rewrite HN, Hneto.
      rewrite !decide_False by done. rewrite (Hc w Hws Hwt). lia.
    + pose proof (valor_cota g1 s Hr1) as Hcota.
      rewrite (misma_red_nodos_l g0 g1) in Hcota by done.
      rewrite (suma_ext _ (cap g1 s) (cap g0 s)) in Hcota
        by (intros; by apply misma_red_cap).
      lia.
  - destruct Hpost as (Hobs & X & HX). exists g1.
    rewrite (mismo_obs_valor g g1) by done. split; [done|].
    split; [eapply misma_red_trans; [done|by apply mismo_obs_misma_red]|].
    split; [by eapply mismo_obs_flujo_valido|].
    exists X. by eapply mismo_obs_corte.
Qed.

(* ===================================================================== *)
(** ** Reset and result shaping                                           *)
(* ===================================================================== *)

Lemma neto_cero N (f : Z → Z → Z) w : (∀ x y, f x y = 0) → neto N f w = 0.
Proof.
  intros H. unfold neto.
  rewrite (suma_ext N (λ y, f w y) (λ _, 0)), (suma_ext N (λ y, f y w) (λ _, 0))
    by (intros; apply H).
  rewrite suma_cero. lia.
Qed.

Lemma reiniciar_flujos_ok g s t :
  cap_pos g →
  ∃ g', reiniciar_flujos g = Ok tt g' ∧ misma_red g g' ∧
        (∀ x y, flw g' x y = 0) ∧ flujo_valido g' s t ∧ valor g' s = 0.
Proof.
  intros Hpos. eexists. split; [reflexivity|]. split; [by repeat split|].
  assert (H0 : ∀ x y,
             flw (con_flujo ((λ r : gmap Z Z, (λ _, 0) <$> r) <$> flujo g) g) x y
             = 0).
  { intros x y. unfold flw, entrada. simpl. rewrite lookup_fmap.
    destruct (flujo g !! x) as [r|]; simpl; [|done].
    rewrite lookup_fmap. by destruct (r !! y). }
  split; [done|]. split; [split|].
  - intros x y. rewrite H0. split; [done|]. by apply cap_nonneg.
  - intros w _ _. by apply neto_cero.
  - by apply neto_cero.
Qed.

Lemma desglose_fila g u (lst : list (Z * Z)) :
  ∀ (acc : gmap (Z * Z) Z) g1,
    mismo_obs g g1 → NoDup lst.*1 →
    ∃ acc' g2,
      para_cada lst
        (λ '(v, c) acc,
           let* rf := flu_fila u in
           ret (<[(u, v) := Z.max 0 (Z.min c (default 0 (rf !! v)))]> acc))
        acc g1 = Ok acc' g2 ∧
      mismo_obs g g2 ∧
      ∀ a b, acc' !! (a, b)
             = if decide (a = u) then
                 match (list_to_map lst : gmap Z Z) !! b with
                 | Some c => Some (Z.max 0 (Z.min c (flw g u b)))
                 | None => acc !! (a, b)
                 end
               else acc !! (a, b).
Proof.
  induction lst as [|[v c] lst IH]; intros acc g1 Hobs Hnd.
  - exists acc, g1. split; [done|]. split; [done|].
    intros a b. by case_decide.
  - simpl in Hnd. apply NoDup_cons in Hnd as [Hv Hnd].
    simpl. unfold bind at 1. unfold bind at 1.
    destruct (flu_fila_ok u g1) as (g2 & -> & Hobs2). unfold ret at 1.
    pose proof (mismo_obs_trans _ _ _ Hobs Hobs2) as Hobs02.
    destruct (IH (<[(u, v) := Z.max 0 (Z.min c
                     (default 0 (default ∅ (flujo g1 !! u) !! v)))]> acc) g2)
      as (acc' & g3 & -> & Hobs3 & Hacc); [done..|].
    exists acc', g3. split; [done|]. split; [done|].
    intros a b. rewrite Hacc. case_decide as Ha; [subst a|].
    + destruct (decide (b = v)) as [->|Hb].
      * rewrite lookup_insert_eq.
        rewrite (not_elem_of_list_to_map_1 _ v) by done.
        rewrite lookup_insert_eq, entrada_fila.
        fold (flw g1 u v). by rewrite (mismo_obs_flw g g1).
      * rewrite (lookup_insert_ne _ v b) by done.
        destruct (list_to_map lst !! b); [done|].
        rewrite lookup_insert_ne; [done|congruence].
    + rewrite lookup_insert_ne; [done|congruence].
Qed.

Lemma desglose_filas g (rows : list (Z * gmap Z Z)) :
  ∀ (acc : gmap (Z * Z) Z) g1,
    mismo_obs g g1 → NoDup rows.*1 →
    ∃ acc' g2,
      para_cada rows
        (λ '(u, fila) acc,
           para_cada (map_to_list fila)
             (λ '(v, c) acc,
                let* rf := flu_fila u in
                ret (<[(u, v) := Z.max 0 (Z.min c (default 0 (rf !! v)))]> acc))
             acc)
        acc g1 = Ok acc' g2 ∧
      mismo_obs g g2 ∧
      ∀ a b, acc' !! (a, b)
             = match (list_to_map rows : gmap Z (gmap Z Z)) !! a ≫= (.!! b) with
               | Some c => Some (Z.max 0 (Z.min c (flw g a b)))
               | None => acc !! (a, b)
               end.
Proof.
  induction rows as [|[u fila] rows IH]; intros acc g1 Hobs Hnd.
  - exists acc, g1. by split.
  - simpl in Hnd. apply NoDup_cons in Hnd as [Hu Hnd].
    simpl. unfold bind at 1.
    destruct (desglose_fila g u (map_to_list fila) acc g1)
      as (acc1 & g2 & -> & Hobs2 & Hacc1);
      [done|apply NoDup_fst_map_to_list|].
    destruct (IH acc1 g2) as (acc' & g3 & -> & Hobs3 & Hacc); [done..|].
    exists acc', g3. split; [done|]. split; [done|].
    intros a b. rewrite Hacc, Hacc1. rewrite list_to_map_to_list.
    destruct (decide (a = u)) as [->|Ha].
    + rewrite lookup_insert_eq.
      rewrite (not_elem_of_list_to_map_1 _ u) by done. simpl.
      done.
    + by rewrite lookup_insert_ne.
Qed.

Lemma desglose_ok g :
  ∃ m g', desglose g = Ok m g' ∧ mismo_obs g g' ∧
    ∀ u v, m !! (u, v)
           = (λ c, Z.max 0 (Z.min c (flw g u v))) <$> entrada (capacidad g) u v.
Proof.
  unfold desglose. unfold bind at 1. unfold estado.
  destruct (desglose_filas g (map_to_list (capacidad g)) ∅ g)
    as (m & g' & -> & Hobs & Hm);
    [apply mismo_obs_refl|apply NoDup_fst_map_to_list|].
  exists m, g'. split; [done|]. split; [done|].
  intros u v. rewrite Hm, list_to_map_to_list. unfold entrada.
  by destruct (capacidad g !! u ≫= (.!! v)).
Qed.

(* ===================================================================== *)
(** ** A solver run with enough fuel                                      *)
(* ===================================================================== *)

Lemma solver_ok (ronda : M (option num)) n g s t :
  bien_formado g → s ≠ t →
  (∀ g1, misma_red g g1 → en_rango (cap g1) (flw g1) →
         ∃ r g', ronda g1 = Ok r g' ∧ ronda_post g1 s t r g') →
  (Z.to_nat (suma (nodos_l g) (cap g s)) < n)%nat →
  ∃ r g',
    (reiniciar_flujos ;;;
     let* flujo_maximo := bucle n ronda (Fin 0) in
     let* flujo_aristas := desglose in
     ret (flujo_maximo, flujo_aristas)) g = Ok r g' ∧
    solver_post g s t r g'.
Proof.
  intros Hbf Hst Hronda Hn. unfold bind at 1.
  destruct (reiniciar_flujos_ok g s t (bf_pos g Hbf))
    as (g1 & -> & Hred1 & _ & Hval1 & Hv1).
  unfold bind at 1. rewrite <- Hv1.
  destruct (bucle_ok ronda g s t Hbf Hst Hronda n g1 Hred1 Hval1)
    as (g2 & -> & Hred2 & Hval2 & X & HX); [rewrite Hv1; lia|].
  unfold bind at 1.
  destruct (desglose_ok g2) as (m & g3 & -> & Hobs3 & Hm).
  exists (Fin (valor g2 s), m), g3. split; [done|].
  exists (valor g2 s). split; [done|]. split_and!.
  - eapply misma_red_trans; [done|by apply mismo_obs_misma_red].
  - by eapply mismo_obs_flujo_valido.
  - by rewrite (mismo_obs_valor g2 g3).
  - exists X. by eapply mismo_obs_corte.
  - intros u v. simpl. rewrite Hm.
    pose proof Hobs3 as (Hc3 & _). rewrite Hc3.
    f_equal. by rewrite (mismo_obs_flw g2 g3).
Qed.

Section Suficiente.

Variable orden : Z → gset Z → list Z.
Hypothesis orden_perm : ∀ u X, orden u X ≡ₚ elements X.

Lemma ford_fulkerson_dfs_ok n g s t :
  bien_formado g → s ∈ _nodos g → t ∈ _nodos g → s ≠ t →
  (cota g s ≤ n)%nat →
  ∃ r g', ford_fulkerson_dfs orden n s t g = Ok r g' ∧ solver_post g s t r g'.
Proof.
  intros Hbf Hs Ht Hst Hn. unfold cota in Hn.
  unfold ford_fulkerson_dfs. unfold bind at 1. unfold estado.
  rewrite decide_True by done.
  apply solver_ok; [done..| |lia].
  intros g1 Hred Hr.
  apply ronda_dfs_ok; try done.
  - by eapply bien_formado_misma_red.
  - by rewrite (misma_red_nodos g g1).
  - by rewrite (misma_red_nodos g g1).
  - rewrite (misma_red_nodos g g1) by done. lia.
Qed.

Lemma edmonds_karp_bfs_ok n g s t :
  bien_formado g → s ∈ _nodos g → t ∈ _nodos g → s ≠ t →
  (cota g s ≤ n)%nat →
  ∃ r g', edmonds_karp_bfs orden n s t g = Ok r g' ∧ solver_post g s t r g'.
Proof.
  intros Hbf Hs Ht Hst Hn. unfold cota in Hn.
  unfold edmonds_karp_bfs. unfold bind at 1. unfold estado.
  rewrite decide_True by done.
  apply solver_ok; [done..| |lia].
  intros g1 Hred Hr.
  apply ronda_bfs_ok; try done.
  - by eapply bien_formado_misma_red.
  - by rewrite (misma_red_nodos g g1).
  - by rewrite (misma_red_nodos g g1).
  - rewrite (misma_red_nodos g g1) by done. lia.
Qed.

End Suficiente.

(* ===================================================================== *)
(** ** A run that returns is the same with more fuel                      *)
(* ===================================================================== *)

Lemma refina_refl {A} (c : M A) : refina c c.
Proof. intros g. by right. Qed.

Lemma refina_agotado {A} (c : M A) : refina agotado c.
Proof. intros g. by left. Qed.

Lemma refina_bind {A B} (c c' : M A) (k k' : A → M B) :
  refina c c' → (∀ a, refina (k a) (k' a)) → refina (bind c k) (bind c' k').
Proof.
  intros Hc Hk g. unfold bind. destruct (Hc g) as [->|<-]; [by left|].
  destruct (c g) as [a g1| |]; [apply Hk|by right..].
Qed.

Lemma refina_Ok {A} (c c' : M A) g a g' :
  refina c c' → c g = Ok a g' → c' g = Ok a g'.
Proof. intros H E. destruct (H g) as [E'|<-]; [congruence|done]. Qed.

Ltac refina_paso :=
  first
    [ apply refina_refl
    | apply refina_agotado
    | apply refina_bind; [|intros ?]
    | match goal with
      | |- refina (if ?b then _ else _) _ => destruct b
      | |- refina (match ?x with _ => _ end) _ => destruct x
      | |- refina (let '_ := ?x in _) _ => destruct x
      end ].

Section Combustible.

Variable orden : Z → gset Z → list Z.

Lemma dfs_intento_refina rec rec' res d actual y V P :
  (∀ y V P, refina (rec y V P) (rec' y V P)) →
  refina (dfs_intento rec res d actual y V P)
         (dfs_intento rec' res d actual y V P).
Proof. intros Hrec. unfold dfs_intento. repeat refina_paso. apply Hrec. Qed.

Lemma dfs_vecinos_refina rec rec' actual l :
  (∀ y V P, refina (rec y V P) (rec' y V P)) →
  ∀ V P, refina (dfs_vecinos rec actual l V P) (dfs_vecinos rec' actual l V P).
Proof.
  intros Hrec.
  induction l as [|y l IH]; intros V P; simpl; [apply refina_refl|].
  apply refina_bind; [by apply dfs_intento_refina|]. intros [[b V1] P1].
  destruct b; [apply refina_refl|].
  apply refina_bind; [by apply dfs_intento_refina|]. intros [[b V2] P2].
  destruct b; [apply refina_refl|]. apply IH.
Qed.

Lemma dfs_aumento_mono n n' t :
  (n ≤ n')%nat →
  ∀ actual V P, refina (_dfs_aumento orden n t actual V P)
                       (_dfs_aumento orden n' t actual V P).
Proof.
  revert n'. induction n as [|n IH]; intros n' Hn actual V P;
    [apply refina_agotado|].
  destruct n' as [|n']; [lia|]. simpl.
  case_decide; [apply refina_refl|].
  apply refina_bind; [apply refina_refl|]. intros vs.
  apply dfs_vecinos_refina. intros y V1 P1. apply IH. lia.
Qed.

Lemma bfs_bucle_mono n n' t :
  (n ≤ n')%nat →
  ∀ padre q,
    refina (bfs_bucle orden n t padre q) (bfs_bucle orden n' t padre q).
Proof.
  revert n'. induction n as [|n IH]; intros n' Hn padre q.
  - destruct q; simpl; [|apply refina_agotado].
    destruct n'; apply refina_refl.
  - destruct n' as [|n']; [lia|]. destruct q as [|u q]; [apply refina_refl|].
    simpl. case_decide; [apply refina_refl|].
    apply refina_bind; [apply refina_refl|]. intros vs.
    apply refina_bind; [apply refina_refl|]. intros [[b p] q'].
    destruct b; [apply refina_refl|]. apply IH. lia.
Qed.

Lemma cuello_mono n n' pd s :
  (n ≤ n')%nat → ∀ v b, refina (cuello n pd s v b) (cuello n' pd s v b).
Proof.
  revert n'. induction n as [|n IH]; intros n' Hn v b.
  - simpl. case_decide; [|apply refina_agotado].
    destruct n'; simpl; rewrite decide_True by done; apply refina_refl.
  - destruct n' as [|n']; [lia|]. simpl.
    case_decide; [apply refina_refl|].
    apply refina_bind; [apply refina_refl|]. intros [u d].
    apply refina_bind; [apply refina_refl|]. intros r. apply IH. lia.
Qed.

Lemma empujar_mono n n' pd s :
  (n ≤ n')%nat → ∀ v b, refina (empujar n pd s v b) (empujar n' pd s v b).
Proof.
  revert n'. induction n as [|n IH]; intros n' Hn v b.
  - simpl. case_decide; [|apply refina_agotado].
    destruct n'; simpl; rewrite decide_True by done; apply refina_refl.
  - destruct n' as [|n']; [lia|]. simpl.
    case_decide; [apply refina_refl|].
    apply refina_bind; [apply refina_refl|]. intros u. apply IH. lia.
Qed.

Lemma aumentar_mono n n' pd s t :
  (n ≤ n')%nat → refina (aumentar n pd s t) (aumentar n' pd s t).
Proof.
  intros Hn. unfold aumentar.
  apply refina_bind; [by apply cuello_mono|]. intros [z|]; [|apply refina_refl].
  apply refina_bind; [by apply empujar_mono|]. intros _. apply refina_refl.
Qed.

Lemma ronda_dfs_mono n n' s t :
  (n ≤ n')%nat → refina (ronda_dfs orden n s t) (ronda_dfs orden n' s t).
Proof.
  intros Hn. unfold ronda_dfs.
  apply refina_bind; [by apply dfs_aumento_mono|]. intros [[b V] P].
  destruct b; [|apply refina_refl].
  apply refina_bind; [by apply aumentar_mono|]. intros b. apply refina_refl.
Qed.

Lemma ronda_bfs_mono n n' s t :
  (n ≤ n')%nat → refina (ronda_bfs orden n s t) (ronda_bfs orden n' s t).
Proof.
  intros Hn. unfold ronda_bfs, _bfs_aumento.
  apply refina_bind.
  { apply refina_bind; [apply refina_refl|]. intros g.
    by apply bfs_bucle_mono. }
  intros [b op]. destruct b; [|apply refina_refl].
  apply refina_bind; [by apply aumentar_mono|]. intros b. apply refina_refl.
Qed.

Lemma bucle_mono k k' ronda ronda' :
  (k ≤ k')%nat → refina ronda ronda' →
  ∀ fm, refina (bucle k ronda fm) (bucle k' ronda' fm).
Proof.
  intros Hk Hr. revert k' Hk. induction k as [|k IH]; intros k' Hk fm;
    [apply refina_agotado|].
  destruct k' as [|k']; [lia|]. simpl.
  apply refina_bind; [done|]. intros [b|]; [|apply refina_refl].
  apply IH. lia.
Qed.

Lemma ford_fulkerson_dfs_mono n n' s t :
  (n ≤ n')%nat →
  refina (ford_fulkerson_dfs orden n s t) (ford_fulkerson_dfs orden n' s t).
Proof.
  intros Hn. unfold ford_fulkerson_dfs.
  apply refina_bind; [apply refina_refl|]. intros g.
  case_decide; [|apply refina_refl].
  apply refina_bind; [apply refina_refl|]. intros _.
  apply refina_bind; [|intros fm; apply refina_refl].
  apply bucle_mono; [done|]. by apply ronda_dfs_mono.
Qed.

Lemma edmonds_karp_bfs_mono n n' s t :
  (n ≤ n')%nat →
  refina (edmonds_karp_bfs orden n s t) (edmonds_karp_bfs orden n' s t).
Proof.
  intros Hn. unfold edmonds_karp_bfs.
  apply refina_bind; [apply refina_refl|]. intros g.
  case_decide; [|apply refina_refl].
  apply refina_bind; [apply refina_refl|]. intros _.
  apply refina_bind; [|intros fm; apply refina_refl].
  apply bucle_mono; [done|]. by apply ronda_bfs_mono.
Qed.

End Combustible.

(* ===================================================================== *)
(** ** Every run that returns                                             *)
(* ===================================================================== *)

Section Corridas.

Variable orden : Z → gset Z → list Z.
Hypothesis orden_perm : ∀ u X, orden u X ≡ₚ elements X.

Lemma ford_fulkerson_dfs_post n g s t r g' :
  bien_formado g → ford_fulkerson_dfs orden n s t g = Ok r g' →
  s ∈ _nodos g ∧ t ∈ _nodos g ∧ s ≠ t ∧ solver_post g s t r g'.
Proof.
  intros Hbf Hrun.
  destruct (decide (s ∈ _nodos g ∧ t ∈ _nodos g)) as [[Hs Ht]|Hno]; cycle 1.
  { destruct (solver_ajenos orden n g s t Hno) as [E _]. congruence. }
  destruct (decide (s = t)) as [->|Hst].
  { destruct (solver_fuente_agotado orden n g t Hs) as [E _]. congruence. }
  split_and!; [done..|].
  destruct (ford_fulkerson_dfs_ok orden orden_perm (n `max` cota g s) g s t)
    as (r2 & g2 & Hrun2 & Hpost); [done..|lia|].
  rewrite (refina_Ok _ _ g r g'
             (ford_fulkerson_dfs_mono orden n (n `max` cota g s) s t
                (Nat.le_max_l _ _)) Hrun) in Hrun2.
  by simplify_eq.
Qed.

Lemma edmonds_karp_bfs_post n g s t r g' :
  bien_formado g → edmonds_karp_bfs orden n s t g = Ok r g' →
  s ∈ _nodos g ∧ t ∈ _nodos g ∧ s ≠ t ∧ solver_post g s t r g'.
Proof.
  intros Hbf Hrun.
  destruct (decide (s ∈ _nodos g ∧ t ∈ _nodos g)) as [[Hs Ht]|Hno]; cycle 1.
  { destruct (solver_ajenos orden n g s t Hno) as [_ E]. congruence. }
  destruct (decide (s = t)) as [->|Hst].
  { destruct (solver_fuente_agotado orden n g t Hs) as [_ E]. congruence. }
  split_and!; [done..|].
  destruct (edmonds_karp_bfs_ok orden orden_perm (n `max` cota g s) g s t)
    as (r2 & g2 & Hrun2 & Hpost); [done..|lia|].
  rewrite (refina_Ok _ _ g r g'
             (edmonds_karp_bfs_mono orden n (n `max` cota g s) s t
                (Nat.le_max_l _ _)) Hrun) in Hrun2.
  by simplify_eq.
Qed.

End Corridas.

(* ===================================================================== *)
(** ** The returned map and the stored flow                               *)
(* ===================================================================== *)

Lemma cap_entrada g u v c : entrada (capacidad g) u v = Some c → cap g u v = c.
Proof. intros H. unfold cap. by rewrite H. Qed.

Lemma cap_sin_entrada g u v : entrada (capacidad g) u v = None → cap g u v = 0.
Proof. intros H. unfold cap. by rewrite H. Qed.

(** With the stored flow in range, the clamp changes nothing, and a pair
    without a capacity entry carries no flow. *)
Lemma mapa_es_flujo (g : MaximoFLujo) (m : gmap (Z * Z) Z) :
  en_rango (cap g) (flw g) →
  (∀ u v, m !! (u, v)
          = (λ c, Z.max 0 (Z.min c (flw g u v))) <$> entrada (capacidad g) u v) →
  (∀ u v c, entrada (capacidad g) u v = Some c → m !! (u, v) = Some (flw g u v)) ∧
  (∀ u v, default 0 (m !! (u, v)) = flw g u v).
Proof.
  intros Hr Hm.
  assert (H1 : ∀ u v c, entrada (capacidad g) u v = Some c →
                        m !! (u, v) = Some (flw g u v)).
  { intros u v c Hc. rewrite Hm, Hc. simpl. f_equal.
    pose proof (Hr u v) as Huv. rewrite (cap_entrada g u v c Hc) in Huv. lia. }
  split; [done|]. intros u v.
  destruct (entrada (capacidad g) u v) as [c|] eqn:Hc.
  - by rewrite (H1 u v c Hc).
  - rewrite Hm, Hc. simpl. pose proof (Hr u v) as Huv.
    rewrite (cap_sin_entrada g u v Hc) in Huv. lia.
Qed.

Lemma sale_suma (N : list Z) (w : Z) :
  NoDup N →
  ∀ m : gmap (Z * Z) Z,
    (∀ a b x, m !! (a, b) = Some x → b ∈ N) →
    sale m w = suma N (λ y, default 0 (m !! (w, y))).
Proof.
  intros Hnd m. unfold sale.
  induction m as [|[a b] x m Hnone Hfold IH] using map_first_key_ind; intros HN.
  - rewrite map_fold_empty.
    rewrite (suma_ext N _ (λ _, 0)) by (intros; by rewrite lookup_empty).
    by rewrite suma_cero.
  - rewrite map_fold_insert_first_key by done. rewrite IH; cycle 1.
    { intros a' b' x' H'. apply (HN a' b' x').
      rewrite lookup_insert_ne; [done|]. intros [= -> ->]. congruence. }
    assert (Hb : b ∈ N) by (apply (HN a b x); apply lookup_insert_eq).
    rewrite (suma_ext N (λ y, default 0 (<[(a, b) := x]> m !! (w, y)))
               (λ y, default 0 (m !! (w, y))
                     + (if decide (w = a)
                        then (if decide (y = b) then x else 0) else 0))).
    2:{ intros y _. destruct (decide (w = a)) as [->|Hw].
        - destruct (decide (y = b)) as [->|Hy].
          + rewrite lookup_insert_eq, Hnone. simpl. lia.
          + rewrite lookup_insert_ne by congruence. lia.
        - rewrite lookup_insert_ne by congruence. lia. }
    rewrite suma_mas. simpl. destruct (decide (w = a)) as [->|Hw].
    + rewrite decide_True by done.
      rewrite suma_delta, decide_True by done. lia.
    + rewrite decide_False by done. rewrite suma_cero. lia.
Qed.

Lemma entra_suma (N : list Z) (w : Z) :
  NoDup N →
  ∀ m : gmap (Z * Z) Z,
    (∀ a b x, m !! (a, b) = Some x → a ∈ N) →
    entra m w = suma N (λ y, default 0 (m !! (y, w))).
Proof.
  intros Hnd m. unfold entra.
  induction m as [|[a b] x m Hnone Hfold IH] using map_first_key_ind; intros HN.
  - rewrite map_fold_empty.
    rewrite (suma_ext N _ (λ _, 0)) by (intros; by rewrite lookup_empty).
    by rewrite suma_cero.
  - rewrite map_fold_insert_first_key by done. rewrite IH; cycle 1.
    { intros a' b' x' H'. apply (HN a' b' x').
      rewrite lookup_insert_ne; [done|]. intros [= -> ->]. congruence. }
    assert (Ha : a ∈ N) by (apply (HN a b x); apply lookup_insert_eq).
    rewrite (suma_ext N (λ y, default 0 (<[(a, b) := x]> m !! (y, w)))
               (λ y, default 0 (m !! (y, w))
                     + (if decide (w = b)
                        then (if decide (y = a) then x else 0) else 0))).
    2:{ intros y _. destruct (decide (w = b)) as [->|Hw].
        - destruct (decide (y = a)) as [->|Hy].
          + rewrite lookup_insert_eq, Hnone. simpl. lia.
          + rewrite lookup_insert_ne by congruence. lia.
        - rewrite lookup_insert_ne by congruence. lia. }
    rewrite suma_mas. simpl. destruct (decide (w = b)) as [->|Hw].
    + rewrite decide_True by done.
      rewrite suma_delta, decide_True by done. lia.
    + rewrite decide_False by done. rewrite suma_cero. lia.
Qed.

(* ===================================================================== *)
(** ** Properties of the returned map                                     *)
(* ===================================================================== *)

Lemma solver_post_conserva g s t r g' :
  bien_formado g → solver_post g s t r g' →
  ∀ w, w ≠ s → w ≠ t → sale r.2 w = entra r.2 w.
Proof.
  intros Hbf (T & _ & Hred & [Hr Hc] & _ & _ & Hm) w Hws Hwt.
  pose proof (bien_formado_misma_red g g' Hred Hbf) as Hbf'.
  destruct (mapa_es_flujo g' r.2 Hr Hm) as [_ Hdef].
  assert (Hkeys : ∀ a b x, r.2 !! (a, b) = Some x →
                           a ∈ nodos_l g' ∧ b ∈ nodos_l g').
  { intros a b x Hx. rewrite Hm in Hx.
    destruct (entrada (capacidad g') a b) as [c|] eqn:Hcab; [|done].
    rewrite !elem_of_nodos_l. by eapply bien_formado_extremos. }
  rewrite (sale_suma (nodos_l g') w (NoDup_nodos_l g')), 
    (entra_suma (nodos_l g') w (NoDup_nodos_l g')).
  2:{ intros a b x Hx. by destruct (Hkeys a b x Hx). }
  2:{ intros a b x Hx. by destruct (Hkeys a b x Hx). }
  specialize (Hc w Hws Hwt). unfold neto in Hc.
  rewrite (suma_ext _ (λ y, default 0 (r.2 !! (w, y))) (λ y, flw g' w y))
    by (intros; apply Hdef).
  rewrite (suma_ext _ (λ y, default 0 (r.2 !! (y, w))) (λ y, flw g' y w))
    by (intros; apply Hdef).
  lia.
Qed.

Lemma solver_post_completo g s t r g' :
  bien_formado g → solver_post g s t r g' →
  (∀ u v, is_Some (r.2 !! (u, v))
          ↔ ∃ c, entrada (capacidad g) u v = Some c ∧ 0 < c) ∧
  (∀ u v x, r.2 !! (u, v) = Some x → 0 <= x <= cap g u v).
Proof.
  intros Hbf (T & _ & Hred & _ & _ & _ & Hm).
  pose proof Hred as (Hcap & _). split.
  - intros u v. rewrite Hm, Hcap, fmap_is_Some. split.
    + intros [c Hc]. exists c. split; [done|]. by apply (bf_pos g Hbf) in Hc.
    + intros (c & Hc & _). by exists c.
  - intros u v x. rewrite Hm, Hcap.
    destruct (entrada (capacidad g) u v) as [c|] eqn:Hc; [|done].
    intros [= <-]. rewrite (cap_entrada g u v c Hc).
    apply (bf_pos g Hbf) in Hc. lia.
Qed.

Section Mapa.

Variable orden : Z → gset Z → list Z.
Hypothesis orden_perm : ∀ u X, orden u X ≡ₚ elements X.

(** C5. The map returned by either solver satisfies flow conservation: at
    every node other than the source and the sink, the values over the
    edges that leave the node add up to the values over the edges that
    enter it. *)
Theorem desglose_conserva (n : nat) (g : MaximoFLujo) (s t : Z)
    (total : num) (m : gmap (Z * Z) Z) (g' : MaximoFLujo) :
  bien_formado g →
  ford_fulkerson_dfs orden n s t g = Ok (total, m) g' ∨
  edmonds_karp_bfs orden n s t g = Ok (total, m) g' →
  ∀ w, w ≠ s → w ≠ t → sale m w = entra m w.
Proof.
  intros Hbf [Hrun|Hrun].
  - destruct (ford_fulkerson_dfs_post orden orden_perm n g s t _ g' Hbf Hrun)
      as (_ & _ & _ & Hpost).
    apply (solver_post_conserva g s t (total, m) g' Hbf Hpost).
  - destruct (edmonds_karp_bfs_post orden orden_perm n g s t _ g' Hbf Hrun)
      as (_ & _ & _ & Hpost).
    apply (solver_post_conserva g s t (total, m) g' Hbf Hpost).
Qed.

(** C6. The map returned by either solver has an entry for a pair exactly
    when a positive capacity is stored for it, and every value is between
    zero and that capacity. *)
Theorem desglose_completo_acotado (n : nat) (g : MaximoFLujo) (s t : Z)
    (total : num) (m : gmap (Z * Z) Z) (g' : MaximoFLujo) :
  bien_formado g →
  ford_fulkerson_dfs orden n s t g = Ok (total, m) g' ∨
  edmonds_karp_bfs orden n s t g = Ok (total, m) g' →
  (∀ u v, is_Some (m !! (u, v))
          ↔ ∃ c, entrada (capacidad g) u v = Some c ∧ 0 < c) ∧
  (∀ u v x, m !! (u, v) = Some x → 0 <= x <= cap g u v).
Proof.
  intros Hbf [Hrun|Hrun].
  - destruct (ford_fulkerson_dfs_post orden orden_perm n g s t _ g' Hbf Hrun)
      as (_ & _ & _ & Hpost).
    apply (solver_post_completo g s t (total, m) g' Hbf Hpost).
  - destruct (edmonds_karp_bfs_post orden orden_perm n g s t _ g' Hbf Hrun)
      as (_ & _ & _ & Hpost).
    apply (solver_post_completo g s t (total, m) g' Hbf Hpost).
Qed.

End Mapa.

(* ===================================================================== *)
(** ** The stored flow stays in range                                     *)
(* ===================================================================== *)

Lemma empujar_hasta_ok pd P s b :
  consulta pd P →
  ∀ j v l g, cadena P s v l →
    ∃ g', empujar_hasta j pd s v b g = Ok tt g' ∧ misma_red g g' ∧
          ∀ x y, flw g' x y = empuje (take j l) b (flw g) x y.
Proof.
  intros Hpd. induction j as [|j IH]; intros v l g Hc.
  - exists g. split; [done|]. split; [apply misma_red_refl|]. by rewrite take_0.
  - destruct Hc as [|v u d l Hne HP Hc]; simpl.
    + rewrite decide_True by done. exists g. split; [done|].
      split; [apply misma_red_refl|done].
    + rewrite decide_False by done. unfold bind.
      destruct (paso_empuje_ok pd P v u d b g Hpd HP)
        as (g1 & -> & Hred1 & Hf1).
      destruct (IH u l g1 Hc) as (g2 & -> & Hred2 & Hf2).
      exists g2. split; [done|]. split; [by eapply misma_red_trans|].
      intros x y. rewrite Hf2. by apply empuje_ext.
Qed.

Lemma enlazado_take v l j : enlazado v l → enlazado v (take j l).
Proof.
  intros Hl. revert j. induction Hl as [|v u d l Hl IH]; intros [|j]; simpl;
    try constructor. apply IH.
Qed.

Lemma nodos_de_take v l j : nodos_de v (take j l) = take (S j) (nodos_de v l).
Proof. unfold nodos_de. simpl. by rewrite fmap_take. Qed.

Lemma mismo_obs_en_rango g g' :
  mismo_obs g g' → en_rango (cap g) (flw g) → en_rango (cap g') (flw g').
Proof.
  intros H. apply en_rango_ext; intros x y;
    [by apply mismo_obs_cap|by apply mismo_obs_flw].
Qed.

Lemma aumentar_hasta_rango g s t j n pd P l g1 g2 :
  en_rango (cap g) (flw g) →
  consulta pd P → aumentante g P s t l → mismo_obs g g1 →
  aumentar_hasta j n pd s t g1 = Ok tt g2 →
  misma_red g g2 ∧ en_rango (cap g2) (flw g2).
Proof.
  intros Hr Hpd (Hc & Hpos & Hnd) Hobs Hrun.
  unfold aumentar_hasta, bind in Hrun.
  destruct (cuello n pd s t Inf g1) as [b g1'| |] eqn:Ec; [|done..].
  destruct (cuello_ok g pd P s l Hpd (n `max` length l) t Inf g1 Hc)
    as (g1'' & Ec' & Hobs1); [lia|done|].
  rewrite (refina_Ok _ _ g1 b g1'
             (cuello_mono n (n `max` length l) pd s (Nat.le_max_l _ _) t Inf) Ec)
    in Ec'.
  injection Ec' as -> <-.
  destruct l as [|p l].
  - simpl in Hrun. injection Hrun as <-.
    split; [by apply mismo_obs_misma_red|by eapply mismo_obs_en_rango].
  - destruct (botella_de_Inf g p l) as (z & Hz & Hle & Hzpos).
    rewrite Hz in Hrun. specialize (Hzpos Hpos).
    destruct (empujar_hasta_ok pd P s z Hpd j t (p :: l) g1' Hc)
      as (g3 & Hrun' & Hred & Hf).
    rewrite Hrun in Hrun'. injection Hrun' as <-.
    split; [eapply misma_red_trans; [by apply mismo_obs_misma_red|done]|].
    apply (en_rango_ext (cap g) _ (empuje (take j (p :: l)) z (flw g))).
    { intros x y. rewrite (misma_red_cap g1' g2) by done.
      by apply mismo_obs_cap. }
    { intros x y. rewrite Hf. apply empuje_ext. intros a b.
      by apply mismo_obs_flw. }
    eapply empuje_en_rango; [lia| | |done|].
    + apply enlazado_take. by eapply cadena_enlazado.
    + rewrite nodos_de_take.
      apply (sublist_NoDup _ (nodos_de t (p :: l))); [done|apply sublist_take].
    + apply Forall_take. eapply Forall_impl; [exact Hle|].
      intros [[u v] d] Hp. done.
Qed.

Lemma rondas_inv (ronda : M (option num)) (I : MaximoFLujo → Prop) :
  (∀ g r g', I g → ronda g = Ok r g' → I g') →
  ∀ i g b g', I g → rondas i ronda g = Ok b g' → I g'.
Proof.
  intros Hronda. induction i as [|i IH]; intros g b g' Hg Hrun; simpl in Hrun.
  - by injection Hrun as _ <-.
  - unfold bind in Hrun. destruct (ronda g) as [r g1| |] eqn:Er; [|done..].
    pose proof (Hronda g r g1 Hg Er) as Hg1.
    destruct r as [x|]; [by eapply IH|]. by injection Hrun as _ <-.
Qed.

Lemma ronda_post_inv g0 g s t r g' :
  misma_red g0 g → en_rango (cap g) (flw g) → ronda_post g s t r g' →
  misma_red g0 g' ∧ en_rango (cap g') (flw g').
Proof.
  intros Hred Hr Hpost. destruct r as [b|]; simpl in Hpost.
  - destruct Hpost as (z & _ & _ & Hred' & Hr' & _).
    split; [by eapply misma_red_trans|done].
  - destruct Hpost as (Hobs & _).
    split; [eapply misma_red_trans; [done|by apply mismo_obs_misma_red]|].
    by eapply mismo_obs_en_rango.
Qed.

Section Siempre.

Variable orden : Z → gset Z → list Z.
Hypothesis orden_perm : ∀ u X, orden u X ≡ₚ elements X.

Lemma ronda_dfs_parcial n g s t r g' :
  bien_formado g → s ∈ _nodos g → t ∈ _nodos g → s ≠ t →
  en_rango (cap g) (flw g) →
  ronda_dfs orden n s t g = Ok r g' → ronda_post g s t r g'.
Proof.
  intros Hbf Hs Ht Hst Hr Hrun.
  destruct (ronda_dfs_ok g s t Hbf Hs Ht Hst Hr orden
              (n `max` S (size (_nodos g))) g orden_perm (mismo_obs_refl g))
    as (r2 & g2 & Hrun2 & Hpost); [lia|].
  rewrite (refina_Ok _ _ g r g'
             (ronda_dfs_mono orden n _ s t (Nat.le_max_l _ _)) Hrun) in Hrun2.
  by simplify_eq.
Qed.

Lemma ronda_bfs_parcial n g s t r g' :
  bien_formado g → s ∈ _nodos g → t ∈ _nodos g → s ≠ t →
  en_rango (cap g) (flw g) →
  ronda_bfs orden n s t g = Ok r g' → ronda_post g s t r g'.
Proof.
  intros Hbf Hs Ht Hst Hr Hrun.
  destruct (ronda_bfs_ok g s t Hbf Hs Ht Hst Hr orden
              (n `max` S (size (_nodos g))) g orden_perm (mismo_obs_refl g))
    as (r2 & g2 & Hrun2 & Hpost); [lia|].
  rewrite (refina_Ok _ _ g r g'
             (ronda_bfs_mono orden n _ s t (Nat.le_max_l _ _)) Hrun) in Hrun2.
  by simplify_eq.
Qed.

Lemma ronda_dfs_fuente_estado n s g r g' :
  ronda_dfs orden n s s g = Ok r g' → g' = g.
Proof.
  destruct n as [|n]; [done|]. rewrite ronda_dfs_fuente. by intros [= _ <-].
Qed.

Lemma ronda_bfs_fuente_estado n s g r g' :
  ronda_bfs orden n s s g = Ok r g' → g' = g.
Proof.
  destruct n as [|n]; [done|]. rewrite ronda_bfs_fuente. by intros [= _ <-].
Qed.

Lemma dfs_hasta_rango i j n g s t g' :
  bien_formado g → dfs_hasta orden i j n s t g = Ok tt g' →
  misma_red g g' ∧ en_rango (cap g') (flw g').
Proof.
  intros Hbf Hrun. unfold dfs_hasta in Hrun. unfold bind at 1 in Hrun.
  unfold estado in Hrun.
  destruct (decide (s ∈ _nodos g ∧ t ∈ _nodos g)) as [[Hs Ht]|]; [|done].
  unfold bind at 1 in Hrun.
  destruct (reiniciar_flujos_ok g s t (bf_pos g Hbf))
    as (g1 & E1 & Hred1 & _ & [Hr1 _] & _).
  rewrite E1 in Hrun. unfold bind at 1 in Hrun.
  destruct (rondas i (ronda_dfs orden n s t) g1) as [sigue g2| |] eqn:Er;
    [|done..].
  assert (Hinv2 : misma_red g g2 ∧ en_rango (cap g2) (flw g2)).
  { eapply (rondas_inv _ (λ g', misma_red g g' ∧ en_rango (cap g') (flw g')));
      [|split; [exact Hred1|exact Hr1]|exact Er].
    intros ga r gb [Hreda Hra] Hronda.
    destruct (decide (s = t)) as [->|Hst].
    - by rewrite (ronda_dfs_fuente_estado n t ga r gb Hronda).
    - eapply ronda_post_inv; [done..|].
      apply (ronda_dfs_parcial n); try done.
      + by eapply bien_formado_misma_red.
      + by rewrite (misma_red_nodos g ga).
      + by rewrite (misma_red_nodos g ga). }
  destruct Hinv2 as [Hred2 Hr2].
  destruct sigue; [|by injection Hrun as <-].
  unfold bind at 1 in Hrun.
  destruct (decide (s = t)) as [->|Hst].
  { destruct n as [|n]; [done|]. rewrite dfs_aumento_S in Hrun.
    rewrite decide_True in Hrun by done. simpl in Hrun.
    unfold aumentar_hasta, bind in Hrun. rewrite cuello_fuente in Hrun.
    by injection Hrun as <-. }
  pose proof (bien_formado_misma_red g g2 Hred2 Hbf) as Hbf2.
  assert (Hs2 : s ∈ _nodos g2) by by rewrite (misma_red_nodos g g2).
  assert (Ht2 : t ∈ _nodos g2) by by rewrite (misma_red_nodos g g2).
  destruct (_dfs_aumento orden n t s ∅ ∅ g2) as [[[b V] P] g3| |] eqn:Ed;
    [|done..].
  destruct (dfs_inicio_ok g2 s t Hbf2 Hs2 Ht2 Hst Hr2 orden
              (n `max` S (size (_nodos g2))) g2 orden_perm (mismo_obs_refl g2))
    as (b' & V' & P' & g3' & Ed' & Hobs3 & Hb); [lia|].
  rewrite (refina_Ok _ _ g2 _ g3
             (dfs_aumento_mono orden n _ t (Nat.le_max_l _ _) s ∅ ∅) Ed) in Ed'.
  injection Ed' as <- <- <- <-.
  destruct b.
  - destruct Hb as (l & Hl).
    destruct (aumentar_hasta_rango g2 s t j n (padre_dfs P) (P !!.) l g3 g'
                Hr2 (consulta_dfs P) Hl Hobs3 Hrun) as [Hred' Hr'].
    split; [by eapply misma_red_trans|done].
  - injection Hrun as <-.
    split; [eapply misma_red_trans; [done|by apply mismo_obs_misma_red]|].
    by eapply mismo_obs_en_rango.
Qed.

Lemma bfs_hasta_rango i j n g s t g' :
  bien_formado g → bfs_hasta orden i j n s t g = Ok tt g' →
  misma_red g g' ∧ en_rango (cap g') (flw g').
Proof.
  intros Hbf Hrun. unfold bfs_hasta in Hrun. unfold bind at 1 in Hrun.
  unfold estado in Hrun.
  destruct (decide (s ∈ _nodos g ∧ t ∈ _nodos g)) as [[Hs Ht]|]; [|done].
  unfold bind at 1 in Hrun.
  destruct (reiniciar_flujos_ok g s t (bf_pos g Hbf))
    as (g1 & E1 & Hred1 & _ & [Hr1 _] & _).
  rewrite E1 in Hrun. unfold bind at 1 in Hrun.
  destruct (rondas i (ronda_bfs orden n s t) g1) as [sigue g2| |] eqn:Er;
    [|done..].
  assert (Hinv2 : misma_red g g2 ∧ en_rango (cap g2) (flw g2)).
  { eapply (rondas_inv _ (λ g', misma_red g g' ∧ en_rango (cap g') (flw g')));
      [|split; [exact Hred1|exact Hr1]|exact Er].
    intros ga r gb [Hreda Hra] Hronda.
    destruct (decide (s = t)) as [->|Hst].
    - by rewrite (ronda_bfs_fuente_estado n t ga r gb Hronda).
    - eapply ronda_post_inv; [done..|].
      apply (ronda_bfs_parcial n); try done.
      + by eapply bien_formado_misma_red.
      + by rewrite (misma_red_nodos g ga).
      + by rewrite (misma_red_nodos g ga). }
  destruct Hinv2 as [Hred2 Hr2].
  destruct sigue; [|by injection Hrun as <-].
  unfold bind at 1 in Hrun.
  destruct (decide (s = t)) as [->|Hst].
  { destruct n as [|n]; [done|]. unfold _bfs_aumento, bind, estado in Hrun.
    simpl in Hrun. rewrite decide_True in Hrun by done. simpl in Hrun.
    unfold aumentar_hasta, bind in Hrun. rewrite cuello_fuente in Hrun.
    by injection Hrun as <-. }
  pose proof (bien_formado_misma_red g g2 Hred2 Hbf) as Hbf2.
  assert (Hs2 : s ∈ _nodos g2) by by rewrite (misma_red_nodos g g2).
  assert (Ht2 : t ∈ _nodos g2) by by rewrite (misma_red_nodos g g2).
  destruct (_bfs_aumento orden n s t g2) as [[b op] g3| |] eqn:Ed; [|done..].
  destruct (bfs_inicio_ok g2 s t Hbf2 Hs2 Ht2 Hst Hr2 orden
              (n `max` S (size (_nodos g2))) g2 orden_perm (mismo_obs_refl g2))
    as (b' & op' & g3' & Ed' & Hobs3 & Hb); [lia|].
  assert (Hmono : refina (_bfs_aumento orden n s t)
                         (_bfs_aumento orden (n `max` S (size (_nodos g2))) s t)).
  { unfold _bfs_aumento. apply refina_bind; [apply refina_refl|]. intros ga.
    apply bfs_bucle_mono. lia. }
  rewrite (refina_Ok _ _ g2 _ g3 Hmono Ed) in Ed'.
  injection Ed' as <- <- <-.
  destruct b.
  - destruct Hb as (padre & -> & l & Hl).
    destruct (aumentar_hasta_rango g2 s t j n (padre_de (Some padre))
                (pbfs padre) l g3 g' Hr2 (consulta_bfs padre) Hl Hobs3 Hrun)
      as [Hred' Hr'].
    split; [by eapply misma_red_trans|done].
  - injection Hrun as <-.
    split; [eapply misma_red_trans; [done|by apply mismo_obs_misma_red]|].
    by eapply mismo_obs_en_rango.
Qed.

(** C9. In a run of either solver, after the reset, the stored flow of
    every pair is between zero and the capacity of the pair (zero if none
    is stored): this holds after any number of rounds followed by any
    number of flow writes of the next round, and when the solver returns.
    The clamp of the result shaping therefore changes no value: the
    returned map holds the stored flow of every stored capacity entry. *)
Theorem flujo_siempre_en_rango (g : MaximoFLujo) (s t : Z) :
  bien_formado g →
  (∀ i j n g', dfs_hasta orden i j n s t g = Ok tt g' →
               en_rango (cap g') (flw g')) ∧
  (∀ i j n g', bfs_hasta orden i j n s t g = Ok tt g' →
               en_rango (cap g') (flw g')) ∧
  (∀ n total m g',
     ford_fulkerson_dfs orden n s t g = Ok (total, m) g' ∨
     edmonds_karp_bfs orden n s t g = Ok (total, m) g' →
     en_rango (cap g') (flw g') ∧
     ∀ u v c, entrada (capacidad g') u v = Some c →
              m !! (u, v) = Some (flw g' u v)).
Proof.
  intros Hbf. split_and!.
  - intros i j n g' Hrun. by destruct (dfs_hasta_rango i j n g s t g' Hbf Hrun).
  - intros i j n g' Hrun. by destruct (bfs_hasta_rango i j n g s t g' Hbf Hrun).
  - intros n total m g' Hrun.
    assert (Hpost : solver_post g s t (total, m) g').
    { destruct Hrun as [Hrun|Hrun].
      - by destruct (ford_fulkerson_dfs_post orden orden_perm n g s t _ g' Hbf Hrun)
          as (_ & _ & _ & Hpost).
      - by destruct (edmonds_karp_bfs_post orden orden_perm n g s t _ g' Hbf Hrun)
          as (_ & _ & _ & Hpost). }
    destruct Hpost as (T & _ & _ & [Hr _] & _ & _ & Hm).
    split; [done|]. by destruct (mapa_es_flujo g' m Hr Hm).
Qed.

End Siempre.

(* ===================================================================== *)
(** ** Flow value and cuts                                                *)
(* ===================================================================== *)

Lemma suma_uno l u (h : Z → Z) :
  NoDup l → u ∈ l → (∀ x, x ∈ l → x ≠ u → h x = 0) → suma l h = h u.
Proof.
  intros Hnd Hu H0.
  rewrite (suma_ext l h (λ y, if decide (y = u) then h u else 0)).
  - by rewrite suma_delta, decide_True.
  - intros x Hx. case_decide as Hxu; [by subst|]. by apply H0.
Qed.

Lemma suma_antisimetrica l (f : Z → Z → Z) :
  suma l (λ x, suma l (λ y, f x y - f y x)) = 0.
Proof.
  rewrite (suma_ext l _ (λ x, suma l (λ y, f x y) - suma l (λ y, f y x)))
    by (intros; apply suma_menos).
  rewrite suma_menos.
  rewrite (suma_intercambio l l (λ x y, f y x)). lia.
Qed.

(** The value of a valid flow is what crosses any cut, net. *)
Lemma valor_cruza g s t X :
  flujo_valido g s t → s ∈ X → t ∉ X → s ∈ _nodos g →
  valor g s = cruza g X (λ x y, flw g x y - flw g y x).
Proof.
  intros [_ Hc] Hs Ht HsN. unfold cruza.
  assert (Hnd : NoDup (dentro g X)) by apply NoDup_filter, NoDup_nodos_l.
  assert (Hin : suma (dentro g X) (neto (nodos_l g) (flw g)) = valor g s).
  { apply suma_uno; [done| |].
    - apply list_elem_of_filter. split; [done|]. by apply elem_of_nodos_l.
    - intros x [Hx _]%list_elem_of_filter Hxs. apply Hc; [done|].
      intros ->. done. }
  rewrite <- Hin.
  rewrite (suma_ext (dentro g X) (neto (nodos_l g) (flw g))
             (λ x, suma (dentro g X) (λ y, flw g x y - flw g y x)
                   + suma (fuera g X) (λ y, flw g x y - flw g y x))).
  2:{ intros x _. unfold neto. rewrite <- suma_menos.
      apply (suma_filter (λ y, y ∈ X)). }
  rewrite suma_mas. unfold dentro at 1 2.
  fold (dentro g X). rewrite suma_antisimetrica. lia.
Qed.

Lemma cruza_le g X h k :
  (∀ x y, h x y <= k x y) → cruza g X h <= cruza g X k.
Proof.
  intros H. unfold cruza. apply suma_le. intros x _.
  apply suma_le. intros y _. apply H.
Qed.

Lemma cruza_ext g X h k :
  (∀ x y, x ∈ X → y ∉ X → h x y = k x y) → cruza g X h = cruza g X k.
Proof.
  intros H. unfold cruza. apply suma_ext. intros x [Hx _]%list_elem_of_filter.
  apply suma_ext. intros y [Hy _]%list_elem_of_filter. by apply H.
Qed.

Lemma cruza_misma_red g g' X h :
  misma_red g g' → cruza g' X h = cruza g X h.
Proof.
  intros H. unfold cruza, dentro, fuera.
  by rewrite (misma_red_nodos_l g g').
Qed.

(** No valid flow has a value above the capacity of a cut. *)
Lemma valor_le_corte g s t X :
  flujo_valido g s t → s ∈ X → t ∉ X → s ∈ _nodos g →
  valor g s <= cruza g X (cap g).
Proof.
  intros Hv Hs Ht HsN. rewrite (valor_cruza g s t X) by done.
  apply cruza_le. intros x y. destruct Hv as [Hr _].
  pose proof (Hr x y). pose proof (Hr y x). lia.
Qed.

(** A flow with a closed cut fills that cut. *)
Lemma valor_corte_cerrado g s t X :
  bien_formado g → flujo_valido g s t → corte_cerrado g s t X →
  valor g s = cruza g X (cap g).
Proof.
  intros Hbf Hv (Hs & Ht & HX & Hcl).
  rewrite (valor_cruza g s t X); [|done..|by apply HX].
  apply cruza_ext. intros x y Hx Hy. destruct Hv as [Hr _].
  pose proof (Hr x y) as Hxy. pose proof (Hr y x) as Hyx.
  destruct (decide (y ∈ vecinos g x)) as [Hady|Hady].
  - destruct (Hcl x Hx y Hady Hy). lia.
  - assert (cap g x y = 0) as Hc1.
    { destruct (entrada (capacidad g) x y) as [c|] eqn:E;
        [|by apply cap_sin_entrada].
      by destruct (bf_ady g Hbf x y c E). }
    assert (cap g y x = 0) as Hc2.
    { destruct (entrada (capacidad g) y x) as [c|] eqn:E;
        [|by apply cap_sin_entrada].
      by destruct (bf_ady g Hbf y x c E). }
    lia.
Qed.

(** Two valid flows on the same network, each with a closed cut, have the
    same value. *)
Lemma valores_iguales g g1 g2 s t X1 X2 :
  bien_formado g → s ∈ _nodos g →
  misma_red g g1 → flujo_valido g1 s t → corte_cerrado g1 s t X1 →
  misma_red g g2 → flujo_valido g2 s t → corte_cerrado g2 s t X2 →
  valor g1 s = valor g2 s.
Proof.
  intros Hbf Hs Hred1 Hv1 HX1 Hred2 Hv2 HX2.
  pose proof (bien_formado_misma_red g g1 Hred1 Hbf) as Hbf1.
  pose proof (bien_formado_misma_red g g2 Hred2 Hbf) as Hbf2.
  assert (Hs1 : s ∈ _nodos g1) by by rewrite (misma_red_nodos g g1).
  assert (Hs2 : s ∈ _nodos g2) by by rewrite (misma_red_nodos g g2).
  assert (Hcap : ∀ ga gb X, misma_red g ga → misma_red g gb →
                            cruza ga X (cap ga) = cruza gb X (cap gb)).
  { intros ga gb X Ha Hb.
    rewrite (cruza_misma_red g ga), (cruza_misma_red g gb) by done.
    apply cruza_ext. intros x y _ _.
    by rewrite (misma_red_cap g ga), (misma_red_cap g gb). }
  pose proof (valor_corte_cerrado g1 s t X1 Hbf1 Hv1 HX1) as E1.
  pose proof (valor_corte_cerrado g2 s t X2 Hbf2 Hv2 HX2) as E2.
  destruct HX1 as (HsX1 & HtX1 & _). destruct HX2 as (HsX2 & HtX2 & _).
  pose proof (valor_le_corte g1 s t X2 Hv1 HsX2 HtX2 Hs1) as L1.
  pose proof (valor_le_corte g2 s t X1 Hv2 HsX1 HtX1 Hs2) as L2.
  rewrite (Hcap g1 g2 X2) in L1 by done.
  rewrite (Hcap g2 g1 X1) in L2 by done.
  lia.
Qed.

(* ===================================================================== *)
(** ** Source different from sink: termination and agreement              *)
(* ===================================================================== *)

Section Valor.

Variable orden : Z → gset Z → list Z.
Hypothesis orden_perm : ∀ u X, orden u X ≡ₚ elements X.


(** Whenever the two solvers return on the same well-formed network, with
    the same source and sink, they return the same total. *)
Theorem solvers_coinciden (g : MaximoFLujo) (s t : Z) n1 n2 r1 r2 g1 g2 :
  bien_formado g →
  ford_fulkerson_dfs orden n1 s t g = Ok r1 g1 →
  edmonds_karp_bfs orden n2 s t g = Ok r2 g2 →
  r1.1 = r2.1.
Proof.
  intros Hbf Hrun1 Hrun2.
  destruct (ford_fulkerson_dfs_post orden orden_perm n1 g s t r1 g1 Hbf Hrun1)
    as (Hs & Ht & Hst & T1 & -> & Hred1 & Hv1 & -> & [X1 HX1] & _).
  destruct (edmonds_karp_bfs_post orden orden_perm n2 g s t r2 g2 Hbf Hrun2)
    as (_ & _ & _ & T2 & -> & Hred2 & Hv2 & -> & [X2 HX2] & _).
  f_equal. by eapply (valores_iguales g g1 g2 s t X1 X2).
Qed.

Lemma alcanzable_bien_formado g : alcanzable orden g → bien_formado g.
Proof.
  induction 1 as [|g c g' _ IH Hfin|g g' _ IH Hfin
                  |g n s t g' _ IH Hfin|g n s t g' _ IH Hfin].
  - apply bien_formado_nuevo.
  - destruct c as [u|u|u v c|u v c|u v]; cbn [ejecutar] in Hfin.
    + by destruct (agregar_nodo_bf u g IH) as (g1 & E & Hg1); rewrite E in Hfin;
        simplify_eq/=.
    + by destruct (eliminar_nodo_bf u g IH) as (g1 & E & Hg1); rewrite E in Hfin;
        simplify_eq/=.
    + destruct (decide (0 <= c)) as [Hc|Hc].
      * by destruct (establecer_capacidad_bf u v c g IH Hc) as (g1 & E & Hg1);
          rewrite E in Hfin; simplify_eq/=.
      * unfold establecer_capacidad in Hfin.
        rewrite decide_False in Hfin by lia. by simplify_eq/=.
    + destruct (decide (0 <= c)) as [Hc|Hc].
      * by destruct (agregar_arista_bf u v c g IH Hc) as (g1 & E & Hg1);
          rewrite E in Hfin; simplify_eq/=.
      * unfold agregar_arista in Hfin.
        rewrite decide_False in Hfin by lia. by simplify_eq/=.
    + by destruct (eliminar_arista_bf u v g IH) as (g1 & E & Hg1);
        rewrite E in Hfin; simplify_eq/=.
  - injection Hfin as <-. eapply bien_formado_misma_red; [|done].
    by repeat split.
  - destruct (ford_fulkerson_dfs orden n s t g) as [r g1|e g1|] eqn:E;
      simplify_eq/=.
    + destruct (ford_fulkerson_dfs_post orden orden_perm n g s t r g' IH E)
        as (_ & _ & _ & T & _ & Hred & _).
      by eapply bien_formado_misma_red.
    + destruct (decide (s ∈ _nodos g ∧ t ∈ _nodos g)) as [[Hs Ht]|Hno].
      * destruct (decide (s = t)) as [->|Hst].
        { destruct (solver_fuente_agotado orden n g t Hs) as [E' _]. congruence. }
        destruct (ford_fulkerson_dfs_ok orden orden_perm (n `max` cota g s) g s t)
          as (r2 & g2 & Hrun2 & _); [done..|lia|].
        destruct (ford_fulkerson_dfs_mono orden n (n `max` cota g s) s t
                    (Nat.le_max_l _ _) g) as [E'|E']; congruence.
      * destruct (solver_ajenos orden n g s t Hno) as [E' _].
        congruence.
  - destruct (edmonds_karp_bfs orden n s t g) as [r g1|e g1|] eqn:E;
      simplify_eq/=.
    + destruct (edmonds_karp_bfs_post orden orden_perm n g s t r g' IH E)
        as (_ & _ & _ & T & _ & Hred & _).
      by eapply bien_formado_misma_red.
    + destruct (decide (s ∈ _nodos g ∧ t ∈ _nodos g)) as [[Hs Ht]|Hno].
      * destruct (decide (s = t)) as [->|Hst].
        { destruct (solver_fuente_agotado orden n g t Hs) as [_ E']. congruence. }
        destruct (edmonds_karp_bfs_ok orden orden_perm (n `max` cota g s) g s t)
          as (r2 & g2 & Hrun2 & _); [done..|lia|].
        destruct (edmonds_karp_bfs_mono orden n (n `max` cota g s) s t
                    (Nat.le_max_l _ _) g) as [E'|E']; congruence.
      * destruct (solver_ajenos orden n g s t Hno) as [_ E'].
        congruence.
Qed.

End Valor.

(* ===================================================================== *)
(** ** The example network                                                *)
(* ===================================================================== *)

Lemma bien_formado_red_de l : Forall no_negativa l → bien_formado (red_de l).
Proof.
  intros Hl. unfold red_de.
  destruct (secuencia_bf l nuevo bien_formado_nuevo Hl) as (g & -> & Hg).
  done.
Qed.

Lemma orden_ej_perm u X : orden_ej u X ≡ₚ elements X.
Proof. done. Qed.

Lemma bien_formado_red_A : bien_formado red_A.
Proof. apply bien_formado_red_de. repeat constructor; simpl; lia. Qed.

(** Scenario A: both solvers return 16. *)
Example escenario_A :
  total_de corrida_dfs_A = Fin 16 ∧ total_de corrida_bfs_A = Fin 16.
Proof. split; vm_compute; reflexivity. Qed.

Example escenario_A_mapa :
  mapa_de corrida_dfs_A !! (0, 1) = Some 8 ∧
  mapa_de corrida_dfs_A !! (0, 2) = Some 8 ∧
  mapa_de corrida_dfs_A !! (1, 2) = Some 0 ∧
  mapa_de corrida_dfs_A !! (1, 3) = Some 8 ∧
  mapa_de corrida_dfs_A !! (2, 3) = Some 8 ∧
  size (mapa_de corrida_dfs_A) = 5%nat.
Proof. repeat split; vm_compute; reflexivity. Qed.

(** Scenario B: both solvers return 5 and the map [{(0, 1): 5}]. *)
Example escenario_B :
  (λ o, (total_de o, map_to_list (mapa_de o)))
    (ford_fulkerson_dfs orden_ej 10 0 1 red_B) = (Fin 5, [((0, 1), 5)]) ∧
  (λ o, (total_de o, map_to_list (mapa_de o)))
    (edmonds_karp_bfs orden_ej 10 0 1 red_B) = (Fin 5, [((0, 1), 5)]).
Proof. split; vm_compute; reflexivity. Qed.

Lemma corrida_dfs_A_eq :
  ford_fulkerson_dfs orden_ej 30 0 3 red_A
  = Ok (total_de corrida_dfs_A, mapa_de corrida_dfs_A)
       (default nuevo (estado_final corrida_dfs_A)).
Proof. vm_compute. reflexivity. Qed.

Lemma desglose_conserva_witness :
  bien_formado red_A ∧
  ford_fulkerson_dfs orden_ej 30 0 3 red_A
  = Ok (total_de corrida_dfs_A, mapa_de corrida_dfs_A)
       (default nuevo (estado_final corrida_dfs_A)) ∧
  ∀ w, w ≠ 0 → w ≠ 3 →
       sale (mapa_de corrida_dfs_A) w = entra (mapa_de corrida_dfs_A) w.
Proof.
  split; [exact bien_formado_red_A|]. split; [exact corrida_dfs_A_eq|].
  exact (desglose_conserva orden_ej orden_ej_perm 30 red_A 0 3 _ _ _
           bien_formado_red_A (or_introl corrida_dfs_A_eq)).
Defined.

Lemma desglose_completo_acotado_witness :
  bien_formado red_A ∧
  edmonds_karp_bfs orden_ej 30 0 3 red_A
  = Ok (total_de corrida_bfs_A, mapa_de corrida_bfs_A)
       (default nuevo (estado_final corrida_bfs_A)) ∧
  (∀ u v, is_Some (mapa_de corrida_bfs_A !! (u, v))
          ↔ ∃ c, entrada (capacidad red_A) u v = Some c ∧ 0 < c) ∧
  (∀ u v x, mapa_de corrida_bfs_A !! (u, v) = Some x → 0 <= x <= cap red_A u v).
Proof.
  assert (E : edmonds_karp_bfs orden_ej 30 0 3 red_A
              = Ok (total_de corrida_bfs_A, mapa_de corrida_bfs_A)
                   (default nuevo (estado_final corrida_bfs_A)))
    by (vm_compute; reflexivity).
  split; [exact bien_formado_red_A|]. split; [exact E|].
  exact (desglose_completo_acotado orden_ej orden_ej_perm 30 red_A 0 3 _ _ _
           bien_formado_red_A (or_intror E)).
Defined.

Lemma flujo_siempre_en_rango_witness :
  bien_formado red_A ∧
  dfs_hasta orden_ej 1 1 30 0 3 red_A
  = Ok tt (default nuevo (estado_final parcial_dfs_A)) ∧
  flw (default nuevo (estado_final parcial_dfs_A)) 0 2 = 8 ∧
  flw (default nuevo (estado_final parcial_dfs_A)) 2 3 = 8 ∧
  flw (default nuevo (estado_final parcial_dfs_A)) 1 3 = 8 ∧
  flw (default nuevo (estado_final parcial_dfs_A)) 0 1 = 0 ∧
  en_rango (cap (default nuevo (estado_final parcial_dfs_A)))
           (flw (default nuevo (estado_final parcial_dfs_A))).
Proof.
  assert (E : dfs_hasta orden_ej 1 1 30 0 3 red_A
              = Ok tt (default nuevo (estado_final parcial_dfs_A)))
    by (vm_compute; reflexivity).
  split; [exact bien_formado_red_A|]. split; [exact E|].
  split; [vm_compute; reflexivity|]. split; [vm_compute; reflexivity|].
  split; [vm_compute; reflexivity|]. split; [vm_compute; reflexivity|].
  exact (proj1 (flujo_siempre_en_rango orden_ej orden_ej_perm red_A 0 3
                  bien_formado_red_A) 1%nat 1%nat 30%nat _ E).
Defined.

(* ===================================================================== *)
(** ** Listing the nodes and the edges                                    *)
(* ===================================================================== *)

#[global] Instance tupla_le_antisym : AntiSymm (=) tupla_le.
Proof.
  intros [[u1 v1] c1] [[u2 v2] c2]. unfold tupla_le. intros H1 H2.
  assert (u1 = u2 ∧ v1 = v2 ∧ c1 = c2) as (-> & -> & ->) by lia. done.
Qed.

Lemma NoDup_nodos g : NoDup (nodos g).
Proof. unfold nodos. rewrite merge_sort_Permutation. apply NoDup_elements. Qed.

Lemma orden_estricto (l : list Z) :
  StronglySorted Z.le l → NoDup l → StronglySorted Z.lt l.
Proof.
  induction 1 as [|x l Hs IH Hall]; intros Hnd; [constructor|].
  apply NoDup_cons in Hnd as [Hx Hnd]. constructor; [by apply IH|].
  rewrite Forall_forall in Hall |- *. intros y Hy.
  specialize (Hall y Hy). assert (x ≠ y) by (intros ->; done). lia.
Qed.

(** The listing of the edges depends only on the capacity entries. *)
Lemma aristas_ext g g' :
  (∀ a b, entrada (capacidad g') a b = entrada (capacidad g) a b) →
  aristas g' = aristas g.
Proof.
  intros H. apply (StronglySorted_unique tupla_le).
  - apply (StronglySorted_merge_sort _).
  - apply (StronglySorted_merge_sort _).
  - apply NoDup_Permutation; [apply NoDup_aristas..|].
    intros [[a b] c]. by rewrite !elem_of_aristas, H.
Qed.

Lemma nodos_ext g g' : _nodos g' = _nodos g → nodos g' = nodos g.
Proof. unfold nodos. by intros ->. Qed.

Lemma misma_red_aristas g g' : misma_red g g' → aristas g' = aristas g.
Proof. intros (H & _). by apply aristas_ext. Qed.

Lemma misma_red_listas g g' :
  misma_red g g' → nodos g' = nodos g ∧ aristas g' = aristas g.
Proof.
  intros H. split; [|by apply misma_red_aristas].
  apply nodos_ext. by destruct H as (_ & _ & ?).
Qed.

(** X1. [nodos()] lists the members of the node set, each of them once, in
    strictly ascending order. *)
Theorem nodos_lista (g : MaximoFLujo) :
  (∀ x, x ∈ nodos g ↔ x ∈ _nodos g) ∧
  StronglySorted Z.lt (nodos g) ∧
  length (nodos g) = size (_nodos g).
Proof.
  split; [apply elem_of_nodos|]. split.
  - apply orden_estricto; [apply nodos_ordenados|apply NoDup_nodos].
  - unfold nodos. by rewrite merge_sort_Permutation.
Qed.

(** X2. [establecer_capacidad(u, v, c)] with a positive [c] returns
    normally; afterwards [aristas()] lists [(u, v, c)] and, for every other
    pair, what it listed before; [nodos()] lists [u], [v] and the nodes it
    listed before; no stored flow has changed. *)
Theorem establecer_capacidad_listado (g : MaximoFLujo) (u v c : Z) :
  0 < c →
  ∃ g', establecer_capacidad u v c g = Ok tt g' ∧
    (∀ a b x, (a, b, x) ∈ aristas g' ↔
              (a = u ∧ b = v ∧ x = c) ∨
              ((a, b) ≠ (u, v) ∧ (a, b, x) ∈ aristas g)) ∧
    (∀ x, x ∈ nodos g' ↔ x = u ∨ x = v ∨ x ∈ nodos g) ∧
    (∀ a b, flw g' a b = flw g a b).
Proof.
  intros Hc.
  destruct (establecer_capacidad_pos u v c g Hc)
    as (g' & E & Hcap & Hf & _ & Hn).
  exists g'. split; [done|]. split_and!; [| |done].
  - intros a b x. rewrite !elem_of_aristas, Hcap. case_decide as Hab.
    + injection Hab as -> ->. split.
      * intros [_ [= <-]]. by left.
      * intros [(_ & _ & ->)|[? _]]; [done|done].
    + split.
      * intros H. right. split; [done|done].
      * intros [(-> & -> & _)|[_ H]]; [done|done].
  - intros x. rewrite !elem_of_nodos, Hn. set_solver.
Qed.

Lemma establecer_capacidad_listado_witness :
  0 < 5 ∧
  ∃ g', establecer_capacidad 0 1 5 nuevo = Ok tt g' ∧
    (∀ a b x, (a, b, x) ∈ aristas g' ↔
              (a = 0 ∧ b = 1 ∧ x = 5) ∨
              ((a, b) ≠ (0, 1) ∧ (a, b, x) ∈ aristas nuevo)) ∧
    (∀ x, x ∈ nodos g' ↔ x = 0 ∨ x = 1 ∨ x ∈ nodos nuevo) ∧
    (∀ a b, flw g' a b = flw nuevo a b).
Proof.
  assert (H : 0 < 5) by lia.
  split; [exact H|]. exact (establecer_capacidad_listado nuevo 0 1 5 H).
Defined.

(** X3. A negative capacity is refused before anything is read or written:
    [establecer_capacidad] and [agregar_arista] raise [AssertionError] and
    the object is exactly as before.  With a capacity that is not negative,
    [establecer_capacidad] always returns normally. *)
Theorem capacidad_negativa_rechazada (g : MaximoFLujo) (u v c : Z) :
  (c < 0 →
   establecer_capacidad u v c g = Raise AssertionError g ∧
   agregar_arista u v c g = Raise AssertionError g) ∧
  (0 <= c → ∃ g', establecer_capacidad u v c g = Ok tt g').
Proof.
  split.
  - intros Hc. unfold establecer_capacidad, agregar_arista.
    by rewrite !decide_False by lia.
  - intros Hc. destruct (decide (c = 0)) as [->|Hc0].
    + destruct (eliminar_arista_quita u v g) as (g' & E & _).
      exists g'. unfold establecer_capacidad. by rewrite !decide_True by lia.
    + destruct (establecer_capacidad_pos u v c g) as (g' & E & _); [lia|].
      by exists g'.
Qed.

(** X4. [agregar_arista(u, v, c)] with [c] not negative, on an edge whose
    stored capacity is not negative, returns normally and adds [c] to the
    capacity of [(u, v)] (an edge that is missing counts as zero); no other
    capacity and no stored flow changes. *)
Theorem agregar_arista_acumula (g : MaximoFLujo) (u v c : Z) :
  0 <= cap g u v → 0 <= c →
  ∃ g', agregar_arista u v c g = Ok tt g' ∧
    cap g' u v = cap g u v + c ∧
    (∀ a b, (a, b) ≠ (u, v) →
            entrada (capacidad g') a b = entrada (capacidad g) a b) ∧
    (∀ a b, flw g' a b = flw g a b).
Proof.
  intros H0 Hc. unfold agregar_arista. rewrite decide_True by lia.
  unfold bind at 1. rewrite cap_fila_eq, entrada_fila.
  fold (cap g u v). set (g1 := con_capacidad _ g).
  assert (Hcap1 : ∀ a b, entrada (capacidad g1) a b = entrada (capacidad g) a b)
    by (intros; apply entrada_tocar).
  destruct (decide (cap g u v + c = 0)) as [Hz|Hz].
  - rewrite Hz. unfold establecer_capacidad. rewrite !decide_True by lia.
    destruct (eliminar_arista_quita u v g1) as (g' & E & Hno & Hotros & Hf & _).
    exists g'. split; [done|]. split_and!.
    + unfold cap at 1. rewrite Hno. simpl. lia.
    + intros a b Hab. by rewrite Hotros, Hcap1.
    + intros a b. unfold flw. by rewrite Hf.
  - destruct (establecer_capacidad_pos u v (cap g u v + c) g1)
      as (g' & E & Hcap & Hf & _); [lia|].
    exists g'. split; [done|]. split_and!.
    + unfold cap at 1. by rewrite Hcap, decide_True.
    + intros a b Hab. by rewrite Hcap, decide_False, Hcap1.
    + intros a b. by rewrite Hf.
Qed.

Lemma agregar_arista_acumula_witness :
  0 <= cap red_B 0 1 ∧ 0 <= 3 ∧
  ∃ g', agregar_arista 0 1 3 red_B = Ok tt g' ∧
    cap g' 0 1 = cap red_B 0 1 + 3 ∧
    (∀ a b, (a, b) ≠ (0, 1) →
            entrada (capacidad g') a b = entrada (capacidad red_B) a b) ∧
    (∀ a b, flw g' a b = flw red_B a b).
Proof.
  assert (H1 : 0 <= cap red_B 0 1) by (vm_compute; discriminate).
  assert (H2 : 0 <= 3) by lia.
  split; [exact H1|]. split; [exact H2|].
  exact (agregar_arista_acumula red_B 0 1 3 H1 H2).
Defined.

(** X5. [eliminar_nodo(u)] removes nothing but what touches [u]:
    afterwards [nodos()] lists the other nodes, [aristas()] lists the edges
    between other nodes, the stored flow between other nodes is as before,
    and every other node has the neighbours it had, without [u]. *)
Theorem eliminar_nodo_conserva (g : MaximoFLujo) (u : Z) :
  ∃ g', eliminar_nodo u g = Ok tt g' ∧
    (∀ x, x ∈ nodos g' ↔ x ∈ nodos g ∧ x ≠ u) ∧
    (∀ a b c, (a, b, c) ∈ aristas g' ↔
              (a, b, c) ∈ aristas g ∧ a ≠ u ∧ b ≠ u) ∧
    (∀ a b, a ≠ u → b ≠ u → flw g' a b = flw g a b) ∧
    (∀ a, a ≠ u → vecinos g' a = vecinos g a ∖ {[u]}).
Proof.
  destruct (eliminar_nodo_ok u g) as (g' & E & Hc & Hf & Hv & _ & Hn).
  exists g'. split; [done|]. split_and!.
  - intros x. rewrite !elem_of_nodos, Hn. set_solver.
  - intros a b c. rewrite !elem_of_aristas, Hc. case_decide; naive_solver.
  - intros a b Ha Hb. unfold flw. rewrite Hf. by rewrite decide_False by tauto.
  - intros a Ha. rewrite Hv. by rewrite decide_False.
Qed.

(** X6. On a well-formed network, removing a node that is not in the node
    set changes nothing that the listings show, and neither does adding
    such a node and removing it again: [nodos()], [aristas()] and the
    neighbours of every node are as before. *)
Theorem agregar_eliminar_nodo (g : MaximoFLujo) (u : Z) :
  bien_formado g → u ∉ _nodos g →
  (∃ g', eliminar_nodo u g = Ok tt g' ∧
         nodos g' = nodos g ∧ aristas g' = aristas g ∧
         ∀ a, vecinos g' a = vecinos g a) ∧
  (∃ g', (agregar_nodo u ;;; eliminar_nodo u) g = Ok tt g' ∧
         nodos g' = nodos g ∧ aristas g' = aristas g ∧
         ∀ a, vecinos g' a = vecinos g a).
Proof.
  intros Hbf Hu.
  assert (Hcap : ∀ a b, (if decide (a = u ∨ b = u) then None
                         else entrada (capacidad g) a b)
                        = entrada (capacidad g) a b).
  { intros a b. case_decide as Hab; [|done].
    destruct (entrada (capacidad g) a b) as [c|] eqn:E; [|done].
    destruct (bien_formado_extremos g a b c Hbf E) as [Ha Hb].
    destruct Hab as [->| ->]; done. }
  assert (Hvec : ∀ a, (if decide (a = u) then ∅ else vecinos g a ∖ {[u]})
                      = vecinos g a).
  { intros a. case_decide as Ha.
    - subst a. apply leibniz_equiv. apply symmetry, elem_of_equiv_empty.
      intros y Hy. by destruct (bf_nodos g Hbf u y Hy).
    - apply leibniz_equiv. apply set_equiv. intros y.
      rewrite elem_of_difference, elem_of_singleton. split; [tauto|].
      intros Hy. split; [done|]. intros ->.
      by destruct (bf_nodos g Hbf a u Hy). }
  split.
  - destruct (eliminar_nodo_ok u g) as (g' & E & Hc & _ & Hv & _ & Hn).
    exists g'. split; [done|]. split_and!.
    + apply nodos_ext. rewrite Hn. set_solver.
    + apply aristas_ext. intros a b. by rewrite Hc, Hcap.
    + intros a. by rewrite Hv, Hvec.
  - unfold bind, agregar_nodo.
    destruct (eliminar_nodo_ok u (con_nodos ({[u]} ∪ _nodos g) g))
      as (g' & E & Hc & _ & Hv & _ & Hn).
    exists g'. split; [done|]. split_and!.
    + apply nodos_ext. rewrite Hn. simpl. set_solver.
    + apply aristas_ext. intros a b. rewrite Hc. simpl. apply Hcap.
    + intros a. rewrite Hv. apply Hvec.
Qed.

Lemma agregar_eliminar_nodo_witness :
  bien_formado red_A ∧ (7 ∉ _nodos red_A) ∧
  ∃ g', (agregar_nodo 7 ;;; eliminar_nodo 7) red_A = Ok tt g' ∧
        nodos g' = nodos red_A ∧ aristas g' = aristas red_A ∧
        ∀ a, vecinos g' a = vecinos red_A a.
Proof.
  assert (H : 7 ∉ _nodos red_A) by (intros H; vm_compute in H; discriminate).
  split; [exact bien_formado_red_A|]. split; [exact H|].
  exact (proj2 (agregar_eliminar_nodo red_A 7 bien_formado_red_A H)).
Defined.

(** X7. [reiniciar_flujos()] sets every entry of the flow table to zero and
    keeps the entries that the table has; the capacities, the adjacency
    index and the node set are not touched, and a second call changes
    nothing. *)
Theorem reiniciar_flujos_cero (g : MaximoFLujo) :
  ∃ g', reiniciar_flujos g = Ok tt g' ∧
    (∀ a b, entrada (flujo g') a b = (λ _, 0) <$> entrada (flujo g) a b) ∧
    (∀ a b, flw g' a b = 0) ∧
    capacidad g' = capacidad g ∧ ady g' = ady g ∧ _nodos g' = _nodos g ∧
    reiniciar_flujos g' = Ok tt g'.
Proof.
  rewrite reiniciar_flujos_eq. eexists. split; [reflexivity|].
  assert (He : ∀ a b,
             entrada ((λ r : gmap Z Z, (λ _, 0) <$> r) <$> flujo g) a b
             = (λ _, 0) <$> entrada (flujo g) a b).
  { intros a b. unfold entrada. rewrite lookup_fmap.
    destruct (flujo g !! a) as [r|]; simpl; [|done]. by rewrite lookup_fmap. }
  split_and!; try done.
  - intros a b. unfold flw; simpl. rewrite He.
    by destruct (entrada (flujo g) a b).
  - rewrite reiniciar_flujos_eq. f_equal. unfold con_flujo; simpl. f_equal.
    apply map_eq. intros a. rewrite !lookup_fmap.
    destruct (flujo g !! a) as [r|]; simpl; [|done]. f_equal.
    apply map_eq. intros b. rewrite !lookup_fmap.
    by destruct (r !! b).
Qed.

Section Alcanzables.

Variable orden : Z → gset Z → list Z.
Hypothesis orden_perm : ∀ u X, orden u X ≡ₚ elements X.

(** X8. In every state that an object can reach through calls of its
    methods (mutations, [reiniciar_flujos], solver runs, whether they
    return or raise), [aristas()] lists exactly the stored capacity
    entries, each capacity is positive, both endpoints are listed by
    [nodos()], and each endpoint is in the adjacency set of the other. *)
Theorem alcanzable_aristas (g : MaximoFLujo) :
  alcanzable orden g →
  ∀ u v c,
    ((u, v, c) ∈ aristas g ↔ entrada (capacidad g) u v = Some c) ∧
    ((u, v, c) ∈ aristas g →
     0 < c ∧ u ∈ nodos g ∧ v ∈ nodos g ∧
     v ∈ vecinos g u ∧ u ∈ vecinos g v).
Proof.
  intros Halc u v c.
  pose proof (alcanzable_bien_formado orden orden_perm g Halc) as Hbf.
  split.
  - rewrite elem_of_aristas. split; [tauto|]. intros H. split; [|done].
    by apply (bf_pos g Hbf) in H.
  - intros [Hc E]%elem_of_aristas. rewrite !elem_of_nodos.
    destruct (bien_formado_extremos g u v c Hbf E).
    destruct (bf_ady g Hbf u v c E). done.
Qed.

End Alcanzables.

Lemma alcanzable_red_B : alcanzable orden_ej red_B.
Proof.
  apply (alc_llamada orden_ej nuevo (EstablecerCapacidad 0 1 5));
    [apply alc_nuevo|]. vm_compute. reflexivity.
Qed.

Lemma alcanzable_aristas_witness :
  alcanzable orden_ej red_B ∧
  ((0, 1, 5) ∈ aristas red_B ↔ entrada (capacidad red_B) 0 1 = Some 5) ∧
  ((0, 1, 5) ∈ aristas red_B →
   0 < 5 ∧ 0 ∈ nodos red_B ∧ 1 ∈ nodos red_B ∧
   1 ∈ vecinos red_B 0 ∧ 0 ∈ vecinos red_B 1).
Proof.
  split; [exact alcanzable_red_B|].
  exact (alcanzable_aristas orden_ej orden_ej_perm red_B alcanzable_red_B
           0 1 5).
Defined.

Lemma capacidad_negativa_rechazada_witness :
  -1 < 0 ∧
  establecer_capacidad 0 1 (-1) red_B = Raise AssertionError red_B ∧
  agregar_arista 0 1 (-1) red_B = Raise AssertionError red_B.
Proof.
  assert (H : -1 < 0) by lia.
  split; [exact H|].
  exact (proj1 (capacidad_negativa_rechazada red_B 0 1 (-1)) H).
Defined.

(* ===================================================================== *)
(** ** The total is the value of a maximum flow                           *)
(* ===================================================================== *)

(** What a flow that is conserved sends out of the source crosses every
    cut. *)
Lemma neto_cruza g (f : Z → Z → Z) s t X :
  conserva (nodos_l g) f s t → s ∈ X → (t ∉ X) → s ∈ _nodos g →
  neto (nodos_l g) f s = cruza g X (λ x y, f x y - f y x).
Proof.
  intros Hc Hs Ht HsN. unfold cruza.
  assert (Hnd : NoDup (dentro g X)) by apply NoDup_filter, NoDup_nodos_l.
  assert (Hin : suma (dentro g X) (neto (nodos_l g) f) = neto (nodos_l g) f s).
  { apply suma_uno; [done| |].
    - apply list_elem_of_filter. split; [done|]. by apply elem_of_nodos_l.
    - intros x [Hx _]%list_elem_of_filter Hxs. apply Hc; [done|].
      intros ->. done. }
  rewrite <- Hin.
  rewrite (suma_ext (dentro g X) (neto (nodos_l g) f)
             (λ x, suma (dentro g X) (λ y, f x y - f y x)
                   + suma (fuera g X) (λ y, f x y - f y x))).
  2:{ intros x _. unfold neto. rewrite <- suma_menos.
      apply (suma_filter (λ y, y ∈ X)). }
  rewrite suma_mas. unfold dentro at 1 2.
  fold (dentro g X). rewrite suma_antisimetrica. lia.
Qed.

Lemma neto_le_corte g (f : Z → Z → Z) s t X :
  en_rango (cap g) f → conserva (nodos_l g) f s t →
  s ∈ X → (t ∉ X) → s ∈ _nodos g →
  neto (nodos_l g) f s <= cruza g X (cap g).
Proof.
  intros Hr Hc Hs Ht HsN. rewrite (neto_cruza g f s t X) by done.
  apply cruza_le. intros x y.
  pose proof (Hr x y). pose proof (Hr y x). lia.
Qed.

(** The net flows of all the nodes add up to zero. *)
Lemma suma_neto N (f : Z → Z → Z) : suma N (neto N f) = 0.
Proof.
  unfold neto.
  rewrite (suma_ext N _ (λ w, suma N (λ y, f w y - f y w)))
    by (intros; by rewrite suma_menos).
  apply suma_antisimetrica.
Qed.

(** A conserved flow brings into the sink what it sends out of the source. *)
Lemma neto_sumidero N (f : Z → Z → Z) s t :
  NoDup N → s ∈ N → t ∈ N → s ≠ t → conserva N f s t →
  neto N f t = - neto N f s.
Proof.
  intros Hnd Hs Ht Hst Hc.
  pose proof (suma_neto N f) as H0.
  rewrite (suma_ext N (neto N f)
             (λ w, (if decide (w = s) then neto N f s else 0)
                   + (if decide (w = t) then neto N f t else 0))) in H0.
  - rewrite suma_mas, !suma_delta in H0 by done.
    rewrite !decide_True in H0 by done. lia.
  - intros w _. destruct (decide (w = s)) as [->|Hws].
    + rewrite decide_False by done. lia.
    + destruct (decide (w = t)) as [->|Hwt]; [lia|].
      rewrite Hc by done. lia.
Qed.

(** The facts about a run that returns, in terms of the network it was
    started on. *)
Lemma solver_post_red g s t r g' :
  bien_formado g → s ∈ _nodos g → solver_post g s t r g' →
  ∃ T, r.1 = Fin T ∧
    (∀ x y, flujo_de r.2 x y = flw g' x y) ∧
    en_rango (cap g) (flw g') ∧
    conserva (nodos_l g) (flw g') s t ∧
    neto (nodos_l g) (flw g') s = T ∧
    ∃ X, s ∈ X ∧ (t ∉ X) ∧ X ⊆ _nodos g ∧ T = cruza g X (cap g).
Proof.
  intros Hbf Hs (T & HT & Hred & [Hr Hc] & -> & [X HX] & Hm).
  pose proof (bien_formado_misma_red g g' Hred Hbf) as Hbf'.
  exists (valor g' s). split; [done|].
  destruct (mapa_es_flujo g' r.2 Hr Hm) as [_ Hdef].
  rewrite <- (misma_red_nodos_l g g') by done.
  split_and!; try done.
  - intros x y. rewrite <- (misma_red_cap g g') by done. apply Hr.
  - exists X. pose proof HX as (HsX & HtX & HXN & _).
    rewrite <- (misma_red_nodos g g') by done. split_and!; try done.
    rewrite (valor_corte_cerrado g' s t X) by done.
    rewrite (cruza_misma_red g g') by done.
    apply cruza_ext. intros x y _ _. by apply misma_red_cap.
Qed.

Section Optimo.

Variable orden : Z → gset Z → list Z.
Hypothesis orden_perm : ∀ u X, orden u X ≡ₚ elements X.

Lemma solver_post_de n g s t r g' :
  bien_formado g →
  ford_fulkerson_dfs orden n s t g = Ok r g' ∨
  edmonds_karp_bfs orden n s t g = Ok r g' →
  s ∈ _nodos g ∧ t ∈ _nodos g ∧ s ≠ t ∧ solver_post g s t r g'.
Proof.
  intros Hbf [Hrun|Hrun].
  - by apply (ford_fulkerson_dfs_post orden orden_perm n).
  - by apply (edmonds_karp_bfs_post orden orden_perm n).
Qed.

(** X9. The total that a solver returns is the value of a maximum flow of
    the network: the returned map, read as a flow, respects the capacities
    and conservation and sends the total out of the source; no flow that
    respects the capacities and conservation sends more; and the total is
    the capacity of a cut between the source and the sink. *)
Theorem total_es_maximo (n : nat) (g : MaximoFLujo) (s t : Z)
    (total : num) (m : gmap (Z * Z) Z) (g' : MaximoFLujo) :
  bien_formado g →
  ford_fulkerson_dfs orden n s t g = Ok (total, m) g' ∨
  edmonds_karp_bfs orden n s t g = Ok (total, m) g' →
  ∃ T, total = Fin T ∧
    (en_rango (cap g) (flujo_de m) ∧
     conserva (nodos_l g) (flujo_de m) s t ∧
     neto (nodos_l g) (flujo_de m) s = T) ∧
    (∀ f, en_rango (cap g) f → conserva (nodos_l g) f s t →
          neto (nodos_l g) f s <= T) ∧
    (∃ X, s ∈ X ∧ (t ∉ X) ∧ X ⊆ _nodos g ∧ T = cruza g X (cap g)).
Proof.
  intros Hbf Hrun.
  destruct (solver_post_de n g s t _ g' Hbf Hrun) as (Hs & Ht & Hst & Hpost).
  destruct (solver_post_red g s t _ g' Hbf Hs Hpost)
    as (T & HT & Hm & Hr & Hc & Hval & X & HsX & HtX & HXN & HX).
  simpl in HT, Hm. exists T. split; [done|]. split_and!.
  - intros x y. rewrite Hm. apply Hr.
  - intros w Hws Hwt. rewrite (neto_ext _ _ (flw g')) by done. by apply Hc.
  - by rewrite (neto_ext _ _ (flw g')) by done.
  - intros f Hfr Hfc. rewrite HX. by apply (neto_le_corte g f s t X).
  - by exists X.
Qed.

(** X10. The total that a solver returns is what the returned map sends
    out of the source, net, and what it brings into the sink, net. *)
Theorem total_en_el_mapa (n : nat) (g : MaximoFLujo) (s t : Z)
    (total : num) (m : gmap (Z * Z) Z) (g' : MaximoFLujo) :
  bien_formado g →
  ford_fulkerson_dfs orden n s t g = Ok (total, m) g' ∨
  edmonds_karp_bfs orden n s t g = Ok (total, m) g' →
  total = Fin (sale m s - entra m s) ∧
  total = Fin (entra m t - sale m t).
Proof.
  intros Hbf Hrun.
  destruct (solver_post_de n g s t _ g' Hbf Hrun) as (Hs & Ht & Hst & Hpost).
  destruct (solver_post_red g s t _ g' Hbf Hs Hpost)
    as (T & HT & Hm & Hr & Hc & Hval & _).
  simpl in HT, Hm. subst total.
  assert (Hkeys : ∀ a b x, m !! (a, b) = Some x →
                           a ∈ nodos_l g ∧ b ∈ nodos_l g).
  { intros a b x Hx.
    destruct (solver_post_completo g s t _ g' Hbf Hpost) as [Hk _].
    destruct (proj1 (Hk a b)) as (c & Hcab & _); [by eexists|].
    rewrite !elem_of_nodos_l. by eapply bien_formado_extremos. }
  assert (Hsale : ∀ w, sale m w = suma (nodos_l g) (λ y, flw g' w y)).
  { intros w. rewrite (sale_suma (nodos_l g) w (NoDup_nodos_l g)).
    - apply suma_ext. intros y _. apply Hm.
    - intros a b x Hx. by destruct (Hkeys a b x Hx). }
  assert (Hentra : ∀ w, entra m w = suma (nodos_l g) (λ y, flw g' y w)).
  { intros w. rewrite (entra_suma (nodos_l g) w (NoDup_nodos_l g)).
    - apply suma_ext. intros y _. apply Hm.
    - intros a b x Hx. by destruct (Hkeys a b x Hx). }
  pose proof (neto_sumidero (nodos_l g) (flw g') s t (NoDup_nodos_l g)) as Hsum.
  rewrite !elem_of_nodos_l in Hsum. specialize (Hsum Hs Ht Hst Hc).
  rewrite !Hsale, !Hentra. unfold neto in Hval, Hsum.
  split; f_equal; lia.
Qed.

(** X12. A solver run that returns leaves the network as it found it:
    [nodos()] and [aristas()] list what they listed before, every node has
    the neighbours it had, and the state is well formed again. *)
Theorem solver_conserva_red (n : nat) (g : MaximoFLujo) (s t : Z)
    (r : num * gmap (Z * Z) Z) (g' : MaximoFLujo) :
  bien_formado g →
  ford_fulkerson_dfs orden n s t g = Ok r g' ∨
  edmonds_karp_bfs orden n s t g = Ok r g' →
  nodos g' = nodos g ∧ aristas g' = aristas g ∧
  (∀ a, vecinos g' a = vecinos g a) ∧ bien_formado g'.
Proof.
  intros Hbf Hrun.
  destruct (solver_post_de n g s t r g' Hbf Hrun)
    as (_ & _ & _ & T & _ & Hred & _).
  destruct (misma_red_listas g g' Hred) as [Hn Ha].
  split_and!; [done..| |by eapply bien_formado_misma_red].
  by destruct Hred as (_ & ? & _).
Qed.




End Optimo.

(** X11. The total depends on the network only: two solver runs with the
    same source and sink, by the same solver or not, with the same
    iteration order of the sets or not, on states that hold the same
    capacities, neighbours and nodes, return the same total, whatever
    flow was stored before.  In particular the two solvers agree, a run
    can be repeated, and the order in which Python iterates over a set
    has no influence on the total (it has on the map). *)
Theorem total_depende_de_la_red (orden1 orden2 : Z → gset Z → list Z)
    (n1 n2 : nat) (g ga : MaximoFLujo) (s t : Z)
    (r1 r2 : num * gmap (Z * Z) Z) (g1 g2 : MaximoFLujo) :
  (∀ u X, orden1 u X ≡ₚ elements X) → (∀ u X, orden2 u X ≡ₚ elements X) →
  bien_formado g → misma_red g ga →
  ford_fulkerson_dfs orden1 n1 s t g = Ok r1 g1 ∨
  edmonds_karp_bfs orden1 n1 s t g = Ok r1 g1 →
  ford_fulkerson_dfs orden2 n2 s t ga = Ok r2 g2 ∨
  edmonds_karp_bfs orden2 n2 s t ga = Ok r2 g2 →
  r1.1 = r2.1 ∧ misma_red g g1 ∧ misma_red g g2.
Proof.
  intros Hp1 Hp2 Hbf Hred Hrun1 Hrun2.
  pose proof (bien_formado_misma_red g ga Hred Hbf) as Hbfa.
  destruct (solver_post_de orden1 Hp1 n1 g s t r1 g1 Hbf Hrun1)
    as (Hs & _ & _ & T1 & -> & Hred1 & Hv1 & -> & [X1 HX1] & _).
  destruct (solver_post_de orden2 Hp2 n2 ga s t r2 g2 Hbfa Hrun2)
    as (_ & _ & _ & T2 & -> & Hred2 & Hv2 & -> & [X2 HX2] & _).
  pose proof (misma_red_trans g ga g2 Hred Hred2) as Hred2'.
  split_and!; [|done..].
  f_equal. by eapply (valores_iguales g g1 g2 s t X1 X2).
Qed.

Lemma corrida_bfs_A_eq :
  edmonds_karp_bfs orden_ej 30 0 3 red_A
  = Ok (total_de corrida_bfs_A, mapa_de corrida_bfs_A)
       (default nuevo (estado_final corrida_bfs_A)).
Proof. vm_compute. reflexivity. Qed.

Lemma total_es_maximo_witness :
  bien_formado red_A ∧
  ford_fulkerson_dfs orden_ej 30 0 3 red_A
  = Ok (total_de corrida_dfs_A, mapa_de corrida_dfs_A)
       (default nuevo (estado_final corrida_dfs_A)) ∧
  ∃ T, total_de corrida_dfs_A = Fin T ∧
    (en_rango (cap red_A) (flujo_de (mapa_de corrida_dfs_A)) ∧
     conserva (nodos_l red_A) (flujo_de (mapa_de corrida_dfs_A)) 0 3 ∧
     neto (nodos_l red_A) (flujo_de (mapa_de corrida_dfs_A)) 0 = T) ∧
    (∀ f, en_rango (cap red_A) f → conserva (nodos_l red_A) f 0 3 →
          neto (nodos_l red_A) f 0 <= T) ∧
    (∃ X, 0 ∈ X ∧ (3 ∉ X) ∧ X ⊆ _nodos red_A ∧ T = cruza red_A X (cap red_A)).
Proof.
  split; [exact bien_formado_red_A|]. split; [exact corrida_dfs_A_eq|].
  exact (total_es_maximo orden_ej orden_ej_perm 30 red_A 0 3 _ _ _
           bien_formado_red_A (or_introl corrida_dfs_A_eq)).
Defined.

Lemma total_en_el_mapa_witness :
  bien_formado red_A ∧
  edmonds_karp_bfs orden_ej 30 0 3 red_A
  = Ok (total_de corrida_bfs_A, mapa_de corrida_bfs_A)
       (default nuevo (estado_final corrida_bfs_A)) ∧
  total_de corrida_bfs_A
  = Fin (sale (mapa_de corrida_bfs_A) 0 - entra (mapa_de corrida_bfs_A) 0) ∧
  total_de corrida_bfs_A
  = Fin (entra (mapa_de corrida_bfs_A) 3 - sale (mapa_de corrida_bfs_A) 3).
Proof.
  split; [exact bien_formado_red_A|]. split; [exact corrida_bfs_A_eq|].
  exact (total_en_el_mapa orden_ej orden_ej_perm 30 red_A 0 3 _ _ _
           bien_formado_red_A (or_intror corrida_bfs_A_eq)).
Defined.

Lemma orden_inv_perm u X : orden_inv u X ≡ₚ elements X.
Proof. unfold orden_inv. apply reverse_Permutation. Qed.

Lemma corrida_dfs_A_inv_eq :
  ford_fulkerson_dfs orden_inv 30 0 3 red_A
  = Ok (total_de corrida_dfs_A_inv, mapa_de corrida_dfs_A_inv)
       (default nuevo (estado_final corrida_dfs_A_inv)).
Proof. vm_compute. reflexivity. Qed.

Lemma total_depende_de_la_red_witness :
  (∀ u X, orden_ej u X ≡ₚ elements X) ∧
  (∀ u X, orden_inv u X ≡ₚ elements X) ∧
  bien_formado red_A ∧ misma_red red_A red_A ∧
  edmonds_karp_bfs orden_ej 30 0 3 red_A
  = Ok (total_de corrida_bfs_A, mapa_de corrida_bfs_A)
       (default nuevo (estado_final corrida_bfs_A)) ∧
  ford_fulkerson_dfs orden_inv 30 0 3 red_A
  = Ok (total_de corrida_dfs_A_inv, mapa_de corrida_dfs_A_inv)
       (default nuevo (estado_final corrida_dfs_A_inv)) ∧
  total_de corrida_bfs_A = total_de corrida_dfs_A_inv ∧
  misma_red red_A (default nuevo (estado_final corrida_bfs_A)) ∧
  misma_red red_A (default nuevo (estado_final corrida_dfs_A_inv)).
Proof.
  split; [exact orden_ej_perm|]. split; [exact orden_inv_perm|].
  split; [exact bien_formado_red_A|]. split; [exact (misma_red_refl red_A)|].
  split; [exact corrida_bfs_A_eq|]. split; [exact corrida_dfs_A_inv_eq|].
  exact (total_depende_de_la_red orden_ej orden_inv 30 30 red_A red_A 0 3
           _ _ _ _ orden_ej_perm orden_inv_perm bien_formado_red_A
           (misma_red_refl red_A)
           (or_intror corrida_bfs_A_eq) (or_introl corrida_dfs_A_inv_eq)).
Defined.

(** With the sets iterated in ascending order the depth-first solver
    returns another map for scenario A than with the order of [elements],
    and the same total. *)
Example escenario_A_otro_orden :
  total_de corrida_dfs_A_inv = total_de corrida_dfs_A ∧
  mapa_de corrida_dfs_A_inv
  = {[(0, 1) := 9; (0, 2) := 7; (1, 2) := 1; (1, 3) := 8; (2, 3) := 8]} ∧
  mapa_de corrida_dfs_A
  = {[(0, 1) := 8; (0, 2) := 8; (1, 2) := 0; (1, 3) := 8; (2, 3) := 8]}.
Proof. split; [|split]; vm_compute; reflexivity. Qed.

Lemma solver_conserva_red_witness :
  bien_formado red_A ∧
  ford_fulkerson_dfs orden_ej 30 0 3 red_A
  = Ok (total_de corrida_dfs_A, mapa_de corrida_dfs_A)
       (default nuevo (estado_final corrida_dfs_A)) ∧
  nodos (default nuevo (estado_final corrida_dfs_A)) = nodos red_A ∧
  aristas (default nuevo (estado_final corrida_dfs_A)) = aristas red_A ∧
  (∀ a, vecinos (default nuevo (estado_final corrida_dfs_A)) a
        = vecinos red_A a) ∧
  bien_formado (default nuevo (estado_final corrida_dfs_A)).
Proof.
  split; [exact bien_formado_red_A|]. split; [exact corrida_dfs_A_eq|].
  exact (solver_conserva_red orden_ej orden_ej_perm 30 red_A 0 3 _ _
           bien_formado_red_A (or_introl corrida_dfs_A_eq)).
Defined.



(* ===================================================================== *)
(** ** What the two searches find                                         *)
(* ===================================================================== *)

(** A step with a positive residual capacity joins two neighbours. *)
Lemma residual_vecino g u v d :
  bien_formado g → en_rango (cap g) (flw g) → 0 < residual g u v d →
  v ∈ vecinos g u.
Proof.
  intros Hbf Hr. unfold residual. case_decide; intros Hpos.
  - pose proof (Hr u v).
    destruct (entrada (capacidad g) u v) as [c|] eqn:E.
    + by destruct (bf_ady g Hbf u v c E).
    + rewrite (cap_sin_entrada g u v E) in *. lia.
  - pose proof (Hr v u).
    destruct (entrada (capacidad g) v u) as [c|] eqn:E.
    + by destruct (bf_ady g Hbf v u c E).
    + rewrite (cap_sin_entrada g v u E) in *. lia.
Qed.

(** No augmenting path leaves a closed cut. *)
Lemma corte_sin_camino g s t X :
  bien_formado g → en_rango (cap g) (flw g) → corte_cerrado g s t X →
  ¬ ∃ P l, aumentante g P s t l.
Proof.
  intros Hbf Hr (Hs & Ht & _ & Hcl) (P & l & Hc & Hpos & _).
  revert Hpos Ht.
  induction Hc as [|v u d l Hvs HP Hc IH]; intros Hpos Hv; [done|].
  apply Forall_cons in Hpos as [Hp Hpos]. simpl in Hp.
  destruct (decide (u ∈ X)) as [Hu|Hu]; [|by apply IH].
  pose proof (residual_vecino g u v d Hbf Hr Hp) as Hady.
  destruct (Hcl u Hu v Hady Hv) as [H1 H2].
  unfold residual in Hp. case_decide; lia.
Qed.

Section Busquedas.

Variable orden : Z → gset Z → list Z.
Hypothesis orden_perm : ∀ u X, orden u X ≡ₚ elements X.


(** X16. [_bfs_aumento], called as by the solver on a well-formed network
    whose stored flow respects the capacities, with at least as much fuel
    as there are nodes, returns, having changed nothing that can be
    observed.  It returns [(True, padre)] exactly when the network has an
    augmenting path, and [padre] then records one; otherwise it returns
    [(False, None)]. *)
Theorem bfs_aumento_busca (g : MaximoFLujo) (s t : Z) (n : nat) :
  bien_formado g → s ∈ _nodos g → t ∈ _nodos g → s ≠ t →
  en_rango (cap g) (flw g) → (size (_nodos g) ≤ n)%nat →
  ∃ b op g',
    _bfs_aumento orden n s t g = Ok (b, op) g' ∧ mismo_obs g g' ∧
    (b = true ↔ ∃ P' l, aumentante g P' s t l) ∧
    if b : bool then
      ∃ padre, op = Some padre ∧ ∃ l, aumentante g (pbfs padre) s t l
    else op = None.
Proof.
  intros Hbf Hs Ht Hst Hr Hn.
  destruct (bfs_inicio_ok g s t Hbf Hs Ht Hst Hr orden n g orden_perm
              (mismo_obs_refl g) Hn) as (b & op & g' & E & Hobs & Hb).
  exists b, op, g'. split; [done|]. split; [done|]. destruct b.
  - split; [|done]. split; [|done]. intros _.
    destruct Hb as (padre & _ & l & Hl). by eexists _, l.
  - destruct Hb as (-> & D & HD). split; [|done]. split; [done|].
    intros Hex. by destruct (corte_sin_camino g s t D Hbf Hr HD).
Qed.

End Busquedas.

(* ===================================================================== *)
(** ** The breadth-first search finds a shortest augmenting path          *)
(* ===================================================================== *)

Lemma cadena_camino g P s v l :
  cadena P s v l → Forall (λ p, 0 < residual g p.1.1 p.1.2 p.2) l →
  camino g s v (length l).
Proof.
  induction 1 as [|v u d l Hne HP Hc IH]; intros Hpos; [constructor|].
  apply Forall_cons in Hpos as [Hp Hpos]. simpl in *.
  by apply (camino_paso g s u v d); [apply IH|].
Qed.

Lemma cadena_func P s v l l' : cadena P s v l → cadena P s v l' → l = l'.
Proof.
  intros H. revert l'.
  induction H as [|v u d l Hne HP Hc IH]; intros l' H'.
  - inversion H'; [done|congruence].
  - inversion H' as [|v' u' d' l'' Hne' HP' Hc']; subst; [done|].
    rewrite HP in HP'. injection HP' as <- <-. f_equal. by apply IH.
Qed.

Lemma bfs_intento_eq res d u t y padre q g :
  lee_residual res d →
  ∃ g', mismo_obs g g' ∧
    bfs_intento res d u t y padre q g
    = Ok (if sin_padre padre y && bool_decide (0 < residual g u y d)
          then if decide (y = t)
               then (true, <[y := Some (u, d)]> padre, q)
               else (false, <[y := Some (u, d)]> padre, q ++ [y])
          else (false, padre, q)) g'.
Proof.
  intros Hres. unfold bfs_intento, bind.
  destruct (sin_padre padre y); simpl.
  - destruct (Hres u y g) as (g2 & -> & Hobs). unfold ret.
    exists g2. split; [done|].
    destruct (decide (0 < residual g u y d)) as [Hp|Hp].
    + rewrite !bool_decide_eq_true_2 by lia. by case_decide.
    + by rewrite !bool_decide_eq_false_2 by lia.
  - exists g. split; [apply mismo_obs_refl|done].
Qed.

Section Capas.

Variable g0 : MaximoFLujo.
Variables s t : Z.
Hypothesis bf_g0 : bien_formado g0.
Hypothesis rango_g0 : en_rango (cap g0) (flw g0).

Lemma capas_fuente padre q D dep :
  capas g0 s padre q D dep → s ∈ D → dep s = 0%nat.
Proof.
  intros (H1 & _) Hs. destruct (H1 s Hs) as (l & Hc & Hlen & _).
  inversion Hc; subst; [done|congruence].
Qed.

Lemma capas_cabeza padre u q D dep x :
  capas g0 s padre (u :: q) D dep → x ∈ u :: q → (dep u ≤ dep x)%nat.
Proof.
  intros (_ & H2 & _) [j Hj]%list_elem_of_lookup.
  apply (H2 0%nat j u x); [lia|done|done].
Qed.

(** Every node that a walk shorter than the recorded path of the head of
    the queue reaches has been expanded. *)
Lemma capas_anteriores padre u q D dep :
  capas g0 s padre (u :: q) D dep → s ∈ D →
  (∀ x, x ∈ D → x ≠ u → x ∉ q → cerrado g0 D x) →
  ∀ z k, camino g0 s z k → (k < dep u)%nat → z ∈ D ∧ z ∉ u :: q.
Proof.
  intros Hcap Hs Hcl z k Hcam.
  induction Hcam as [|x y d k Hcam IH Hres]; intros Hk.
  - split; [done|]. intros Hin.
    pose proof (capas_cabeza _ _ _ _ _ _ Hcap Hin) as Hle.
    rewrite (capas_fuente _ _ _ _ Hcap Hs) in Hle. lia.
  - destruct IH as [HxD Hxq]; [lia|].
    assert (HyD : y ∈ D).
    { destruct (decide (y ∈ D)) as [|HyD]; [done|]. exfalso.
      pose proof (residual_vecino g0 x y d bf_g0 rango_g0 Hres) as Hady.
      apply not_elem_of_cons in Hxq as [Hxu Hxq].
      destruct (Hcl x HxD Hxu Hxq y Hady HyD) as [H1 H2].
      unfold residual in Hres. case_decide; lia. }
    split; [done|]. intros Hin.
    pose proof (capas_cabeza _ _ _ _ _ _ Hcap Hin) as Hle.
    destruct Hcap as (_ & _ & _ & H5).
    pose proof (H5 y (S k) HyD (camino_paso g0 s x y d k Hcam Hres)). lia.
Qed.

(** A node that is discovered from the head of the queue is not reached by
    a walk shorter than its recorded path. *)
Lemma capas_nuevo padre u q D dep y d :
  capas g0 s padre (u :: q) D dep → s ∈ D →
  (∀ x, x ∈ D → x ≠ u → x ∉ q → cerrado g0 D x) →
  y ∉ D → 0 < residual g0 u y d →
  ∀ j, camino g0 s y j → (dep u + 1 ≤ j)%nat.
Proof.
  intros Hcap Hs Hcl HyD Hres j Hcam.
  destruct (decide (dep u + 1 ≤ j)%nat) as [|Hj]; [done|]. exfalso.
  inversion Hcam as [|x y' d' k Hcam' Hres']; subst; [done|].
  destruct (capas_anteriores padre u q D dep Hcap Hs Hcl x k Hcam')
    as [HxD Hxq]; [lia|].
  apply not_elem_of_cons in Hxq as [Hxu Hxq].
  pose proof (residual_vecino g0 x y d' bf_g0 rango_g0 Hres') as Hady.
  destruct (Hcl x HxD Hxu Hxq y Hady HyD).
  unfold residual in Hres'. case_decide; lia.
Qed.

Lemma capas_intento res d u y padre q D g dep :
  lee_residual res d →
  bfs_inv g0 s t padre q D g → u ∈ D →
  (∀ x, x ∈ D → x ≠ u → x ∉ q → cerrado g0 D x) →
  capas g0 s padre (u :: q) D dep →
  ∀ sale padre' q' g',
    bfs_intento res d u t y padre q g = Ok (sale, padre', q') g' →
    if sale : bool then
      ∃ l, cadena (pbfs padre') s t l ∧
           ∀ j, camino g0 s t j → (length l ≤ j)%nat
    else
      ∀ D', (∀ x, x ∈ D' ↔ sin_padre padre' x = false) →
            ∃ dep', capas g0 s padre' (u :: q') D' dep'.
Proof.
  intros Hres Hinv Hu Hcl Hcap sale padre' q' g' Hrun.
  destruct (bfs_intento_eq res d u t y padre q g Hres) as (g2 & Hobs2 & E).
  rewrite E in Hrun. clear E.
  pose proof Hinv as (Hobs & HD & HDN & Hs & Ht & Hch & Hq & Hnd).
  rewrite (mismo_obs_residual g0 g) in Hrun by done.
  assert (Hsame : ∀ D', (∀ x, x ∈ D' ↔ sin_padre padre x = false) →
                        ∃ dep', capas g0 s padre (u :: q) D' dep').
  { intros D' HD'. assert (D' = D) as ->.
    { apply set_eq. intros x. by rewrite HD', HD. }
    by exists dep. }
  destruct (sin_padre padre y) eqn:Hsin; simpl in Hrun; cycle 1.
  { by injection Hrun as <- <- <- <-. }
  case_bool_decide as Hpos; simpl in Hrun; cycle 1.
  { by injection Hrun as <- <- <- <-. }
  assert (HyD : y ∉ D) by (rewrite HD; congruence).
  pose proof (capas_nuevo padre u q D dep y d Hcap Hs Hcl HyD Hpos) as Hmin.
  pose proof Hcap as (H1 & H2 & H3 & H5).
  destruct (H1 u Hu) as (lu & Hlu & Hlen & Hnodu).
  set (padre1 := <[y := Some (u, d)]> padre) in *.
  assert (Hext : ∀ x l, cadena (pbfs padre) s x l →
                        (∀ z, z ∈ nodos_de x l → z ∈ D) →
                        cadena (pbfs padre1) s x l).
  { intros x l Hl Hnod. eapply cadena_ext; [done|]. intros z Hz.
    unfold padre1. rewrite pbfs_insert, decide_False; [done|].
    intros ->. by apply Hnod in Hz. }
  assert (Hly : cadena (pbfs padre1) s y ((u, y, d) :: lu)).
  { constructor.
    - intros ->. done.
    - unfold padre1. by rewrite pbfs_insert, decide_True.
    - by apply Hext. }
  destruct (decide (y = t)) as [->|Hyt].
  { injection Hrun as <- <- <- <-. exists ((u, t, d) :: lu).
    split; [done|]. intros j Hj. simpl. rewrite Hlen.
    specialize (Hmin j Hj). lia. }
  injection Hrun as <- <- <- <-. intros D' HD'.
  assert (HD'eq : ∀ x, x ∈ D' ↔ x = y ∨ x ∈ D).
  { intros x. rewrite HD'. unfold padre1. rewrite sin_padre_insert.
    case_decide; [naive_solver|]. rewrite HD. naive_solver. }
  assert (Hviejo : ∀ x, x ∈ u :: q → x ∈ D ∧ x ≠ y).
  { intros x Hx. assert (x ∈ D).
    { apply elem_of_cons in Hx as [->|Hx]; [done|by apply Hq]. }
    split; [done|]. by intros ->. }
  exists (λ x, if decide (x = y) then S (dep u) else dep x).
  split_and!.
  - intros x [->|Hx]%HD'eq.
    + rewrite decide_True by done. exists ((u, y, d) :: lu).
      split; [done|]. split; [simpl; lia|].
      intros z [->|Hz]%elem_of_cons; apply HD'eq; [by left|right].
      by apply Hnodu.
    + rewrite decide_False by (by intros ->).
      destruct (H1 x Hx) as (l & Hl & Hlenx & Hnod). exists l.
      split; [by apply Hext|]. split; [done|].
      intros z Hz. apply HD'eq. right. by apply Hnod.
  - intros i j a b Hij Ha Hb.
    change (u :: q ++ [y]) with ((u :: q) ++ [y]) in Ha, Hb.
    apply lookup_app_Some in Ha as [Ha|[Hia Ha]];
      apply lookup_app_Some in Hb as [Hb|[Hjb Hb]].
    + destruct (Hviejo a) as [_ ?]; [by eapply list_elem_of_lookup_2|].
      destruct (Hviejo b) as [_ ?]; [by eapply list_elem_of_lookup_2|].
      rewrite !decide_False by done. by eapply H2.
    + destruct (Hviejo a) as [_ ?]; [by eapply list_elem_of_lookup_2|].
      apply list_lookup_singleton_Some in Hb as [_ <-].
      rewrite decide_False, decide_True by done.
      assert (dep a ≤ dep u + 1)%nat; [|lia].
      apply H3; [apply list_elem_of_here|by eapply list_elem_of_lookup_2].
    + apply lookup_lt_Some in Hb. lia.
    + apply list_lookup_singleton_Some in Ha as [_ <-].
      by apply list_lookup_singleton_Some in Hb as [_ <-].
  - intros a b Ha Hb.
    change (u :: q ++ [y]) with ((u :: q) ++ [y]) in Ha, Hb.
    apply elem_of_app in Ha as [Ha|Ha%list_elem_of_singleton];
      apply elem_of_app in Hb as [Hb|Hb%list_elem_of_singleton]; subst.
    + destruct (Hviejo a Ha) as [_ ?]. destruct (Hviejo b Hb) as [_ ?].
      rewrite !decide_False by done. by apply H3.
    + destruct (Hviejo a Ha) as [_ ?].
      rewrite decide_True, decide_False by done.
      pose proof (capas_cabeza _ _ _ _ _ _ Hcap Ha). lia.
    + destruct (Hviejo b Hb) as [_ ?].
      rewrite decide_False, decide_True by done.
      assert (dep b ≤ dep u + 1)%nat; [|lia].
      apply H3; [apply list_elem_of_here|done].
    + lia.
  - intros x j [->|Hx]%HD'eq Hcam.
    + rewrite decide_True by done. specialize (Hmin j Hcam). lia.
    + rewrite decide_False by (by intros ->). by apply H5.
Qed.

Lemma capas_paso res d u y padre q D g dep :
  lee_residual res d →
  bfs_inv g0 s t padre q D g → u ∈ D → y ∈ _nodos g0 →
  (∀ x, x ∈ D → x ≠ u → x ∉ q → cerrado g0 D x) →
  capas g0 s padre (u :: q) D dep →
  ∀ sale padre' q' g',
    bfs_intento res d u t y padre q g = Ok (sale, padre', q') g' →
    if sale : bool then
      ∃ l, cadena (pbfs padre') s t l ∧
           ∀ j, camino g0 s t j → (length l ≤ j)%nat
    else
      ∃ D' dep', bfs_inv g0 s t padre' q' D' g' ∧ u ∈ D' ∧
        (∀ x, x ∈ D' → x ≠ u → x ∉ q' → cerrado g0 D' x) ∧
        capas g0 s padre' (u :: q') D' dep'.
Proof.
  intros Hres Hinv Hu Hy Hcl Hcap sale padre' q' g' E.
  pose proof (capas_intento res d u y padre q D g dep Hres Hinv Hu Hcl Hcap
                _ _ _ _ E) as Hc.
  destruct (bfs_intento_spec g0 s t bf_g0 res d u y padre q D g)
    as (sale0 & padre0 & q0 & g0' & E0 & _ & Hsale0); [done..|].
  rewrite E in E0. injection E0 as <- <- <- <-.
  destruct sale; [done|].
  destruct Hsale0 as (D' & Hinv' & HDD' & Hnew & Hqq' & _ & _).
  destruct (Hc D') as [dep' Hcap']; [by destruct Hinv' as (_ & ? & _)|].
  exists D', dep'. split_and!; [done|by apply HDD'| |done].
  intros x Hx Hxu Hxq'. apply (cerrado_mono g0 D); [done|].
  destruct (Hnew x Hx) as [HxD|?]; [|done]. apply Hcl; [done..|].
  intros Hxq. by apply Hxq', Hqq'.
Qed.

Lemma capas_vecinos u l :
  ∀ padre q D g dep,
    bfs_inv g0 s t padre q D g → u ∈ D → (∀ y, y ∈ l → y ∈ _nodos g0) →
    (∀ x, x ∈ D → x ≠ u → x ∉ q → cerrado g0 D x) →
    capas g0 s padre (u :: q) D dep →
    ∀ sale padre' q' g',
      bfs_vecinos u t l padre q g = Ok (sale, padre', q') g' →
      if sale : bool then
        ∃ l, cadena (pbfs padre') s t l ∧
             ∀ j, camino g0 s t j → (length l ≤ j)%nat
      else
        ∃ D' dep', (∀ x, x ∈ D' ↔ sin_padre padre' x = false) ∧
          (∀ x, x ∈ D' → x ≠ u → x ∉ q' → cerrado g0 D' x) ∧
          capas g0 s padre' (u :: q') D' dep'.
Proof.
  induction l as [|y l IH];
    intros padre q D g dep Hinv Hu Hl Hcl Hcap sale padre' q' g' Hrun.
  { simpl in Hrun. injection Hrun as <- <- <- <-. exists D, dep.
    split_and!; [by destruct Hinv as (_ & ? & _)|done|done]. }
  assert (Hy : y ∈ _nodos g0) by apply Hl, list_elem_of_here.
  simpl in Hrun. unfold bind at 1 in Hrun.
  destruct (bfs_intento _residual_adelante 1 u t y padre q g)
    as [[[sale1 padre1] q1] g1|e g1|] eqn:E1; [|done..].
  pose proof (capas_paso _ 1 u y padre q D g dep residual_adelante_ok
                Hinv Hu Hy Hcl Hcap _ _ _ _ E1) as H1.
  destruct sale1.
  { injection Hrun as <- <- <- <-. done. }
  destruct H1 as (D1 & dep1 & Hinv1 & Hu1 & Hcl1 & Hcap1).
  unfold bind at 1 in Hrun.
  destruct (bfs_intento _residual_atras (-1) u t y padre1 q1 g1)
    as [[[sale2 padre2] q2] g2|e g2|] eqn:E2; [|done..].
  pose proof (capas_paso _ (-1) u y padre1 q1 D1 g1 dep1 residual_atras_ok
                Hinv1 Hu1 Hy Hcl1 Hcap1 _ _ _ _ E2) as H2.
  destruct sale2.
  { injection Hrun as <- <- <- <-. done. }
  destruct H2 as (D2 & dep2 & Hinv2 & Hu2 & Hcl2 & Hcap2).
  refine (IH padre2 q2 D2 g2 dep2 Hinv2 Hu2 _ Hcl2 Hcap2 _ _ _ _ Hrun).
  intros z Hz. apply Hl. by apply list_elem_of_further.
Qed.

Lemma capas_pop padre u q D dep :
  capas g0 s padre (u :: q) D dep → capas g0 s padre q D dep.
Proof.
  intros (H1 & H2 & H3 & H5). split_and!; [done| | |done].
  - intros i j x y Hij Hx Hy. apply (H2 (S i) (S j) x y); [lia|done..].
  - intros x y Hx Hy. apply H3; by apply list_elem_of_further.
Qed.

Lemma capas_bucle (orden : Z → gset Z → list Z) :
  (∀ u X, orden u X ≡ₚ elements X) →
  ∀ n padre q D g dep,
    bfs_inv g0 s t padre q D g →
    (∀ x, x ∈ D → x ∉ q → cerrado g0 D x) →
    capas g0 s padre q D dep →
    ∀ op g', bfs_bucle orden n t padre q g = Ok (true, op) g' →
      ∃ padre' l, op = Some padre' ∧ cadena (pbfs padre') s t l ∧
                  ∀ j, camino g0 s t j → (length l ≤ j)%nat.
Proof.
  intros Horden. induction n as [|n IH];
    intros padre q D g dep Hinv Hcl Hcap op g' Hrun.
  { by destruct q. }
  destruct q as [|u q]; [done|].
  pose proof Hinv as (Hobs & HD & HDN & Hs & Ht & Hch & Hq & Hnd).
  assert (Hu : u ∈ D) by apply Hq, list_elem_of_here.
  apply NoDup_cons in Hnd as [Huq Hndq].
  simpl in Hrun. rewrite decide_False in Hrun by (intros ->; done).
  unfold bind at 1 in Hrun.
  destruct (ady_de_ok u g) as (g1 & E1 & Hobs1). rewrite E1 in Hrun.
  pose proof (mismo_obs_trans _ _ _ Hobs Hobs1) as Hobs01.
  assert (Hinv1 : bfs_inv g0 s t padre q D g1).
  { split_and!; try done. intros x Hx. apply Hq.
    by apply list_elem_of_further. }
  assert (Hvec : ∀ y, y ∈ orden u (vecinos g u) → y ∈ _nodos g0).
  { intros y Hy. rewrite Horden, elem_of_elements in Hy.
    rewrite (mismo_obs_vecinos g0 g) in Hy by done.
    by apply (bf_nodos g0 bf_g0) in Hy as [_ ?]. }
  unfold bind at 1 in Hrun.
  destruct (bfs_vecinos_spec g0 s t bf_g0 u (orden u (vecinos g u))
              padre q D g1)
    as (sale & padre' & q' & g2 & E2 & Hobs2 & Hsale); [done..|].
  rewrite E2 in Hrun.
  assert (Hcl1 : ∀ x, x ∈ D → x ≠ u → x ∉ q → cerrado g0 D x).
  { intros x Hx Hxu Hxq. apply Hcl; [done|].
    by intros [->|?]%elem_of_cons. }
  pose proof (capas_vecinos u _ padre q D g1 dep Hinv1 Hu Hvec Hcl1 Hcap
                _ _ _ _ E2) as Hc.
  destruct sale.
  { injection Hrun as <- <-. destruct Hc as (l & Hl & Hmin).
    by exists padre', l. }
  destruct Hsale as (D' & Hinv' & HDD' & Hnew & Hqq' & Hall & Hsz').
  destruct Hc as (D'' & dep' & HD'' & Hcl' & Hcap').
  assert (D'' = D') as ->.
  { apply set_eq. intros x. rewrite HD''.
    destruct Hinv' as (_ & HD' & _). by rewrite HD'. }
  refine (IH padre' q' D' g2 dep' Hinv' _ (capas_pop _ _ _ _ _ Hcap') _ _ Hrun).
  intros x Hx Hxq'. destruct (decide (x = u)) as [->|Hxu]; [|by apply Hcl'].
  intros y Hy HyD'.
  destruct (Hall y) as [?|Hres]; [|done|].
  { rewrite Horden, elem_of_elements.
    by rewrite (mismo_obs_vecinos g0 g). }
  unfold residual in Hres. simpl in Hres. done.
Qed.

End Capas.

Section Minimo.

Variable orden : Z → gset Z → list Z.
Hypothesis orden_perm : ∀ u X, orden u X ≡ₚ elements X.

(** X17. The path that [_bfs_aumento] records is a shortest augmenting
    path: called as by the solver on a well-formed network whose stored
    flow respects the capacities, with at least as much fuel as there are
    nodes, it returns, and when it returns [(True, padre)] no augmenting
    path from the source to the sink has fewer steps than the one that
    [padre] records. *)
Theorem bfs_camino_minimo (g : MaximoFLujo) (s t : Z) (n : nat) :
  bien_formado g → s ∈ _nodos g → t ∈ _nodos g → s ≠ t →
  en_rango (cap g) (flw g) → (size (_nodos g) ≤ n)%nat →
  ∃ b op g',
    _bfs_aumento orden n s t g = Ok (b, op) g' ∧
    (b = true →
     ∃ padre l, op = Some padre ∧ aumentante g (pbfs padre) s t l ∧
       ∀ P' l', aumentante g P' s t l' → (length l ≤ length l')%nat).
Proof.
  intros Hbf Hs Ht Hst Hr Hn.
  destruct (bfs_inicio_ok g s t Hbf Hs Ht Hst Hr orden n g orden_perm
              (mismo_obs_refl g) Hn) as (b & op & g' & E & Hobs & Hb).
  exists b, op, g'. split; [done|]. intros ->.
  destruct Hb as (padre & -> & l & Hl). exists padre, l.
  split; [done|]. split; [done|]. intros P' l' (Hc' & Hpos' & _).
  unfold _bfs_aumento, bind, estado in E.
  destruct (capas_bucle g s t Hbf Hr orden orden_perm n
              (<[s := Some (s, 0)]> (gset_to_gmap None (_nodos g)))
              [s] {[s]} g (λ _, 0%nat)) with (op := Some padre) (g' := g')
    as (padre' & l2 & Hop & Hl2 & Hmin); [| | |done|].
  - split; [apply mismo_obs_refl|]. split_and!.
    + intros x. rewrite sin_padre_insert, elem_of_singleton.
      case_decide; [done|]. rewrite sin_padre_inicial. naive_solver.
    + set_solver.
    + set_solver.
    + set_solver.
    + intros x ->%elem_of_singleton. exists []. split.
      * split; [constructor|]. split; [constructor|]. apply NoDup_singleton.
      * intros x ->%list_elem_of_singleton. set_solver.
    + intros x ->%list_elem_of_singleton. set_solver.
    + apply NoDup_singleton.
  - intros x ->%elem_of_singleton Hx. exfalso. apply Hx, list_elem_of_here.
  - split_and!.
    + intros x ->%elem_of_singleton. exists []. split; [constructor|].
      split; [done|]. intros z ->%list_elem_of_singleton. set_solver.
    + intros i j x y _ _ _. lia.
    + intros x y _ _. lia.
    + intros x j _ _. lia.
  - injection Hop as <-. destruct Hl as (Hc & _).
    rewrite (cadena_func _ _ _ _ _ Hc Hl2).
    apply Hmin. by eapply cadena_camino.
Qed.

End Minimo.

(* ===================================================================== *)
(** ** The searches on the example network                                *)
(* ===================================================================== *)

Lemma red_A_cero_ok :
  bien_formado red_A_cero ∧ en_rango (cap red_A_cero) (flw red_A_cero).
Proof.
  destruct (reiniciar_flujos_ok red_A 0 3 (bf_pos _ bien_formado_red_A))
    as (g' & E & Hred & _ & [Hr _] & _).
  unfold red_A_cero. rewrite E. simpl. split; [|done].
  by apply (bien_formado_misma_red red_A), bien_formado_red_A.
Qed.


Lemma bfs_aumento_busca_witness :
  bien_formado red_A_cero ∧ 0 ∈ _nodos red_A_cero ∧ 3 ∈ _nodos red_A_cero ∧
  0 ≠ 3 ∧ en_rango (cap red_A_cero) (flw red_A_cero) ∧
  (size (_nodos red_A_cero) ≤ 4)%nat ∧
  ∃ b op g',
    _bfs_aumento orden_ej 4 0 3 red_A_cero = Ok (b, op) g' ∧
    mismo_obs red_A_cero g' ∧
    (b = true ↔ ∃ P' l, aumentante red_A_cero P' 0 3 l) ∧
    if b : bool then
      ∃ padre, op = Some padre ∧ ∃ l, aumentante red_A_cero (pbfs padre) 0 3 l
    else op = None.
Proof.
  assert (H0 : 0 ∈ _nodos red_A_cero) by (vm_compute; reflexivity).
  assert (H3 : 3 ∈ _nodos red_A_cero) by (vm_compute; reflexivity).
  assert (Hne : (0 : Z) ≠ 3) by lia.
  assert (Hn : (size (_nodos red_A_cero) ≤ 4)%nat) by (vm_compute; lia).
  split; [exact (proj1 red_A_cero_ok)|]. split; [exact H0|].
  split; [exact H3|]. split; [exact Hne|].
  split; [exact (proj2 red_A_cero_ok)|]. split; [exact Hn|].
  exact (bfs_aumento_busca orden_ej orden_ej_perm red_A_cero 0 3 4
           (proj1 red_A_cero_ok) H0 H3 Hne (proj2 red_A_cero_ok) Hn).
Defined.

Lemma bfs_camino_minimo_witness :
  bien_formado red_A_cero ∧ 0 ∈ _nodos red_A_cero ∧ 3 ∈ _nodos red_A_cero ∧
  0 ≠ 3 ∧ en_rango (cap red_A_cero) (flw red_A_cero) ∧
  (size (_nodos red_A_cero) ≤ 4)%nat ∧
  ∃ b op g',
    _bfs_aumento orden_ej 4 0 3 red_A_cero = Ok (b, op) g' ∧
    (b = true →
     ∃ padre l, op = Some padre ∧ aumentante red_A_cero (pbfs padre) 0 3 l ∧
       ∀ P' l', aumentante red_A_cero P' 0 3 l' →
                (length l ≤ length l')%nat).
Proof.
  assert (H0 : 0 ∈ _nodos red_A_cero) by (vm_compute; reflexivity).
  assert (H3 : 3 ∈ _nodos red_A_cero) by (vm_compute; reflexivity).
  assert (Hne : (0 : Z) ≠ 3) by lia.
  assert (Hn : (size (_nodos red_A_cero) ≤ 4)%nat) by (vm_compute; lia).
  split; [exact (proj1 red_A_cero_ok)|]. split; [exact H0|].
  split; [exact H3|]. split; [exact Hne|].
  split; [exact (proj2 red_A_cero_ok)|]. split; [exact Hn|].
  exact (bfs_camino_minimo orden_ej orden_ej_perm red_A_cero 0 3 4
           (proj1 red_A_cero_ok) H0 H3 Hne (proj2 red_A_cero_ok) Hn).
Defined.

(** On scenario A the breadth-first search finds the path 0, 2, 3. *)
Example bfs_red_A :
  (λ o, match o with
        | Ok (b, Some padre) _ => (b, padre !! 3, padre !! 2)
        | _ => (false, None, None)
        end) (_bfs_aumento orden_ej 4 0 3 red_A_cero)
  = (true, Some (Some (2, 1)), Some (Some (0, 1))).
Proof. vm_compute. reflexivity. Qed.

(* ===================================================================== *)
(** ** Printing                                                           *)
(* ===================================================================== *)

#[global] Instance par_le_trans : Transitive par_le.
Proof. intros [??] [??] [??]. unfold par_le. simpl. lia. Qed.

#[global] Instance par_le_total : Total par_le.
Proof. intros [??] [??]. unfold par_le. simpl. lia. Qed.

#[global] Instance par_le_antisym : AntiSymm (=) par_le.
Proof.
  intros [u1 v1] [u2 v2]. unfold par_le. simpl. intros H1 H2.
  assert (u1 = u2 ∧ v1 = v2) as [-> ->] by lia. done.
Qed.

Lemma imprimir_claves (m : gmap (Z * Z) Z) (l : list (Z * Z)) :
  (∀ k, k ∈ l → is_Some (m !! k)) →
  ∀ g0 g salida, mismo_obs g0 g →
    ∃ g',
      para_cada l
        (fun '(u, v) salida =>
           let* r := cap_fila u in
           let cap := default 0 (r !! v) in
           match m !! (u, v) with
           | Some f =>
               ret (if decide (cap > 0)
                    then salida ++ [linea_desglose u v f cap] else salida)
           | None => raise KeyError
           end)
        salida g
      = Ok (salida ++ lineas_de g0 m l) g' ∧ mismo_obs g0 g'.
Proof.
  induction l as [|[u v] l IH]; intros Hl g0 g salida Hobs.
  { exists g. simpl. by rewrite app_nil_r. }
  simpl. unfold bind at 1. unfold bind at 1. rewrite cap_fila_eq.
  rewrite entrada_fila. fold (cap g u v).
  destruct (Hl (u, v)) as [f Hf]; [apply list_elem_of_here|].
  rewrite Hf. unfold ret at 1.
  pose proof (mismo_obs_trans _ _ _ Hobs (mismo_obs_tocar_cap g u)) as Hobs1.
  destruct (IH (λ k Hk, Hl k (list_elem_of_further _ _ _ Hk)) g0
              (con_capacidad (tocar ∅ (capacidad g) u) g)
              (if decide (cap g u v > 0)
               then salida ++ [linea_desglose u v f (cap g u v)] else salida)
              Hobs1) as (g' & E & Hobs').
  exists g'. split; [|done]. etrans; [exact E|]. f_equal.
  rewrite (mismo_obs_cap g0 g) by done.
  unfold flujo_de. rewrite Hf. simpl.
  destruct (decide (cap g0 u v > 0)); [|done].
  by rewrite <- (assoc_L (++)).
Qed.

Lemma imprimir_desglose_ok (m : gmap (Z * Z) Z) (g : MaximoFLujo) :
  ∃ g',
    imprimir_desglose m g
    = Ok ([salto +:+ "--- Desglose del Flujo (flujo/capacidad) ---"]
          ++ (if decide (m = ∅) then [" (No hay flujo)"] else [])
          ++ lineas_de g m (merge_sort par_le (map_to_list m).*1)
          ++ ["------------------------------------------------" +:+ salto])
         g' ∧
    mismo_obs g g'.
Proof.
  unfold imprimir_desglose. unfold bind at 1.
  edestruct (imprimir_claves m (merge_sort par_le (map_to_list m).*1))
    as (g' & -> & Hobs); [|apply mismo_obs_refl|].
  { intros k. rewrite merge_sort_Permutation, list_elem_of_fmap.
    intros ([k' x] & -> & Hk%elem_of_map_to_list). by eexists. }
  exists g'. split; [|done]. unfold ret. f_equal.
  case_decide; by rewrite <- !app_assoc.
Qed.

Lemma claves_aristas (g : MaximoFLujo) (m : gmap (Z * Z) Z) :
  (∀ u v, is_Some (m !! (u, v))
          ↔ ∃ c, entrada (capacidad g) u v = Some c ∧ 0 < c) →
  merge_sort par_le (map_to_list m).*1 = (λ t : Z * Z * Z, t.1) <$> aristas g.
Proof.
  intros Hm. apply (StronglySorted_unique par_le).
  - apply (StronglySorted_merge_sort _).
  - pose proof (aristas_ordenadas g) as Hs.
    induction Hs as [|a l Hs IH Hall]; [constructor|].
    rewrite fmap_cons. constructor; [done|].
    rewrite Forall_fmap. eapply Forall_impl; [exact Hall|].
    intros b. unfold par_lt, par_le. simpl. lia.
  - apply NoDup_Permutation.
    + rewrite merge_sort_Permutation. apply NoDup_fst_map_to_list.
    + apply NoDup_fmap_2_strong; [|apply NoDup_aristas].
      intros [[u1 v1] c1] [[u2 v2] c2] [_ H1]%elem_of_aristas
        [_ H2]%elem_of_aristas [= -> ->]. congruence.
    + intros [u v]. rewrite merge_sort_Permutation, !list_elem_of_fmap. split.
      * intros ([k x] & Heq & Hk%elem_of_map_to_list). simpl in Heq.
        subst k. destruct (proj1 (Hm u v)) as (c & Hc & Hpos); [by eexists|].
        exists (u, v, c). split; [done|]. by apply elem_of_aristas.
      * intros ([[u' v'] c] & [= -> ->] & [Hpos Hc]%elem_of_aristas).
        destruct (proj2 (Hm u' v')) as [x Hx]; [by eexists|].
        exists ((u', v'), x). split; [done|]. by apply elem_of_map_to_list.
Qed.

Lemma lineas_de_aristas (g g' : MaximoFLujo) (m : gmap (Z * Z) Z)
    (l : list (Z * Z * Z)) :
  (∀ u v c, (u, v, c) ∈ l → cap g' u v = c ∧ 0 < c) →
  lineas_de g' m ((λ t : Z * Z * Z, t.1) <$> l)
  = (λ '(u, v, c), linea_desglose u v (flujo_de m u v) c) <$> l.
Proof.
  induction l as [|[[u v] c] l IH]; intros Hl; [done|].
  rewrite !fmap_cons. unfold lineas_de in *. simpl.
  destruct (Hl u v c) as [-> Hc]; [apply list_elem_of_here|].
  rewrite decide_True by lia. simpl. f_equal. apply IH.
  intros u' v' c' H. apply Hl. by apply list_elem_of_further.
Qed.

Section Impresion.

Variable orden : Z → gset Z → list Z.
Hypothesis orden_perm : ∀ u X, orden u X ≡ₚ elements X.

(** X18. [imprimir_desglose], given the map that a solver has just
    returned, prints the heading, then one line for each edge that
    [aristas()] lists, in the same order, with the flow of the edge in the
    map and its capacity, then the closing line; it prints
    [(No hay flujo)] after the heading exactly when the network has no
    edge.  It raises nothing and changes nothing that can be observed. *)
Theorem desglose_impreso (n : nat) (g : MaximoFLujo) (s t : Z)
    (total : num) (m : gmap (Z * Z) Z) (g' : MaximoFLujo) :
  bien_formado g →
  ford_fulkerson_dfs orden n s t g = Ok (total, m) g' ∨
  edmonds_karp_bfs orden n s t g = Ok (total, m) g' →
  ∃ g'',
    imprimir_desglose m g'
    = Ok ([salto +:+ "--- Desglose del Flujo (flujo/capacidad) ---"]
          ++ (if decide (aristas g = []) then [" (No hay flujo)"] else [])
          ++ ((λ '(u, v, c), linea_desglose u v (flujo_de m u v) c)
                <$> aristas g)
          ++ ["------------------------------------------------" +:+ salto])
         g'' ∧
    mismo_obs g' g''.
Proof.
  intros Hbf Hrun.
  destruct (solver_post_de orden orden_perm n g s t _ g' Hbf Hrun)
    as (_ & _ & _ & Hpost).
  destruct (solver_post_completo g s t _ g' Hbf Hpost) as [Hkeys _].
  simpl in Hkeys.
  destruct Hpost as (_ & _ & Hred & _).
  destruct (imprimir_desglose_ok m g') as (g'' & -> & Hobs).
  exists g''. split; [|done]. f_equal.
  pose proof (claves_aristas g m Hkeys) as Hclaves.
  rewrite Hclaves. rewrite (lineas_de_aristas g g'); cycle 1.
  { intros u v c [Hc E]%elem_of_aristas. split; [|done].
    rewrite (misma_red_cap g g') by done. by apply cap_entrada. }
  f_equal. f_equal.
  destruct (decide (m = ∅)) as [->|Hm]; destruct (decide (aristas g = []))
    as [Ha|Ha]; try done.
  - exfalso. rewrite map_to_list_empty in Hclaves. simpl in Hclaves.
    symmetry in Hclaves. by apply fmap_nil_inv in Hclaves.
  - exfalso. rewrite Ha in Hclaves. simpl in Hclaves.
    assert (Hp : (map_to_list m).*1 ≡ₚ []).
    { by rewrite <- (merge_sort_Permutation par_le), Hclaves. }
    apply Permutation_nil_r, fmap_nil_inv, map_to_list_empty_iff in Hp. done.
Qed.

End Impresion.

Lemma desglose_impreso_witness :
  bien_formado red_A ∧
  ford_fulkerson_dfs orden_ej 30 0 3 red_A
  = Ok (total_de corrida_dfs_A, mapa_de corrida_dfs_A)
       (default nuevo (estado_final corrida_dfs_A)) ∧
  ∃ g'',
    imprimir_desglose (mapa_de corrida_dfs_A)
      (default nuevo (estado_final corrida_dfs_A))
    = Ok ([salto +:+ "--- Desglose del Flujo (flujo/capacidad) ---"]
          ++ (if decide (aristas red_A = []) then [" (No hay flujo)"] else [])
          ++ ((λ '(u, v, c),
                 linea_desglose u v (flujo_de (mapa_de corrida_dfs_A) u v) c)
                <$> aristas red_A)
          ++ ["------------------------------------------------" +:+ salto])
         g'' ∧
    mismo_obs (default nuevo (estado_final corrida_dfs_A)) g''.
Proof.
  split; [exact bien_formado_red_A|]. split; [exact corrida_dfs_A_eq|].
  exact (desglose_impreso orden_ej orden_ej_perm 30 red_A 0 3 _ _ _
           bien_formado_red_A (or_introl corrida_dfs_A_eq)).
Defined.

(** What is printed for scenario A after a depth-first run. *)
Example desglose_red_A :
  (λ o, match o with Ok l _ => l | _ => [] end)
    (imprimir_desglose (mapa_de corrida_dfs_A)
       (default nuevo (estado_final corrida_dfs_A)))
  = [salto +:+ "--- Desglose del Flujo (flujo/capacidad) ---";
     "Tubería 0 -> 1:   8/10L/s";
     "Tubería 0 -> 2:   8/10L/s";
     "Tubería 1 -> 2:   0/1L/s";
     "Tubería 1 -> 3:   8/8L/s";
     "Tubería 2 -> 3:   8/8L/s";
     "------------------------------------------------" +:+ salto].
Proof. vm_compute. reflexivity. Qed.

(** X19. In a well-formed network without nodes there is no edge, so the
    early return of [mostrar_grafo], which prints that the network is
    empty, leaves nothing unprinted.  With nodes, [mostrar_grafo] prints
    the list of the nodes, then one line for each edge that [aristas()]
    lists, in the same order, or [(Sin tuberías)] if there is none. *)
Theorem mostrar_grafo_completo (g : MaximoFLujo) :
  bien_formado g →
  (nodos g = [] →
   aristas g = [] ∧
   mostrar_grafo g
   = [salto +:+ "--- Estado Actual de la Red ---";
      "La red se encuentra vacia."]) ∧
  (nodos g ≠ [] →
   mostrar_grafo g
   = [salto +:+ "--- Estado Actual de la Red ---";
      "Juntas (Nodos): " +:+ repr_lista (nodos g);
      "Tuberías (u -> v : capacidad L/s):"]
     ++ (if decide (aristas g = []) then [" (Sin tuberías)"] else [])
     ++ ((λ '(u, v, c), linea_arista u v c) <$> aristas g)
     ++ ["---------------------------------" +:+ salto]).
Proof.
  intros Hbf. split; intros Hn.
  - split.
    + destruct (aristas g) as [|[[u v] c] l] eqn:E; [done|]. exfalso.
      assert (Hin : (u, v, c) ∈ aristas g)
        by (rewrite E; apply list_elem_of_here).
      apply elem_of_aristas in Hin as [_ Hin].
      destruct (bien_formado_extremos g u v c Hbf Hin) as [Hu _].
      apply elem_of_nodos in Hu. rewrite Hn in Hu. by apply elem_of_nil in Hu.
    + unfold mostrar_grafo. by rewrite decide_True.
  - unfold mostrar_grafo. by rewrite decide_False.
Qed.

Lemma mostrar_grafo_completo_witness :
  bien_formado nuevo ∧ nodos nuevo = [] ∧
  aristas nuevo = [] ∧
  mostrar_grafo nuevo
  = [salto +:+ "--- Estado Actual de la Red ---";
     "La red se encuentra vacia."].
Proof.
  assert (H : nodos nuevo = []) by reflexivity.
  split; [exact bien_formado_nuevo|]. split; [exact H|].
  exact (proj1 (mostrar_grafo_completo nuevo bien_formado_nuevo) H).
Defined.

Example mostrar_red_A :
  mostrar_grafo red_A
  = [salto +:+ "--- Estado Actual de la Red ---";
     "Juntas (Nodos): [0, 1, 2, 3]";
     "Tuberías (u -> v : capacidad L/s):";
     "  0 -> 1 : 10 L/s";
     "  0 -> 2 : 10 L/s";
     "  1 -> 2 : 1 L/s";
     "  1 -> 3 : 8 L/s";
     "  2 -> 3 : 8 L/s";
     "---------------------------------" +:+ salto].
Proof. vm_compute. reflexivity. Qed.

(* ===================================================================== *)
(** ** The handlers of the window                                         *)
(* ===================================================================== *)

Lemma ford_fulkerson_forma orden n fv sv g :
  ford_fulkerson orden n fv sv g
  = accion_solver (ford_fulkerson_dfs orden n) "Ford–Fulkerson (DFS)"
      "Ford–Fulkerson" fv sv g.
Proof.
  unfold ford_fulkerson, accion_solver, bind, estado.
  destruct (_get_fuente_sumidero fv sv true g) as [[[a b]|] avisos]; done.
Qed.

Lemma accion_edmonds_karp_forma orden n fv sv g :
  accion_edmonds_karp orden n fv sv g
  = accion_solver (edmonds_karp_bfs orden n) "Edmonds–Karp (BFS)"
      "Edmonds–Karp" fv sv g.
Proof.
  unfold accion_edmonds_karp, accion_solver, bind, estado.
  destruct (_get_fuente_sumidero fv sv true g) as [[[a b]|] avisos]; done.
Qed.

Lemma intentar_Ok {A} (c : M A) hecho manejar k g a g' :
  c g = Ok a g' → intentar c hecho manejar k g = k a g'.
Proof. intros E. unfold intentar. by rewrite E. Qed.

Lemma intentar_Agotado {A} (c : M A) hecho manejar k g :
  c g = Agotado → intentar c hecho manejar k g = Agotado.
Proof. intros E. unfold intentar. by rewrite E. Qed.


Lemma get_fuente_sumidero_libre fv sv g :
  ∃ ext avisos,
    _get_fuente_sumidero fv sv false g = (ext, avisos) ∧
    ∀ titulo prefijo e, showerror_exn titulo prefijo e ∉ avisos.
Proof.
  unfold _get_fuente_sumidero.
  destruct fv as [s|]; [destruct sv as [t|]|]; eexists _, _;
    (split; [done|]); intros ??? H;
    repeat (apply elem_of_cons in H as [H|H]; [done|]);
    by apply elem_of_nil in H.
Qed.

Lemma update_all_views_ok fv sv fa (reset_flujo : bool) g :
  ∃ ext avisos,
    _update_all_views fv sv fa reset_flujo g
    = Ok (avisos ++ [dibujar (nodos g) (aristas g) fa ext])
         (if reset_flujo
          then con_flujo ((λ r : gmap Z Z, (λ _, 0) <$> r) <$> flujo g) g
          else g) ∧
    (fv = None ∨ sv = None ∨ avisos = []) ∧
    (∀ s t, fv = Some s → sv = Some t → ext = Some (s, t) ∧ avisos = []) ∧
    ∀ titulo prefijo e, showerror_exn titulo prefijo e ∉ avisos.
Proof.
  unfold _update_all_views, bind, estado.
  destruct reset_flujo; simpl; rewrite ?reiniciar_flujos_eq;
    unfold _get_fuente_sumidero;
    (destruct fv as [s|]; [destruct sv as [t|]|]); eexists _, _;
    (split; [reflexivity|]);
    (split; [by auto|]); (split; [by intros ?? [= <-] [= <-]||done|]);
    intros ??? H;
    repeat (apply elem_of_cons in H as [H|H]; [done|]);
    by apply elem_of_nil in H.
Qed.

Lemma get_fuente_sumidero_nodos s t g :
  s ∈ _nodos g → t ∈ _nodos g →
  _get_fuente_sumidero (Some s) (Some t) true g = (Some (s, t), []).
Proof.
  intros Hs Ht. unfold _get_fuente_sumidero.
  rewrite !decide_False; [done|..]; rewrite elem_of_nodos; tauto.
Qed.


Lemma accion_solver_Agotado solver nl nm s t g :
  s ∈ _nodos g → t ∈ _nodos g → solver s t g = Agotado →
  accion_solver solver nl nm (Some s) (Some t) g = Agotado.
Proof.
  intros Hs Ht E. unfold accion_solver, bind, estado.
  rewrite get_fuente_sumidero_nodos by done. by apply intentar_Agotado.
Qed.

Lemma accion_solver_Raise solver nl nm s t g e g1 :
  s ∈ _nodos g → t ∈ _nodos g → solver s t g = Raise e g1 →
  ∃ evs, accion_solver solver nl nm (Some s) (Some t) g = Ok evs g1 ∧
         showerror_exn "Error en Algoritmo" "Ocurrió un error: " e ∈ evs.
Proof.
  intros Hs Ht E. unfold accion_solver, bind, estado.
  rewrite get_fuente_sumidero_nodos by done. unfold intentar. rewrite E.
  eexists. split; [done|]. set_solver.
Qed.


Section Ventana.

Variable orden : Z → gset Z → list Z.
Hypothesis orden_perm : ∀ u X, orden u X ≡ₚ elements X.

(** X20. Nothing in the window excludes a source equal to the sink: with
    the same node of the network in both fields, neither
    [ford_fulkerson] nor [accion_edmonds_karp] returns, whatever the
    fuel; the handler does not come back to the event loop. *)
Theorem ventana_fuente_igual_sumidero (n : nat) (g : MaximoFLujo) (s : Z) :
  s ∈ _nodos g →
  ford_fulkerson orden n (Some s) (Some s) g = Agotado ∧
  accion_edmonds_karp orden n (Some s) (Some s) g = Agotado.
Proof.
  intros Hs. destruct (solver_fuente_agotado orden n g s Hs) as [E1 E2].
  rewrite ford_fulkerson_forma, accion_edmonds_karp_forma.
  split; by apply accion_solver_Agotado.
Qed.





End Ventana.

Lemma flw_reiniciado g a b :
  flw (con_flujo ((λ r : gmap Z Z, (λ _, 0) <$> r) <$> flujo g) g) a b = 0.
Proof.
  unfold flw, entrada. simpl. rewrite lookup_fmap.
  destruct (flujo g !! a) as [r|]; simpl; [|done].
  rewrite lookup_fmap. by destruct (r !! b).
Qed.

(** An edit followed by [_update_all_views()]. *)
Lemma edicion_ok (c : M unit) fv sv manejar (texto : string) g g1 :
  c g = Ok tt g1 →
  ∃ avisos ext,
    intentar c [] manejar
      (fun _ =>
         intentar (_update_all_views fv sv None true) [] manejar
           (fun vistas => ret (vistas ++ [imprime texto]))) g
    = Ok (avisos ++ [dibujar (nodos g1) (aristas g1) None ext; imprime texto])
         (con_flujo ((λ r : gmap Z Z, (λ _, 0) <$> r) <$> flujo g1) g1) ∧
    ∀ titulo prefijo e, showerror_exn titulo prefijo e ∉ avisos.
Proof.
  intros E. rewrite (intentar_Ok _ _ _ _ _ _ _ E).
  destruct (update_all_views_ok fv sv None true g1)
    as (ext & avisos & E2 & _ & _ & Hav).
  rewrite (intentar_Ok _ _ _ _ _ _ _ E2).
  exists avisos, ext. split; [|done]. unfold ret. f_equal.
  by rewrite <- app_assoc.
Qed.

Lemma sin_except avisos (x y : evento) :
  (∀ titulo prefijo e, showerror_exn titulo prefijo e ∉ avisos) →
  (∀ titulo prefijo e, x ≠ showerror_exn titulo prefijo e) →
  (∀ titulo prefijo e, y ≠ showerror_exn titulo prefijo e) →
  ∀ titulo prefijo e, showerror_exn titulo prefijo e ∉ avisos ++ [x; y].
Proof.
  intros Hav Hx Hy titulo prefijo e [H|H]%elem_of_app; [by eapply Hav|].
  apply elem_of_cons in H as [H|H]; [by eapply Hx|].
  apply list_elem_of_singleton in H. by eapply Hy.
Qed.

(** X23. The two handlers that edit an edge never let an exception out and
    never reach the [AssertionError] of [establecer_capacidad].  If a field
    does not hold an integer, or the capacity is negative, one error box
    is shown and the network is exactly as before.  Otherwise the
    capacity of the edge is what was typed, zero meaning that the edge is
    removed, no other capacity changes, and every stored flow is reset to
    zero. *)
Theorem ventana_aristas (fv sv ou ov oc : option Z) (g : MaximoFLujo) :
  (∃ evs g',
     accion_agregar_arista fv sv ou ov oc g = Ok evs g' ∧
     (∀ titulo prefijo e, showerror_exn titulo prefijo e ∉ evs) ∧
     match ou, ov, oc with
     | Some u, Some v, Some c =>
         if decide (c < 0) then
           g' = g ∧
           evs = [showerror "Error" "La capacidad no puede ser negativa."]
         else
           cap g' u v = c ∧
           (∀ a b, (a, b) ≠ (u, v) →
                   entrada (capacidad g') a b = entrada (capacidad g) a b) ∧
           (∀ a b, flw g' a b = 0)
     | _, _, _ =>
         g' = g ∧
         evs = [showerror "Error"
                  "U, V y Capacidad deben ser números enteros."]
     end) ∧
  (∃ evs g',
     accion_eliminar_arista fv sv ou ov g = Ok evs g' ∧
     (∀ titulo prefijo e, showerror_exn titulo prefijo e ∉ evs) ∧
     match ou, ov with
     | Some u, Some v =>
         entrada (capacidad g') u v = None ∧
         (∀ a b, (a, b) ≠ (u, v) →
                 entrada (capacidad g') a b = entrada (capacidad g) a b) ∧
         (∀ a b, flw g' a b = 0) ∧
         ady g' = ady g ∧ _nodos g' = _nodos g
     | _, _ =>
         g' = g ∧ evs = [showerror "Error" "U y V deben ser números enteros."]
     end).
Proof.
  assert (Huno : ∀ (x : evento) titulo prefijo e,
             (∀ t p e', x ≠ showerror_exn t p e') →
             showerror_exn titulo prefijo e ∉ [x]).
  { intros x ??? Hx H%list_elem_of_singleton. by eapply Hx. }
  split.
  - unfold accion_agregar_arista.
    destruct ou as [u|]; [destruct ov as [v|]; [destruct oc as [c|]|]|];
      try (eexists _, g; split; [reflexivity|]; split; [|done];
           intros; by apply Huno).
    destruct (decide (c < 0)) as [Hc|Hc].
    { eexists _, g. split; [reflexivity|]. split; [|done].
      intros; by apply Huno. }
    destruct (decide (c = 0)) as [->|Hc0].
    + destruct (eliminar_arista_quita u v g)
        as (g1 & E & Hno & Hotros & Hf & _).
      assert (E' : establecer_capacidad u v 0 g = Ok tt g1).
      { unfold establecer_capacidad. by rewrite !decide_True by lia. }
      edestruct (edicion_ok (establecer_capacidad u v 0) fv sv) as
        (avisos & ext & -> & Hav); [exact E'|].
      eexists _, _. split; [reflexivity|]. split; [by apply sin_except|].
      split_and!.
      * unfold cap. simpl. by rewrite Hno.
      * done.
      * apply flw_reiniciado.
    + destruct (establecer_capacidad_pos u v c g)
        as (g1 & E & Hcap & _); [lia|].
      edestruct (edicion_ok (establecer_capacidad u v c) fv sv) as
        (avisos & ext & -> & Hav); [exact E|].
      eexists _, _. split; [reflexivity|]. split; [by apply sin_except|].
      split_and!.
      * unfold cap. simpl. by rewrite Hcap, decide_True.
      * intros a b Hab. simpl. by rewrite Hcap, decide_False.
      * apply flw_reiniciado.
  - unfold accion_eliminar_arista.
    destruct ou as [u|]; [destruct ov as [v|]|];
      try (eexists _, g; split; [reflexivity|]; split; [|done];
           intros; by apply Huno).
    destruct (eliminar_arista_quita u v g)
      as (g1 & E & Hno & Hotros & Hf & Ha & Hn).
    assert (E' : establecer_capacidad u v 0 g = Ok tt g1).
    { unfold establecer_capacidad. by rewrite !decide_True by lia. }
    edestruct (edicion_ok (establecer_capacidad u v 0) fv sv) as
      (avisos & ext & -> & Hav); [exact E'|].
    eexists _, _. split; [reflexivity|]. split; [by apply sin_except|].
    split_and!; try done. apply flw_reiniciado.
Qed.

(** X24. The two handlers that edit a node never let an exception out.
    If the field does not hold an integer, one error box is shown and the
    network is as before.  [accion_agregar_nodo] adds the node, keeps the
    capacities and the adjacency index and resets every stored flow to
    zero.  [accion_eliminar_nodo] changes nothing for a node that is not
    in the network (it shows a warning) or when the question is answered
    with no; otherwise [nodos()] and [aristas()] afterwards list the other
    nodes and the edges between them, and every stored flow is zero. *)
Theorem ventana_nodos (fv sv oid : option Z) (confirma : bool)
    (g : MaximoFLujo) :
  (∃ evs g',
     accion_agregar_nodo fv sv oid g = Ok evs g' ∧
     (∀ titulo prefijo e, showerror_exn titulo prefijo e ∉ evs) ∧
     match oid with
     | Some u =>
         _nodos g' = {[u]} ∪ _nodos g ∧ capacidad g' = capacidad g ∧
         ady g' = ady g ∧ ∀ a b, flw g' a b = 0
     | None =>
         g' = g ∧
         evs = [showerror "Error"
                  "El ID de la junta debe ser un número entero."]
     end) ∧
  (∃ evs g',
     accion_eliminar_nodo fv sv oid confirma g = Ok evs g' ∧
     (∀ titulo prefijo e, showerror_exn titulo prefijo e ∉ evs) ∧
     match oid with
     | Some u =>
         if decide (u ∈ _nodos g ∧ confirma = true) then
           (∀ x, x ∈ nodos g' ↔ x ∈ nodos g ∧ x ≠ u) ∧
           (∀ a b c, (a, b, c) ∈ aristas g' ↔
                     (a, b, c) ∈ aristas g ∧ a ≠ u ∧ b ≠ u) ∧
           (∀ a b, flw g' a b = 0)
         else g' = g
     | None =>
         g' = g ∧
         evs = [showerror "Error"
                  "El ID de la junta debe ser un número entero."]
     end).
Proof.
  assert (Huno : ∀ (x : evento) titulo prefijo e,
             (∀ t p e', x ≠ showerror_exn t p e') →
             showerror_exn titulo prefijo e ∉ [x]).
  { intros x ??? Hx H%list_elem_of_singleton. by eapply Hx. }
  split.
  - unfold accion_agregar_nodo. destruct oid as [u|]; cycle 1.
    { eexists _, g. split; [reflexivity|]. split; [|done].
      intros; by apply Huno. }
    edestruct (edicion_ok (agregar_nodo u) fv sv) as
      (avisos & ext & -> & Hav); [reflexivity|].
    eexists _, _. split; [reflexivity|]. split; [by apply sin_except|].
    split_and!; try done. apply flw_reiniciado.
  - unfold accion_eliminar_nodo. destruct oid as [u|]; cycle 1.
    { eexists _, g. split; [reflexivity|]. split; [|done].
      intros; by apply Huno. }
    unfold bind, estado.
    destruct (decide (u ∉ nodos g)) as [Hu|Hu].
    { eexists _, g. split; [reflexivity|]. split; [intros; by apply Huno|].
      rewrite decide_False; [done|]. rewrite elem_of_nodos in Hu. tauto. }
    apply dec_stable in Hu. rewrite elem_of_nodos in Hu.
    destruct confirma; cycle 1.
    { eexists _, g. split; [reflexivity|]. split; [intros; by apply Huno|].
      rewrite decide_False; [done|]. by intros [_ ?]. }
    destruct (eliminar_nodo_ok u g) as (g1 & E & Hc & _ & _ & _ & Hn).
    rewrite (intentar_Ok _ _ _ _ _ _ _ E).
    destruct (update_all_views_ok fv sv None true g1)
      as (ext & avisos & E2 & _ & _ & Hav).
    rewrite (intentar_Ok _ _ _ _ _ _ _ E2).
    eexists _, _. split; [reflexivity|].
    split; [|rewrite decide_True by done; split_and!].
    + intros titulo prefijo e H.
      apply elem_of_cons in H as [H|H]; [done|].
      apply elem_of_app in H as [H|H];
        [|by apply list_elem_of_singleton in H].
      apply elem_of_app in H as [H|H]; [by eapply Hav|].
      by apply list_elem_of_singleton in H.
    + intros x. rewrite !elem_of_nodos. simpl. rewrite Hn. set_solver.
    + intros a b c. rewrite !elem_of_aristas. simpl. rewrite Hc.
      case_decide; naive_solver.
    + apply flw_reiniciado.
Qed.

Lemma ventana_fuente_igual_sumidero_witness :
  0 ∈ _nodos red_A ∧
  ford_fulkerson orden_ej 1000 (Some 0) (Some 0) red_A = Agotado ∧
  accion_edmonds_karp orden_ej 1000 (Some 0) (Some 0) red_A = Agotado.
Proof.
  assert (H : 0 ∈ _nodos red_A) by (vm_compute; reflexivity).
  split; [exact H|].
  exact (ventana_fuente_igual_sumidero orden_ej 1000 red_A 0 H).
Defined.



(** What the window shows when Ford–Fulkerson is run on scenario B. *)
Example ventana_red_B :
  (λ o, match o with Ok evs _ => evs | _ => [] end)
    (ford_fulkerson orden_ej 10 (Some 0) (Some 1) red_B)
  = [limpiar_output;
     imprime ("=== Calciulando flujo de tuberias desde la planta 0 "
              +:+ "hacia el destino 1 usando Ford–Fulkerson (DFS) ===");
     imprime (salto +:+ " Flujo máximo total (Ford–Fulkerson): 5");
     imprime (salto +:+ "--- Desglose del Flujo (flujo/capacidad) ---");
     imprime "Tubería 0 -> 1:   5/5L/s";
     imprime ("------------------------------------------------" +:+ salto);
     dibujar [0; 1] [(0, 1, 5)] (Some {[(0, 1) := 5]}) (Some (0, 1))].
Proof. vm_compute. reflexivity. Qed.
